(** * Ingestion orchestration core: a shallow embedding of the Python
    sources under [old/sources/base] (device tokens, scheduler, BaseSync,
    sync task, hybrid storage, API client) and proofs of their
    specification. *)

From Stdlib Require Import ZArith Lia List Bool String Ascii.
From Stdlib Require Import Strings.Byte.
From Stdlib Require Import QArith Lqa.
From stdpp Require Import base gmap strings.
Import ListNotations.
Open Scope Z_scope.

(* ===================================================================== *)
(** ** Bytes and Python [str]

    A Python [str] is modelled by its UTF-8 encoding, a [list byte]:
    [s.encode('utf-8')] is the identity and [b.decode('utf-8')] is the
    identity guarded by [utf8_valid].  ASCII separators such as [':'] and
    ['.'] never occur inside a multi-byte UTF-8 sequence, so [str.split]
    on them is a split on the separator byte. *)

Module Bytes.

Definition bz (b : byte) : Z := Z.of_N (Byte.to_N b).

Definition zb (z : Z) : byte :=
  match Byte.of_N (Z.to_N z) with Some b => b | None => x00 end.

Definition bytes_of (s : string) : list byte := list_byte_of_string s.

Fixpoint bytes_eqb (a b : list byte) : bool :=
  match a, b with
  | [], [] => true
  | x :: a', y :: b' => Byte.eqb x y && bytes_eqb a' b'
  | _, _ => false
  end.

(** [str.split(sep)] for a one-character ASCII separator. *)
Fixpoint py_split (sep : byte) (l : list byte) : list (list byte) :=
  match l with
  | [] => [[]]
  | c :: r =>
      if Byte.eqb c sep then [] :: py_split sep r
      else match py_split sep r with
           | h :: t => (c :: h) :: t
           | [] => [[c]]
           end
  end.

(** [len(s)] counts code points: the bytes that do not continue a
    multi-byte sequence. *)
Definition py_len (l : list byte) : nat :=
  length (List.filter (fun b => negb ((128 <=? bz b) && (bz b <? 192))) l).

Definition is_ascii (l : list byte) : bool := forallb (fun b => bz b <? 128) l.

(** [s.rstrip(c)]. *)
Fixpoint drop_while_eq (c : byte) (m : list byte) : list byte :=
  match m with
  | x :: m' => if Byte.eqb x c then drop_while_eq c m' else m
  | [] => []
  end.
Definition rstrip (c : byte) (l : list byte) : list byte :=
  rev (drop_while_eq c (rev l)).

(** Strict UTF-8 well-formedness as checked by Python's decoder
    (no overlong forms, no surrogates, nothing above U+10FFFF). *)
Definition cont (b : byte) : bool := (128 <=? bz b) && (bz b <=? 191).
Definition in_rng (lo hi : Z) (b : byte) : bool := (lo <=? bz b) && (bz b <=? hi).

Fixpoint utf8_valid (l : list byte) : bool :=
  match l with
  | [] => true
  | b :: r =>
      if bz b <? 128 then utf8_valid r
      else if in_rng 194 223 b then
        match r with c1 :: r' => cont c1 && utf8_valid r' | [] => false end
      else if in_rng 224 239 b then
        match r with
        | c1 :: c2 :: r' =>
            (if bz b =? 224 then in_rng 160 191 c1
             else if bz b =? 237 then in_rng 128 159 c1 else cont c1)
            && cont c2 && utf8_valid r'
        | _ => false
        end
      else if in_rng 240 244 b then
        match r with
        | c1 :: c2 :: c3 :: r' =>
            (if bz b =? 240 then in_rng 144 191 c1
             else if bz b =? 244 then in_rng 128 143 c1 else cont c1)
            && cont c2 && cont c3 && utf8_valid r'
        | _ => false
        end
      else false
  end.

End Bytes.

(* ===================================================================== *)
(** ** [hashlib.sha256] and [hmac.new(key, data, sha256).hexdigest()]
    (FIPS 180-4 and RFC 2104), the primitives of [_create_signature]. *)

Module Sha256.
Import Bytes.

Definition w32 (x : Z) : Z := Z.land x (2 ^ 32 - 1).
Definition rotr (x : Z) (n : Z) : Z :=
  Z.lor (Z.shiftr x n) (w32 (Z.shiftl x (32 - n))).
Definition add32 (l : list Z) : Z := w32 (fold_right Z.add 0 l).

(** The round constants and the initial hash value (FIPS 180-4, 4.2.2
    and 5.3.3): the first 32 bits of the fractional parts of the cube
    roots of the first 64 primes, and of the square roots of the first 8. *)
Definition is_prime (n : nat) : bool :=
  Nat.leb 2 n && forallb (fun d => negb (Nat.eqb (n mod d) 0)) (seq 2 (n - 2)).
Definition first_primes (k : nat) : list Z :=
  map Z.of_nat (firstn k (List.filter is_prime (seq 0 312))).

(** [floor (cbrt n)] by bisection on [[lo, hi)]. *)
Fixpoint icbrt (fuel : nat) (n lo hi : Z) : Z :=
  match fuel with
  | O => lo
  | S fuel' =>
      if hi - lo <=? 1 then lo
      else let m := (lo + hi) / 2 in
           if m * m * m <=? n then icbrt fuel' n m hi else icbrt fuel' n lo m
  end.

Definition K : list Z :=
  map (fun p => w32 (icbrt 64 (p * 2 ^ 96) 0 (2 ^ 40))) (first_primes 64).

Definition H0 : list Z :=
  map (fun p => w32 (Z.sqrt (p * 2 ^ 64))) (first_primes 8).

(** Message padding: [0x80], zeros, then the bit length on 64 bits. *)
Definition be_bytes (n : nat) (x : Z) : list Z :=
  map (fun i => Z.land (Z.shiftr x (8 * Z.of_nat (n - 1 - i))) 255) (seq 0 n).

Definition pad (m : list Z) : list Z :=
  let len := Z.of_nat (length m) in
  let k := Z.to_nat ((55 - len) mod 64) in
  m ++ [128] ++ repeat 0 k ++ be_bytes 8 (8 * len).

Fixpoint words (m : list Z) : list Z :=
  match m with
  | a :: b :: c :: d :: r =>
      (Z.lor (Z.shiftl a 24) (Z.lor (Z.shiftl b 16) (Z.lor (Z.shiftl c 8) d)))
        :: words r
  | _ => []
  end.

Fixpoint blocks (fuel : nat) (m : list Z) : list (list Z) :=
  match fuel with
  | O => []
  | S f => match m with
           | [] => []
           | _ => firstn 64 m :: blocks f (skipn 64 m)
           end
  end.

Definition sig0 (x : Z) := Z.lxor (rotr x 7) (Z.lxor (rotr x 18) (Z.shiftr x 3)).
Definition sig1 (x : Z) := Z.lxor (rotr x 17) (Z.lxor (rotr x 19) (Z.shiftr x 10)).
Definition Sig0 (x : Z) := Z.lxor (rotr x 2) (Z.lxor (rotr x 13) (rotr x 22)).
Definition Sig1 (x : Z) := Z.lxor (rotr x 6) (Z.lxor (rotr x 11) (rotr x 25)).
Definition ch (e f g : Z) := Z.lxor (Z.land e f) (Z.land (Z.lxor e (2 ^ 32 - 1)) g).
Definition maj (a b c : Z) := Z.lxor (Z.land a b) (Z.lxor (Z.land a c) (Z.land b c)).

(** Message schedule [W[0..63]], kept most recent first. *)
Fixpoint schedule (n : nat) (w : list Z) : list Z :=
  match n with
  | O => w
  | S n' =>
      let nw := add32 [sig1 (nth 1 w 0); nth 6 w 0; sig0 (nth 14 w 0); nth 15 w 0] in
      schedule n' (nw :: w)
  end.

Definition round (st : list Z) (kw : Z * Z) : list Z :=
  match st with
  | [a; b; c; d; e; f; g; h] =>
      let t1 := add32 [h; Sig1 e; ch e f g; fst kw; snd kw] in
      let t2 := add32 [Sig0 a; maj a b c] in
      [add32 [t1; t2]; a; b; c; add32 [d; t1]; e; f; g]
  | _ => st
  end.

Definition compress (hs : list Z) (block : list Z) : list Z :=
  let w := rev (schedule 48 (rev (words block))) in
  let st := fold_left round (combine K w) hs in
  map (fun p => add32 [fst p; snd p]) (combine hs st).

Definition sha256_z (m : list Z) : list Z :=
  let p := pad m in
  let hs := fold_left compress (blocks (length p) p) H0 in
  flat_map (be_bytes 4) hs.

Definition sha256 (m : list byte) : list byte := map zb (sha256_z (map bz m)).

(** [hmac.new(key, msg, hashlib.sha256).digest()]: block size 64. *)
Definition hmac_sha256 (key msg : list byte) : list byte :=
  let k := map bz (if (64 <? length key)%nat then sha256 key else key) in
  let k := k ++ repeat 0 (64 - length k) in
  let ipad := map zb (map (Z.lxor 0x36) k) in
  let opad := map zb (map (Z.lxor 0x5c) k) in
  sha256 (opad ++ sha256 (ipad ++ msg)).

(** [.hexdigest()]: two lowercase hex digits per byte. *)
Definition hex_digit (v : Z) : byte := zb (if v <? 10 then 48 + v else 87 + v).
Definition hexdigest (d : list byte) : list byte :=
  flat_map (fun b => [hex_digit (Z.shiftr (bz b) 4); hex_digit (Z.land (bz b) 15)]) d.

End Sha256.

(* ===================================================================== *)
(** ** [base64.urlsafe_b64encode] and [base64.urlsafe_b64decode]

    Encoding is [binascii.b2a_base64] followed by [translate(+/ -> -_)];
    decoding is [translate(-_ -> +/)] followed by CPython's non-strict
    [binascii.a2b_base64] state machine (characters outside the alphabet
    are skipped, a pad sequence ends the input once a quad has two or more
    characters, a dangling partial quad is an error). *)

Module Base64.
Import Bytes.

Definition b64_char (v : Z) : Z :=
  if v <? 26 then 65 + v
  else if v <? 52 then 71 + v
  else if v <? 62 then v - 4
  else if v =? 62 then 43 else 47.

Definition A (v : Z) : byte := zb (b64_char v).
Definition pad_char : byte := x3d.

Fixpoint b2a (l : list byte) : list byte :=
  match l with
  | a :: b :: c :: r =>
      [A (Z.shiftr (bz a) 2);
       A (Z.lor (Z.shiftl (Z.land (bz a) 3) 4) (Z.shiftr (bz b) 4));
       A (Z.lor (Z.shiftl (Z.land (bz b) 15) 2) (Z.shiftr (bz c) 6));
       A (Z.land (bz c) 63)] ++ b2a r
  | [a; b] =>
      [A (Z.shiftr (bz a) 2);
       A (Z.lor (Z.shiftl (Z.land (bz a) 3) 4) (Z.shiftr (bz b) 4));
       A (Z.shiftl (Z.land (bz b) 15) 2); pad_char]
  | [a] =>
      [A (Z.shiftr (bz a) 2); A (Z.shiftl (Z.land (bz a) 3) 4); pad_char; pad_char]
  | [] => []
  end.

(** [bytes.translate] by a table of replaced characters. *)
Definition tchar (tbl : list (byte * byte)) (c : byte) : byte :=
  match find (fun p => Byte.eqb (fst p) c) tbl with
  | Some p => snd p
  | None => c
  end.
Definition translate (tbl : list (byte * byte)) (l : list byte) : list byte :=
  map (tchar tbl) l.

Definition to_url : list (byte * byte) := [(x2b, x2d); (x2f, x5f)].
Definition to_std : list (byte * byte) := [(x2d, x2b); (x5f, x2f)].

Definition urlsafe_b64encode (l : list byte) : list byte :=
  translate to_url (b2a l).

Definition a2b_table (c : Z) : Z :=
  if (65 <=? c) && (c <=? 90) then c - 65
  else if (97 <=? c) && (c <=? 122) then c - 71
  else if (48 <=? c) && (c <=? 57) then c + 4
  else if c =? 43 then 62
  else if c =? 47 then 63 else 255.

(** The decoding loop; [None] is a raised [binascii.Error]. *)
Fixpoint a2b (l : list byte) (quad_pos leftchar pads : Z) : option (list byte) :=
  match l with
  | [] => if quad_pos =? 0 then Some [] else None
  | c :: r =>
      if Byte.eqb c pad_char then
        if 2 <=? quad_pos then
          if 4 <=? quad_pos + (pads + 1) then Some []
          else a2b r quad_pos leftchar (pads + 1)
        else a2b r quad_pos leftchar pads
      else
        let v := a2b_table (bz c) in
        if 64 <=? v then a2b r quad_pos leftchar pads
        else if quad_pos =? 0 then a2b r 1 v 0
        else if quad_pos =? 1 then
          option_map (cons (zb (Z.land (Z.lor (Z.shiftl leftchar 2) (Z.shiftr v 4)) 255)))
            (a2b r 2 (Z.land v 15) 0)
        else if quad_pos =? 2 then
          option_map (cons (zb (Z.land (Z.lor (Z.shiftl leftchar 4) (Z.shiftr v 2)) 255)))
            (a2b r 3 (Z.land v 3) 0)
        else
          option_map (cons (zb (Z.land (Z.lor (Z.shiftl leftchar 6) v) 255)))
            (a2b r 0 0 0)
  end.

(** [urlsafe_b64decode(s)] for a [str] argument: [s.encode('ascii')]
    (a [ValueError] on non-ASCII text), then translate and decode. *)
Definition urlsafe_b64decode (s : list byte) : option (list byte) :=
  if is_ascii s then a2b (translate to_std s) 0 0 0 else None.

End Base64.

(* ===================================================================== *)
(** ** [DeviceTokenHandler] ([sources/base/auth/device_token.py])

    The clock and the random sources are explicit arguments:
    [iso_now] is the text of [datetime.utcnow().isoformat()], [now] the same
    instant in seconds, [nonce] the text of [secrets.token_hex(16)]. *)

Module DeviceToken.
Import Bytes Sha256 Base64.

Definition colon : byte := x3a.
Definition dot : byte := x2e.

Record token_data := {
  td_device_id : list byte;
  td_device_type : list byte;
  td_user_id : list byte;
  td_token : list byte;
  td_refresh_token : list byte;
  td_created_at : Z;
  td_expires_at : Z
}.

Section Handler.
(** [self.secret_key], already encoded as UTF-8. *)
Variable secret_key : list byte.

Definition _create_signature (data : list byte) : list byte :=
  hexdigest (hmac_sha256 secret_key data).

Definition _sign_payload (payload : list byte) : list byte :=
  let encoded_payload := rstrip pad_char (urlsafe_b64encode payload) in
  let signature := _create_signature encoded_payload in
  encoded_payload ++ [dot] ++ signature.

Definition generate_device_token (device_id device_type user_id : list byte)
    (iso_now : list byte) (now : Z) (nonce : list byte) : token_data :=
  let payload := device_id ++ [colon] ++ device_type ++ [colon] ++ user_id
                   ++ [colon] ++ iso_now in
  let token := _sign_payload payload in
  let refresh_payload := bytes_of "refresh" ++ [colon] ++ payload ++ [colon] ++ nonce in
  let refresh_token := _sign_payload refresh_payload in
  {| td_device_id := device_id; td_device_type := device_type;
     td_user_id := user_id; td_token := token;
     td_refresh_token := refresh_token; td_created_at := now;
     td_expires_at := now + 30 * 86400 |}.

(** [hmac.compare_digest] on two [str]: a [TypeError] ([None]) unless both
    are ASCII, otherwise equality. *)
Definition compare_digest (a b : list byte) : option bool :=
  if is_ascii a && is_ascii b then Some (bytes_eqb a b) else None.

(** [urlsafe_b64decode(payload + '=' * (4 - len(payload) % 4)).decode('utf-8')];
    [None] is any exception. *)
Definition decode_payload (payload : list byte) : option (list byte) :=
  match urlsafe_b64decode (payload ++ repeat pad_char (4 - Nat.modulo (py_len payload) 4)) with
  | Some raw => if utf8_valid raw then Some raw else None
  | None => None
  end.

(** Every exception is caught and turned into [False]. *)
Definition validate_device_token (token device_id : list byte) : bool :=
  match py_split dot token with
  | [payload; signature] =>
      let expected_signature := _create_signature payload in
      match compare_digest signature expected_signature with
      | Some true =>
          match decode_payload payload with
          | Some decoded =>
              match py_split colon decoded with
              | p0 :: _ => bytes_eqb p0 device_id
              | [] => false
              end
          | None => false
          end
      | _ => false
      end
  | _ => false
  end.

Definition refresh_device_token (refresh_token device_id : list byte)
    (iso_now : list byte) (now : Z) (nonce : list byte) : option token_data :=
  if negb (validate_device_token refresh_token device_id) then None
  else
    let payload := nth 0 (py_split dot refresh_token) [] in
    match decode_payload payload with
    | None => None
    | Some decoded =>
        let payload_parts := py_split colon decoded in
        if (length payload_parts <? 3)%nat then None
        else match nth_error payload_parts 1, nth_error payload_parts 2,
                   nth_error payload_parts 3 with
             | Some d, Some t, Some u => Some (generate_device_token d t u iso_now now nonce)
             | _, _, _ => None (* IndexError on payload_parts[3] *)
             end
    end.

(** Pairing sessions: [create_pairing_session] and [complete_pairing]. *)
Record pairing_session := {
  ps_session_id : list byte;
  ps_pairing_code : list byte;
  ps_created_at : Z;
  ps_expires_at : Z;
  ps_status : list byte
}.

Definition create_pairing_session (session_id pairing_code : list byte)
    (now : Z) (ttl_seconds : Z) : pairing_session :=
  {| ps_session_id := session_id; ps_pairing_code := pairing_code;
     ps_created_at := now; ps_expires_at := now + ttl_seconds;
     ps_status := bytes_of "pending" |}.

(** [device_info] is given by its [device_id] and [device_type] entries;
    the result is the token data extended with [paired_at] and
    [session_id]. *)
Definition complete_pairing (session_id user_id : list byte)
    (device_id device_type : list byte) (iso_now : list byte) (now : Z)
    (nonce : list byte) : token_data * Z * list byte :=
  let token_data := generate_device_token device_id device_type user_id iso_now now nonce in
  (token_data, now, session_id).

End Handler.
End DeviceToken.

(* ===================================================================== *)
(** ** [should_sync] (scheduler/tasks/maintenance_tasks.py)

    Datetimes are UTC seconds since the epoch (naive datetimes are taken
    as UTC, as the source does).  [croniter] is modelled for expressions
    whose minute and hour fields are [*], [*/n] or a number and whose
    day-of-month, month and day-of-week fields are [*]; the string is
    given already parsed. *)

Module Cron.

Inductive field := Star | Every (n : Z) | At (n : Z).

Record cron_expr := { c_minute : field; c_hour : field }.

Definition field_matches (f : field) (v : Z) : bool :=
  match f with
  | Star => true
  | Every n => v mod n =? 0
  | At n => v =? n
  end.

(** Whether the minute starting at [t] is a fire time. *)
Definition cron_matches (e : cron_expr) (t : Z) : bool :=
  field_matches (c_minute e) ((t / 60) mod 60) &&
  field_matches (c_hour e) ((t / 3600) mod 24).

Fixpoint search (e : cron_expr) (m : Z) (fuel : nat) : option Z :=
  match fuel with
  | O => None
  | S f => if cron_matches e m then Some m else search e (m + 60) f
  end.

(** [croniter(e, start).get_next(datetime)]: the first fire time strictly
    after [start].  With the three day fields at [*] a fire time recurs
    within a day, so one day of minutes is searched; [None] (no fire
    time at all) is the error croniter raises. *)
Definition get_next (e : cron_expr) (start : Z) : option Z :=
  search e (60 * (start / 60 + 1)) 1440.

(** The fields of the stream dict that [should_sync] reads. *)
Record stream := {
  cron_schedule : option cron_expr;
  last_ingestion_at : option Z
}.

Definition should_sync (s : stream) (now : Z) : bool :=
  match cron_schedule s with
  | None => false
  | Some e =>
      match last_ingestion_at s with
      | None => true
      | Some last_sync =>
          match get_next e last_sync with
          | Some next_run => next_run <=? now
          | None => false
          end
      end
  end.

(** [*/30 * * * *]. *)
Definition every_30 : cron_expr := {| c_minute := Every 30; c_hour := Star |}.

End Cron.

(* ===================================================================== *)
(** ** [BaseSync.get_sync_date_range] (interfaces/sync.py) over the
    [StreamWrapper] of scheduler/tasks/sync_sources.py

    The stream row is a dict from column names to Python values; a column
    the row does not carry is a missing key.  Datetimes are UTC seconds,
    [timedelta(days=n)] is [86400 * n] seconds.  A date range is a pair of
    optional datetimes, and [None] is a raised exception. *)

Module SyncRange.

Inductive pyval := PNone | PInt (z : Z) | PStr (s : string) | PTime (t : Z).

Definition stream_dict := gmap string pyval.

(** [self._dict.get(k, default)]. *)
Definition dict_get (d : stream_dict) (k : string) (default : pyval) : pyval :=
  match d !! k with Some v => v | None => default end.

(** The [StreamWrapper] properties. *)
Definition last_successful_ingestion_at (d : stream_dict) : pyval :=
  dict_get d "last_ingestion_at" PNone.
Definition initial_sync_type (d : stream_dict) : pyval :=
  dict_get d "initial_sync_type" (PStr "limited").
Definition initial_sync_days (d : stream_dict) : pyval :=
  dict_get d "initial_sync_days" (PInt 90).
Definition initial_sync_days_future (d : stream_dict) : pyval :=
  dict_get d "initial_sync_days_future" (PInt 30).

Definition date_range := (option Z * option Z)%type.

(** The abstract methods a connector implements. *)
Class BaseSync := {
  get_full_sync_range : option date_range;
  get_incremental_sync_range : option date_range
}.

(** [StreamWrapper] defines the property, so [hasattr] always holds. *)
Definition is_initial_sync (d : stream_dict) : bool :=
  match last_successful_ingestion_at d with PNone => true | _ => false end.

Definition is_full (v : pyval) : bool :=
  match v with PStr s => String.eqb s "full" | _ => false end.

(** [timedelta(days=v)] in seconds: an [int] of magnitude above
    [999999999] raises [OverflowError], other types raise [TypeError]. *)
Definition days (v : pyval) : option Z :=
  match v with
  | PInt n => if Z.abs n <=? 999999999 then Some (86400 * n) else None
  | _ => None
  end.

(** [datetime.min] and the last whole second of [datetime.max]
    (0001-01-01T00:00:00 and 9999-12-31T23:59:59) in UTC seconds. *)
Definition datetime_min : Z := -62135596800.
Definition datetime_max : Z := 253402300799.

Definition in_datetime_range (t : Z) : bool := (datetime_min <=? t) && (t <=? datetime_max).

(** [t + timedelta(seconds=delta)]: [OverflowError] outside years
    1..9999. *)
Definition dt_add (t delta : Z) : option Z :=
  if in_datetime_range (t + delta) then Some (t + delta) else None.

Definition get_sync_date_range `{BaseSync} (d : stream_dict) (now : Z) : option date_range :=
  if is_initial_sync d then
    let sync_type := initial_sync_type d in
    if is_full sync_type then get_full_sync_range
    else
      let days_past := initial_sync_days d in
      let days_future := initial_sync_days_future d in
      match days days_past, days days_future with
      | Some p, Some f =>
          match dt_add now (- p), dt_add now f with
          | Some start, Some end_ => Some (Some start, Some end_)
          | _, _ => None
          end
      | _, _ => None
      end
  else get_incremental_sync_range.

(** A connector whose full range is unrestricted and whose incremental
    sync is token-based, used in the examples. *)
#[export] Instance token_sync : BaseSync :=
  {| get_full_sync_range := Some (None, None);
     get_incremental_sync_range := Some (None, None) |}.

End SyncRange.

(* ===================================================================== *)
(** ** The [sync_stream] Celery task (scheduler/tasks/sync_sources.py)

    The task is modelled from the point where its ingestion activity has
    been inserted.  The database holds the rows the task writes; the
    SQLAlchemy session keeps its executed statements pending until
    [db.commit()], and [db.close()] drops what is still pending. *)

Module SyncTask.

Local Set Warnings "-register-all".
Local Open Scope string_scope.
Local Open Scope Z_scope.

(** Python values in a stats dict.  [VDateTime t aware] is a [datetime]
    ([aware]: it carries [timezone.utc]); [VOther] is any value that is
    none of these kinds and that [json.dumps] refuses (a [date], a
    [UUID], a [set], ...); [VTokens m] is the [str] [json.dumps(m)] of a
    dict of [str] tokens. *)
Inductive value :=
  | VNone
  | VBool (b : bool)
  | VInt (z : Z)
  | VStr (s : string)
  | VDateTime (t : Z) (aware : bool)
  | VOther (type_name : string)
  | VTokens (m : gmap string string)
  | VList (l : list value)
  | VDict (d : list (string * value)).

(** [bool(v)]. *)
Definition truthy (v : value) : bool :=
  match v with
  | VNone => false
  | VBool b => b
  | VInt z => negb (z =? 0)
  | VStr s => negb (String.eqb s "")
  | VDateTime _ _ => true
  | VOther _ => true
  | VTokens _ => true
  | VList l => negb (Nat.eqb (List.length l) 0)
  | VDict d => negb (Nat.eqb (List.length d) 0)
  end.

Definition stats := list (string * value).

(** [stats.get(k, default)]. *)
Fixpoint get (d : stats) (k : string) (default : value) : value :=
  match d with
  | [] => default
  | (k', v) :: d' => if String.eqb k k' then v else get d' k default
  end.

(** [datetime.isoformat()] of a whole-second UTC time. *)
Definition digit (n : Z) : ascii := ascii_of_nat (Z.to_nat (48 + n)).
Fixpoint digits (w : nat) (n : Z) : string :=
  match w with
  | O => ""
  | S w' => String.append (digits w' (n / 10)) (String (digit (n mod 10)) "")
  end.

Definition civil_from_days (z : Z) : Z * Z * Z :=
  let z := z + 719468 in
  let era := z / 146097 in
  let doe := z - era * 146097 in
  let yoe := (doe - doe / 1460 + doe / 36524 - doe / 146096) / 365 in
  let doy := doe - (365 * yoe + yoe / 4 - yoe / 100) in
  let mp := (5 * doy + 2) / 153 in
  let d := doy - (153 * mp + 2) / 5 + 1 in
  let m := if mp <? 10 then mp + 3 else mp - 9 in
  (yoe + era * 400 + (if m <=? 2 then 1 else 0), m, d).

Definition isoformat (t : Z) (aware : bool) : string :=
  let '(y, m, d) := civil_from_days (t / 86400) in
  let s := t mod 86400 in
  String.concat "" [digits 4 y; "-"; digits 2 m; "-"; digits 2 d; "T";
    digits 2 (s / 3600); ":"; digits 2 ((s / 60) mod 60); ":"; digits 2 (s mod 60);
    if aware then "+00:00" else ""].

Fixpoint json_serializable (v : value) : value :=
  match v with
  | VDateTime t aware => VStr (isoformat t aware)
  | VDict d => VDict (map (fun '(k, x) => (k, json_serializable x)) d)
  | VList l => VList (map json_serializable l)
  | _ => v
  end.

(** [json.dumps(v)] succeeds on [None], [bool], [int], [str], lists and
    dicts of them; the JSON text is represented by the value it encodes. *)
Fixpoint json_ok (v : value) : bool :=
  match v with
  | VDateTime _ _ | VOther _ => false
  | VList l => forallb json_ok l
  | VDict d => forallb (fun '(_, x) => json_ok x) d
  | _ => true
  end.

Definition json_dumps (v : value) : option value := if json_ok v then Some v else None.

Record exc := { exc_type : string; exc_msg : string }.

(** The class name of the first value [json.dumps] refuses, in the order
    the encoder visits them: depth first, lists in order, dicts in
    insertion order. *)
Fixpoint unserializable_type (v : value) : option string :=
  match v with
  | VDateTime _ _ => Some "datetime"
  | VOther type_name => Some type_name
  | VList l =>
      (fix go (l : list value) : option string :=
         match l with
         | [] => None
         | x :: l' => match unserializable_type x with Some n => Some n | None => go l' end
         end) l
  | VDict d =>
      (fix go (d : list (string * value)) : option string :=
         match d with
         | [] => None
         | (_, x) :: d' => match unserializable_type x with Some n => Some n | None => go d' end
         end) d
  | _ => None
  end.

(** The [TypeError] of [json.dumps]:
    [f'Object of type {o.__class__.__name__} is not JSON serializable']. *)
Definition json_error (v : value) : exc :=
  {| exc_type := "TypeError";
     exc_msg := String.append "Object of type "
                  (String.append (match unserializable_type v with Some n => n | None => "" end)
                     " is not JSON serializable") |}.

(** The rows the task writes. *)
Record activity_row := {
  act_status : string;
  act_records : value;
  act_metadata : option value;
  act_error : option string
}.

Record db := {
  last_ingestion_at : option Z;      (* stream_configs.last_ingestion_at *)
  sync_cursor : value;               (* streams.sync_cursor *)
  last_sync_status : option string;  (* streams.last_sync_status *)
  activity : option activity_row     (* pipeline_activities, this run *)
}.

Inductive stmt :=
  | InsertActivity
  | UpdateLastIngestion (now : Z)
  | UpdateCursor (cursor : value)
  | ActivityCompleted (records : value) (metadata : value)
  | ActivityFailed (message : string).

Definition apply_stmt (d : db) (s : stmt) : db :=
  match s with
  | InsertActivity =>
      {| last_ingestion_at := last_ingestion_at d; sync_cursor := sync_cursor d;
         last_sync_status := last_sync_status d;
         activity := Some {| act_status := "running"; act_records := VNone;
                             act_metadata := None; act_error := None |} |}
  | UpdateLastIngestion now =>
      {| last_ingestion_at := Some now; sync_cursor := sync_cursor d;
         last_sync_status := last_sync_status d; activity := activity d |}
  | UpdateCursor c =>
      {| last_ingestion_at := last_ingestion_at d; sync_cursor := c;
         last_sync_status := Some "success"; activity := activity d |}
  | ActivityCompleted r m =>
      {| last_ingestion_at := last_ingestion_at d; sync_cursor := sync_cursor d;
         last_sync_status := last_sync_status d;
         activity := Some {| act_status := "completed"; act_records := r;
                             act_metadata := Some m; act_error := None |} |}
  | ActivityFailed msg =>
      {| last_ingestion_at := last_ingestion_at d; sync_cursor := sync_cursor d;
         last_sync_status := last_sync_status d;
         activity := Some {| act_status := "failed";
                             act_records := match activity d with
                                            | Some a => act_records a | None => VNone end;
                             act_metadata := match activity d with
                                             | Some a => act_metadata a | None => None end;
                             act_error := Some msg |} |}
  end.

Record session := { committed : db; pending : list stmt }.

Definition open_session (d : db) : session := {| committed := d; pending := [] |}.
Definition execute (st : stmt) (s : session) : session :=
  {| committed := committed s; pending := pending s ++ [st] |}.
Definition commit (s : session) : session :=
  {| committed := fold_left apply_stmt (pending s) (committed s); pending := [] |}.
Definition close (s : session) : db := committed s.

(** The [try] block after [sync.run()]: [run] is what [sync.run()]
    returned or raised. *)
Definition try_block (run : exc + stats) (now : Z) (s : session) : (exc + stats) * session :=
  match run with
  | inl e => (inl e, s)
  | inr st =>
      let s := execute (UpdateLastIngestion now) s in
      (* [stream.get("stream_instance_id")] is the primary key [s.id] of
         the row the query joined, never empty *)
      let s := if truthy (get st "next_sync_token" VNone)
               then execute (UpdateCursor (get st "next_sync_token" VNone)) s else s in
      let records := get st "records_processed"
                       (get st "events_processed" (get st "locations_processed" (VInt 0))) in
      match json_dumps (json_serializable (VDict st)) with
      | None => (inl (json_error (json_serializable (VDict st))), s)
      | Some m => (inr st, commit (execute (ActivityCompleted records m) s))
      end
  end.

(** [any(marker in error_message ...)]: substring search. *)
Fixpoint contains (needle hay : string) : bool :=
  match hay with
  | EmptyString => String.eqb needle ""
  | String _ hay' => String.prefix needle hay || contains needle hay'
  end.

Definition non_retryable_errors : list string :=
  ["ProgrammingError"; "UndefinedColumn"; "AuthenticationError"; "PermissionError";
   "Unauthorized"].

Definition error_message (e : exc) : string :=
  String.append (exc_type e) (String.append ": " (exc_msg e)).

Definition should_retry (e : exc) : bool :=
  negb (existsb (fun m => contains m (error_message e)) non_retryable_errors).

(** How the task function ends: it returns, raises Celery's [Retry] (the
    task is re-sent with this countdown), or raises an exception. *)
Inductive body_result := BReturn | BRetry (countdown : Z) | BRaise (e : exc).

(** Celery's [Task.retry(exc=e, countdown=c, max_retries=m)], run in a
    worker: the retried call would be number [retries + 1]; past
    [max_retries] the exception [e] itself is raised, otherwise the task
    is re-sent and [Retry] raised. *)
Definition retry (request_retries max_retries countdown : Z) (e : exc) : body_result :=
  if max_retries <? request_retries + 1 then BRaise e else BRetry countdown.

(** [Task.max_retries] and [Task.default_retry_delay], Celery's defaults,
    which [sync_stream] does not override; [retry_kwargs] gives
    [max_retries = 3] to the autoretry wrapper. *)
Definition max_retries : Z := 3.
Definition default_retry_delay : Z := 180.

Definition except_block (request_retries : Z) (e : exc) (s : session) : body_result * session :=
  let msg := error_message e in
  let s := commit (execute (ActivityFailed (substring 0 1000 msg)) s) in
  if should_retry e && (request_retries <? max_retries) then
    (retry request_retries max_retries (60 * 2 ^ request_retries) e, s)
  else (BRaise e, s).

(** The task function from the insertion of its activity to [db.close()]. *)
Definition sync_stream_body (request_retries : Z) (run : exc + stats) (now : Z) (d : db)
    : body_result * db :=
  let s := commit (execute InsertActivity (open_session d)) in
  match try_block run now s with
  | (inr _, s) => (BReturn, close s)
  | (inl e, s) => let '(r, s) := except_block request_retries e s in (r, close s)
  end.

(** What the worker does with the task's run. *)
Inductive outcome := Succeeded | Requeued (countdown : Z) | Failed (e : exc).

(** [autoretry_for=(Exception,), retry_kwargs={'max_retries': 3}]: Celery
    wraps the task so that [Retry] passes through and any other exception
    [e] becomes [task.retry(exc=e, max_retries=3)] with the default
    countdown. *)
Definition autoretry (request_retries : Z) (r : body_result) : outcome :=
  match r with
  | BReturn => Succeeded
  | BRetry c => Requeued c
  | BRaise e =>
      match retry request_retries 3 default_retry_delay e with
      | BRetry c => Requeued c
      | BRaise e' => Failed e'
      | BReturn => Succeeded
      end
  end.

Definition sync_stream (request_retries : Z) (run : exc + stats) (now : Z) (d : db)
    : outcome * db :=
  let '(r, d') := sync_stream_body request_retries run now d in
  (autoretry request_retries r, d').

End SyncTask.

(* ===================================================================== *)
(** ** The sync cursor of [GoogleCalendarSync._run_sync]
    (google/calendar/sync.py) and the stats envelope of [BaseSync.run]

    The calendar loop (listing calendars and paging through events) is
    summarised by what it leaves behind: the new per-calendar tokens
    [calendar_sync_tokens] and the counters. *)

Module GoogleCalendar.
Import SyncTask.

Local Open Scope string_scope.
Local Open Scope Z_scope.

(** [d[k] = v] on a dict kept in insertion order. *)
Fixpoint dict_set (k : string) (v : value) (d : stats) : stats :=
  match d with
  | [] => [(k, v)]
  | (k', v') :: d' => if String.eqb k k' then (k, v) :: d' else (k', v') :: dict_set k v d'
  end.

(** [d.update(new)]. *)
Definition dict_update (d new : stats) : stats :=
  fold_left (fun acc '(k, v) => dict_set k v acc) new d.

(** [json.loads(self.stream.sync_token)] when the token is truthy: a [str]
    not written by [json.dumps] of a token dict is taken as invalid JSON,
    which the code turns into [{}]. *)
Definition existing_sync_tokens (sync_token : value) : gmap string string :=
  match sync_token with VTokens m => m | _ => ∅ end.

(** [all_sync_tokens = existing_sync_tokens.copy(); all_sync_tokens.update(calendar_sync_tokens)]. *)
Definition all_sync_tokens (existing calendar_sync_tokens : gmap string string)
    : gmap string string :=
  calendar_sync_tokens ∪ existing.

Definition _run_sync (sync_token : value) (calendar_sync_tokens : gmap string string)
    (events_processed calendars_synced started_at completed_at : Z) (is_initial : bool)
    : stats :=
  let all := all_sync_tokens (existing_sync_tokens sync_token) calendar_sync_tokens in
  [("events_processed", VInt events_processed); ("calendars_synced", VInt calendars_synced);
   ("errors", VList []); ("started_at", VDateTime started_at true);
   ("completed_at", VDateTime completed_at true);
   ("next_sync_token", if decide (all = ∅) then VNone else VTokens all);
   ("is_initial_sync", VBool is_initial)].

(** [BaseSync.run] around [fetch_data]: the envelope, updated with the
    connector's result, then [status] and [completed_at]. *)
Definition run (is_initial : bool) (sync_type : string) (started_at now : Z) (result : stats)
    : stats :=
  let st := [("started_at", VStr (isoformat started_at false));
             ("is_initial_sync", VBool is_initial); ("sync_type", VStr sync_type)] in
  let st := dict_update st result in
  let st := dict_set "status" (VStr "success") st in
  dict_set "completed_at" (VStr (isoformat now false)) st.

End GoogleCalendar.

(* ===================================================================== *)
(** ** [StreamProcessor.process_batch] with object-store fields
    (processors/base.py)

    A processed record is a dict (field name to value, in insertion
    order).  [store_raw_data(...)] is a coroutine: creating it cannot
    fail, awaiting it uploads.  What each upload returns is given by
    [upload idx field]: the stored key, or [None] when it raised;
    [asyncio.gather] returns the results in task order. *)

Module Processor.
Import Bytes Base64.

Inductive fval := FNone | FInt (z : Z) | FStr (s : list byte) | FBytes (b : list byte) | FOther.

Definition record := list (string * fval).

(** [d.get(k)] and [d[k] = v] on a dict kept in insertion order. *)
Fixpoint assoc (d : record) (k : string) : option fval :=
  match d with
  | [] => None
  | (k', v) :: d' => if String.eqb k k' then Some v else assoc d' k
  end.

Fixpoint dict_set (k : string) (v : fval) (d : record) : record :=
  match d with
  | [] => [(k, v)]
  | (k', v') :: d' => if String.eqb k k' then (k, v) :: d' else (k', v') :: dict_set k v d'
  end.

Definition is_minio (minio_fields : list string) (k : string) : bool :=
  existsb (String.eqb k) minio_fields.

Definition is_none (v : fval) : bool := match v with FNone => true | _ => false end.

(** [base64.b64decode(s)]: [s] must be ASCII, then the non-strict decoder. *)
Definition b64decode (s : list byte) : option (list byte) :=
  if is_ascii s then a2b s 0 0 0 else None.

(** The [try] block that prepares one upload: the value of
    [postgres_record['file_size']], or [None] for the exception it
    catches (a failed [b64decode], a record without ['source_id']). *)
Definition prepare (field_name : string) (value : fval) (processed_data : record) : option Z :=
  let binary_data :=
    match value with
    | FStr s => if String.eqb field_name "audio_data" then option_map FBytes (b64decode s)
                else Some value
    | _ => Some value
    end in
  match binary_data, assoc processed_data "source_id" with
  | Some b, Some _ => Some (match b with FBytes l => Z.of_nat (length l) | _ => 0 end)
  | _, _ => None
  end.

(** One record: its [postgres_record] and the fields whose upload task
    was created, in order. *)
Definition split_step (minio_fields : list string) (processed_data : record)
    (acc : record * list string) (item : string * fval) : record * list string :=
  let '(postgres_record, tasks) := acc in
  let '(field_name, value) := item in
  if is_minio minio_fields field_name && negb (is_none value) then
    match prepare field_name value processed_data with
    | Some n => (dict_set "file_size" (FInt n) postgres_record, tasks ++ [field_name])
    | None => (postgres_record, tasks)
    end
  else (dict_set field_name value postgres_record, tasks).

Definition split_record (minio_fields : list string) (processed_data : record)
    : record * list string :=
  fold_left (split_step minio_fields processed_data) processed_data ([], []).

(** [minio_tasks] paired with [record_indices]. *)
Fixpoint tasks_from (idx : nat) (split : list (record * list string)) : list (nat * string) :=
  match split with
  | [] => []
  | (_, fields) :: rest => map (pair idx) fields ++ tasks_from (S idx) rest
  end.

Section Batch.
Variable upload : nat -> string -> option (list byte).

(** What the results of index [idx] do to its own row. *)
Definition row_apply (idx : nat) (row : record) (field_name : string) : record :=
  match upload idx field_name with
  | Some result => dict_set "minio_path" (FStr result) row
  | None => row
  end.

(** [records_for_db[idx]['minio_path'] = result] for a successful upload. *)
Definition apply_result (records_for_db : list record) (task : nat * string) : list record :=
  let '(idx, field_name) := task in
  match upload idx field_name with
  | Some result => alter (dict_set "minio_path" (FStr result)) idx records_for_db
  | None => records_for_db
  end.

(** The rows handed to [_bulk_insert]. *)
Definition process_batch (minio_fields : list string) (processed : list record) : list record :=
  match minio_fields with
  | [] => processed
  | _ =>
      let split := map (split_record minio_fields) processed in
      fold_left apply_result (tasks_from 0 split) (map fst split)
  end.

End Batch.

End Processor.

(* ===================================================================== *)
(** ** [BaseAPIClient._execute_request] and [_make_request]
    (clients/base.py)

    The client is its bearer token and the log of what it did for one
    call: requests sent (with the token of their [Authorization]
    header), calls of [token_refresher] and backoff sleeps.  The server
    answers the [n]-th request of the call, sent with token [tok], with
    status [server n tok]; the [n]-th call of the refresher has outcome
    [token_refresher n].  The recursion of [_execute_request] is run on
    a step budget; [ApiClientClaims.execute_request_terminates] shows
    that [8] steps are always enough from [retry_on_401=True,
    retry_count=0]. *)

Module ApiClient.
Local Open Scope string_scope.
Local Open Scope Z_scope.

Inductive refresh_outcome :=
  | RToken (new_token : string)   (** returns a string *)
  | RNone                         (** returns [None] *)
  | RRaise.                       (** raises *)

Inductive event := Req (token : string) | Refresh | Sleep (seconds : Z).

Record client := { access_token : string; trace : list event }.

Definition RETRY_STATUS_CODES : list Z := [429; 500; 502; 503; 504].
Definition MAX_RETRIES : nat := 3.

Definition is_req (e : event) : bool := match e with Req _ => true | _ => false end.
Definition is_refresh (e : event) : bool := match e with Refresh => true | _ => false end.
Definition count_req (tr : list event) : nat := length (List.filter is_req tr).
Definition count_refresh (tr : list event) : nat := length (List.filter is_refresh tr).

Definition log (e : event) (c : client) : client :=
  {| access_token := access_token c; trace := (trace c ++ [e])%list |}.

(** [self._update_token(new_token)] *)
Definition _update_token (new_token : string) (c : client) : client :=
  {| access_token := new_token; trace := trace c |}.

Definition truthy_str (s : string) : bool := negb (String.eqb s "").

Section Client.
Variable server : nat -> string -> Z.
Variable token_refresher : option (nat -> refresh_outcome).

(** [await session.request(..., headers=self.headers)] *)
Definition send (c : client) : Z * client :=
  (server (count_req (trace c)) (access_token c), log (Req (access_token c)) c).

(** [await self.token_refresher()] *)
Definition call_refresher (f : nat -> refresh_outcome) (c : client) : refresh_outcome * client :=
  (f (count_refresh (trace c)), log Refresh c).

Fixpoint exec (fuel : nat) (retry_on_401 : bool) (retry_count : nat) (c : client)
    : option (Z * client) :=
  match fuel with
  | O => None
  | S fuel' =>
      let '(status, c1) := send c in
      let backoff (c' : client) :=
        if existsb (Z.eqb status) RETRY_STATUS_CODES && Nat.ltb retry_count MAX_RETRIES then
          exec fuel' retry_on_401 (S retry_count)
               (log (Sleep (2 ^ Z.of_nat retry_count)) c')
        else Some (status, c') in
      match (if (status =? 401) && retry_on_401 then token_refresher else None) with
      | Some f =>
          let '(new_token, c2) := call_refresher f c1 in
          match new_token with
          | RToken t => if truthy_str t then exec fuel' false 0 (_update_token t c2) else backoff c2
          | RNone | RRaise => backoff c2
          end
      | None => backoff c1
      end
  end.

Definition _execute_request (retry_on_401 : bool) (retry_count : nat) (c : client)
    : option (Z * client) :=
  exec 8 retry_on_401 retry_count c.

(** [_make_request]: [retry_on_401=True, retry_count=0], then
    [response.raise_for_status()] ([inl status] is the raised
    [HTTPStatusError]). *)
Definition _make_request (c : client) : option ((Z + Z) * client) :=
  match _execute_request true 0 c with
  | Some (status, c') => Some (if 400 <=? status then inl status else inr status, c')
  | None => None
  end.

End Client.

(** A call starting with token [tok]. *)
Definition fresh (tok : string) : client := {| access_token := tok; trace := [] |}.

End ApiClient.

(* ===================================================================== *)
(** ** [RateLimiter] and [BaseAPIClient.paginate] (clients/base.py)

    Times are [time.time()] readings in seconds, as exact rationals (the
    float rounding of [1.0 / requests_per_second] is not modelled).  The
    [asyncio.Lock] makes the calls of [acquire] run one after the other;
    each call reads the clock twice, before and after its sleep. *)

Module RateLimiter.
Local Open Scope Q_scope.

Record rate_limiter := {
  requests_per_second : Q;
  min_interval : Q;
  last_request_time : Q
}.

Definition init (requests_per_second : Q) : rate_limiter :=
  {| requests_per_second := requests_per_second;
     min_interval := if Qlt_le_dec 0 requests_per_second then 1 / requests_per_second else 0;
     last_request_time := 0 |}.

(** [acquire], given the two readings of [time.time()]: the sleep it
    awaits, if any, and the limiter afterwards. *)
Definition acquire (r : rate_limiter) (current_time after_sleep : Q) : option Q * rate_limiter :=
  let time_since_last := current_time - last_request_time r in
  let sleep_time :=
    if Qlt_le_dec time_since_last (min_interval r)
    then Some (min_interval r - time_since_last) else None in
  (sleep_time, {| requests_per_second := requests_per_second r;
                  min_interval := min_interval r; last_request_time := after_sleep |}).

Definition slept (s : option Q) : Q := match s with Some d => d | None => 0 end.

(** A run of calls of [acquire] on one limiter: each call's readings and
    sleep.  The second reading is the time the call records, the time of
    its request. *)
Fixpoint run_acquire (r : rate_limiter) (readings : list (Q * Q)) : list (Q * Q * option Q) :=
  match readings with
  | [] => []
  | (t, a) :: rest => let '(s, r') := acquire r t a in (t, a, s) :: run_acquire r' rest
  end.

End RateLimiter.

Module Paginate.

(** What [self.get(endpoint, params=params)] (or [self.post]) gives for a
    page: the decoded JSON (a dict with a ['data'] list, or any other
    value), the [HTTPStatusError] of [raise_for_status], or another
    exception.  Items are opaque. *)
Inductive json := JData (data : list Z) | JOther (id : Z).
Inductive get_result := GOk (r : json) | GHttpError (status : Z) | GError.

Inductive page_yield := YData (data : list Z) | YResponse (r : json).

(** How the generator ends: it returns, raises, or is still running when
    the fuel of the model runs out. *)
Inductive ending := Finished | RaisedHttp (status : Z) | RaisedOther | Running.

Section Pages.
(** The answer to the request for page [n]. *)
Variable get_page : nat -> get_result.

(** The [while] loop from [page]: the pages requested, the values
    yielded, and how it ends. *)
Fixpoint pages (fuel : nat) (max_pages : option nat) (page : nat)
    : list nat * list page_yield * ending :=
  match fuel with
  | O => ([], [], Running)
  | S fuel' =>
      if match max_pages with None => true | Some m => Nat.leb page m end then
        match get_page page with
        | GOk (JData data) =>
            match data with
            | [] => ([page], [], Finished)
            | _ :: _ =>
                let '(ps, ys, e) := pages fuel' max_pages (S page) in
                (page :: ps, YData data :: ys, e)
            end
        | GOk r => ([page], [YResponse r], Finished)
        | GHttpError status =>
            if Z.eqb status 404 then ([page], [], Finished) else ([page], [], RaisedHttp status)
        | GError => ([page], [], RaisedOther)
        end
      else ([], [], Finished)
  end.

Definition paginate (fuel : nat) (max_pages : option nat) : list nat * list page_yield * ending :=
  pages fuel max_pages 1.

End Pages.

(** The last page of a run, one that is not a non-empty ['data'] page:
    what it makes the loop yield, and how the loop then ends. *)
Definition stop_yield (g : get_result) : list page_yield :=
  match g with GOk (JOther r) => [YResponse (JOther r)] | _ => [] end.

Definition stop_ending (g : get_result) : ending :=
  match g with
  | GOk _ => Finished
  | GHttpError status => if Z.eqb status 404 then Finished else RaisedHttp status
  | GError => RaisedOther
  end.

End Paginate.

(* ===================================================================== *)
(** ** [AuthManager] (sources/base/auth/manager.py): the device-token,
    API-key and no-auth paths

    A credentials dict maps [str] keys to [str] values.  The OAuth path
    awaits a provider over the network; it is kept as the call
    [_authenticate_oauth(source_name, credentials)] it makes.  [None]
    is the [ValueError] the manager raises. *)

Module AuthManager.
Import Bytes DeviceToken.
Local Open Scope string_scope.
Local Open Scope Z_scope.

Inductive AuthType := OAUTH | DEVICE_TOKEN | API_KEY | NONE.

Definition SOURCE_AUTH_TYPES : list (string * AuthType) :=
  [("google_calendar", OAUTH); ("notion_pages", OAUTH); ("strava_activities", OAUTH);
   ("ios_healthkit", DEVICE_TOKEN); ("ios_location", DEVICE_TOKEN); ("ios_mic", DEVICE_TOKEN);
   ("mac_apps", DEVICE_TOKEN)].

Fixpoint dict_lookup {A} (k : string) (d : list (string * A)) : option A :=
  match d with
  | [] => None
  | (k', v) :: d' => if String.eqb k k' then Some v else dict_lookup k d'
  end.

(** [self.SOURCE_AUTH_TYPES.get(source_name, AuthType.NONE)] *)
Definition get_auth_type (source_name : string) : AuthType :=
  match dict_lookup source_name SOURCE_AUTH_TYPES with Some a => a | None => NONE end.

Abbreviation credentials := (gmap string (list byte)).

(** [key in credentials] *)
Definition has (k : string) (c : credentials) : bool :=
  match c !! k with Some _ => true | None => false end.

(** The result dicts of the manager. *)
Inductive auth_result :=
  | Issued (td : token_data)
      (** [{'authenticated': True, 'type': 'device_token', **token_data}] *)
  | Checked (is_valid : bool) (token : option (list byte))
      (** [{'authenticated': is_valid, 'type': 'device_token', 'token': ...}] *)
  | RefreshRejected
      (** [{'authenticated': False, 'type': 'device_token', 'error': 'Invalid refresh token'}] *)
  | ApiKey (api_key : list byte)
      (** [{'authenticated': True, 'type': 'api_key', 'api_key': ...}] *)
  | NoAuth
      (** [{'authenticated': True, 'type': 'none'}] *)
  | OAuth (source_name : string) (c : credentials)
      (** [await self._authenticate_oauth(source_name, c)] *).

Section Manager.
(** The [DeviceTokenHandler]'s key, and the clock and random source of
    its [generate_device_token]. *)
Variable secret_key : list byte.
Variables (iso_now : list byte) (now : Z) (nonce : list byte).
(** [datetime.fromisoformat], in UTC seconds; [None] is its [ValueError]. *)
Variable fromisoformat : list byte -> option Z.

Definition _authenticate_device (source_name : string) (c : credentials) : option auth_result :=
  match c !! "device_id", c !! "user_id", c !! "token", c !! "refresh_token" with
  | Some device_id, Some user_id, _, _ =>
      let device_type := if SyncTask.contains "ios" source_name
                         then bytes_of "ios" else bytes_of "mac" in
      Some (Issued (generate_device_token secret_key device_id device_type user_id
                      iso_now now nonce))
  | Some device_id, None, Some token, _ =>
      let is_valid := validate_device_token secret_key token device_id in
      Some (Checked is_valid (if is_valid then Some token else None))
  | Some device_id, None, None, Some refresh_token =>
      match refresh_device_token secret_key refresh_token device_id iso_now now nonce with
      | Some new_token => Some (Issued new_token)
      | None => Some RefreshRejected
      end
  | _, _, _, _ => None
  end.

Definition _validate_api_key (c : credentials) : option auth_result :=
  match c !! "api_key" with Some k => Some (ApiKey k) | None => None end.

Definition authenticate_source (source_name : string) (c : credentials) : option auth_result :=
  match get_auth_type source_name with
  | OAUTH => Some (OAuth source_name c)
  | DEVICE_TOKEN => _authenticate_device source_name c
  | API_KEY => _validate_api_key c
  | NONE => Some NoAuth
  end.

(** What [refresh_credentials] returns: [None], a result dict, or an
    exception. *)
Inductive refreshed := NoRefresh | Refreshed (r : auth_result) | RefreshRaised.

(** [if expires_at: expiry = datetime.fromisoformat(expires_at); if expiry
    <= datetime.utcnow() + window: if 'refresh_token' in ...] *)
Definition due (cur : credentials) (utcnow window : Z) (k : list byte -> refreshed) : refreshed :=
  match cur !! "expires_at" with
  | Some ((_ :: _) as expires_at) =>
      match fromisoformat expires_at with
      | None => RefreshRaised
      | Some expiry =>
          if expiry <=? utcnow + window then
            match cur !! "refresh_token" with Some rt => k rt | None => NoRefresh end
          else NoRefresh
      end
  | _ => NoRefresh
  end.

Definition refresh_credentials (source_name : string) (cur : credentials) (utcnow : Z)
    : refreshed :=
  match get_auth_type source_name with
  | OAUTH =>
      due cur utcnow 300 (fun rt => Refreshed (OAuth source_name {[ "refresh_token" := rt ]}))
  | DEVICE_TOKEN =>
      due cur utcnow 86400 (fun rt =>
        match cur !! "device_id" with
        | Some d =>
            match _authenticate_device source_name
                    (<[ "device_id" := d ]> {[ "refresh_token" := rt ]}) with
            | Some r => Refreshed r
            | None => RefreshRaised
            end
        | None =>
            (* [{'refresh_token': rt, 'device_id': None}]: the refresh branch,
               where [validate_device_token(rt, None)] is [False] (a [str]
               never equals [None]) *)
            Refreshed RefreshRejected
        end)
  | _ => NoRefresh
  end.

End Manager.
End AuthManager.

(* ===================================================================== *)
(** ** The calendar loop of [GoogleCalendarSync._run_sync] *)

Module CalendarLoop.
Local Open Scope string_scope.

(** What [self.client.list_events(...)] gives: the decoded page (its
    ['items'], ['nextPageToken'] and ['nextSyncToken'], [None] when a key
    is missing), an [httpx.HTTPStatusError], or another exception.
    Events are opaque. *)
Inductive lresult :=
  | LOk (items : list Z) (nextPageToken nextSyncToken : option string)
  | LHttpError (status : Z)
  | LError.

(** The arguments of a call: the sync token passed ([None] for the full
    sync without it) and the page token. *)
Record call := { c_sync_token : option string; c_page_token : option string }.

(** The ['type'] of an entry appended to [stats["errors"]]. *)
Inductive err_type := SyncTokenExpired | CalendarNotFound | HttpError | GeneralError.

(** What leaves [list_events] inside the body of the [while] loop: the
    [continue] of the inner handler, a page, or an exception. *)
Inductive exc := EHttp (status : Z) | EOther.
Inductive step := SRetryFull | SPage (items : list Z) (npt nst : option string) | SRaise (e : exc).

(** Truthiness of an optional string. *)
Definition truthy (o : option string) : bool :=
  match o with Some s => ApiClient.truthy_str s | None => false end.

Definition list_events_result (r : lresult) : step :=
  match r with
  | LOk items npt nst => SPage items npt nst
  | LHttpError status => SRaise (EHttp status)
  | LError => SRaise EOther
  end.

(** The [while True] loop for one calendar, the [n]-th call of
    [list_events] being answered by [answer n]: the calls made, the
    number of events counted, the errors appended, the token stored in
    [calendar_sync_tokens] for the calendar, and whether the loop ended
    (by [break]) before the fuel of the model ran out. *)
Fixpoint cal_loop (answer : nat -> call -> lresult) (fuel n : nat)
    (use_sync_token : option string) (fallback_to_time_sync : bool) (page_token : option string)
    : list call * nat * list err_type * option string * bool :=
  match fuel with
  | O => ([], 0%nat, [], None, false)
  | S fuel' =>
      let incremental := truthy use_sync_token && negb fallback_to_time_sync in
      let c := if incremental
               then {| c_sync_token := use_sync_token; c_page_token := page_token |}
               else {| c_sync_token := None; c_page_token := page_token |} in
      let s := if incremental then
                 match answer n c with
                 | LHttpError status =>
                     (* the inner handler: [continue] on 410, [raise] otherwise *)
                     if Z.eqb status 410 then SRetryFull else SRaise (EHttp status)
                 | r => list_events_result r
                 end
               else list_events_result (answer n c) in
      match s with
      | SRetryFull =>
          let '(cs, ev, errs, stored, ended) := cal_loop answer fuel' (S n) None true None in
          (c :: cs, ev, SyncTokenExpired :: errs, stored, ended)
      | SPage items npt nst =>
          let stored := match nst with Some t => if truthy npt then None else Some t | None => None end in
          if truthy npt then
            let '(cs, ev, errs, stored', ended) :=
              cal_loop answer fuel' (S n) use_sync_token fallback_to_time_sync npt in
            (c :: cs, (length items + ev)%nat, errs, stored', ended)
          else ([c], length items, [], stored, true)
      | SRaise (EHttp status) =>
          (* the outer handlers of the body *)
          ([c], 0%nat, [if Z.eqb status 404 then CalendarNotFound else HttpError], None, true)
      | SRaise EOther => ([c], 0%nat, [GeneralError], None, true)
      end
  end.

(** [use_sync_token and use_sync_token.strip()], for an ASCII token:
    [str.strip] removes the characters 9 to 13 and 28 to 32. *)
Definition is_space (a : ascii) : bool :=
  let n := nat_of_ascii a in
  (Nat.leb 9 n && Nat.leb n 13) || (Nat.leb 28 n && Nat.leb n 32).

Definition initial_token (o : option string) : option string :=
  match o with
  | Some s => if existsb (fun a => negb (is_space a)) (list_ascii_of_string s) then Some s else None
  | None => None
  end.

(** An entry of [list_calendars()]: its ['id'] and its ['selected'] flag
    ([None] when the key is missing). *)
Record calendar := { cal_id : string; cal_selected : option bool }.

(** The selection at the head of the [for] loop, [selected_calendar_ids]
    being [self.stream.settings["calendar_ids"]] when set. *)
Definition is_selected (selected_calendar_ids : option (list string)) (cal : calendar) : bool :=
  match selected_calendar_ids with
  | Some ids => existsb (String.eqb (cal_id cal)) ids
  | None => match cal_selected cal with Some false => false | _ => true end
  end.

(** The [for] loop over the calendars, each one's loop given [fuel]:
    [calendars_synced], [events_processed], the errors with their
    calendar, [calendar_sync_tokens], and the calls made. *)
Fixpoint calendars_loop (answer : string -> nat -> call -> lresult) (fuel : nat)
    (selected_calendar_ids : option (list string)) (existing_sync_tokens : gmap string string)
    (calendars : list calendar) (cst : gmap string string)
    : nat * nat * list (string * err_type) * gmap string string * list (string * call) :=
  match calendars with
  | [] => (0%nat, 0%nat, [], cst, [])
  | cal :: rest =>
      if is_selected selected_calendar_ids cal then
        let '(cs, ev, errs, stored, _) :=
          cal_loop (answer (cal_id cal)) fuel 0
            (initial_token (existing_sync_tokens !! cal_id cal)) false None in
        let cst' := match stored with Some t => <[cal_id cal := t]> cst | None => cst end in
        let '(synced, ev', errs', cst'', calls) :=
          calendars_loop answer fuel selected_calendar_ids existing_sync_tokens rest cst' in
        (S synced, (ev + ev')%nat, (map (pair (cal_id cal)) errs ++ errs')%list, cst'',
         (map (pair (cal_id cal)) cs ++ calls)%list)
      else calendars_loop answer fuel selected_calendar_ids existing_sync_tokens rest cst
  end.

Definition is_expired (e : err_type) : bool :=
  match e with SyncTokenExpired => true | _ => false end.

(** [batch_metadata["sync_type"]]. *)
Definition batch_sync_type (calendar_sync_tokens : gmap string string) : string :=
  if decide (calendar_sync_tokens = ∅) then "full" else "incremental".

End CalendarLoop.

(* ===================================================================== *)
(** ** The row [sync_stream] wraps in a [StreamWrapper] *)

Module StreamRow.
Import SyncRange.
Local Open Scope string_scope.

(** [dict(result._mapping)] for the row of the query of [sync_stream]:
    the columns of [stream_configs] ([stc.*]), then the instance columns
    it selects by name, each one present whether or not it is [NULL]
    ([PNone]). *)
Definition stream_row (stc : stream_dict)
    (initial_sync_type initial_sync_days initial_sync_days_future last_ingestion_at : pyval)
    : stream_dict :=
  <["last_ingestion_at" := last_ingestion_at]>
  (<["initial_sync_days_future" := initial_sync_days_future]>
  (<["initial_sync_days" := initial_sync_days]>
  (<["initial_sync_type" := initial_sync_type]> stc))).

Section Settings.
(** The values of a settings dict are opaque. *)
Variable V : Type.

(** A JSON settings column: [NULL] or a dict. *)
Inductive setting_col := SNull | SDict (kvs : list (string * V)).

(** [d[k] = v] on a dict kept in insertion order. *)
Fixpoint set_item (k : string) (v : V) (d : list (string * V)) : list (string * V) :=
  match d with
  | [] => [(k, v)]
  | (k', v') :: d' => if String.eqb k k' then (k, v) :: d' else (k', v') :: set_item k v d'
  end.

Fixpoint lookup_key (d : list (string * V)) (k : string) : option V :=
  match d with
  | [] => None
  | (k', v) :: d' => if String.eqb k k' then Some v else lookup_key d' k
  end.

(** [{**a, **b}]. *)
Definition merge (a b : list (string * V)) : list (string * V) :=
  fold_left (fun acc '(k, v) => set_item k v acc) b a.

(** The [settings] property of [StreamWrapper], given the two entries of
    the row ([None] when the key is missing): [{**None}] raises
    [TypeError]. *)
Definition settings (config_settings instance_settings : option setting_col)
    : option (list (string * V)) :=
  let c := match config_settings with Some s => s | None => SDict [] end in
  let i := match instance_settings with Some s => s | None => SDict [] end in
  match c, i with
  | SDict a, SDict b => Some (merge a b)
  | _, _ => None
  end.

End Settings.
Arguments SNull {V}.
Arguments SDict {V} kvs.
Arguments set_item {V} k v d.
Arguments lookup_key {V} d k.
Arguments merge {V} a b.
Arguments settings {V} config_settings instance_settings.

End StreamRow.

(* ===================================================================== *)
(** ** Stream names, module paths and processor class names *)

Module Naming.
Local Open Scope char_scope.

(** ASCII text as a list of characters; [str.upper], [str.lower] and
    [str.capitalize] act on the letters [A-Z] and [a-z]. *)
Definition is_upper (a : ascii) : bool :=
  let n := nat_of_ascii a in Nat.leb 65 n && Nat.leb n 90.
Definition is_lower (a : ascii) : bool :=
  let n := nat_of_ascii a in Nat.leb 97 n && Nat.leb n 122.
Definition to_upper (a : ascii) : ascii :=
  if is_lower a then ascii_of_nat (nat_of_ascii a - 32) else a.
Definition to_lower (a : ascii) : ascii :=
  if is_upper a then ascii_of_nat (nat_of_ascii a + 32) else a.

Definition lower (s : list ascii) : list ascii := map to_lower s.

Definition capitalize (s : list ascii) : list ascii :=
  match s with [] => [] | c :: r => to_upper c :: lower r end.

Definition underscore : ascii := "_".

(** [s.split(c)]. *)
Fixpoint split_on (c : ascii) (s : list ascii) : list (list ascii) :=
  match s with
  | [] => [[]]
  | x :: r =>
      if Ascii.eqb x c then [] :: split_on c r
      else match split_on c r with
           | h :: t => (x :: h) :: t
           | [] => [[x]]
           end
  end.

(** [s.split(c, 1)]. *)
Fixpoint split_once (c : ascii) (s : list ascii) : list (list ascii) :=
  match s with
  | [] => [[]]
  | x :: r =>
      if Ascii.eqb x c then [[]; r]
      else match split_once c r with
           | h :: t => (x :: h) :: t
           | [] => [[x]]
           end
  end.

(** [c.join(parts)]. *)
Definition join (c : ascii) (parts : list (list ascii)) : list ascii :=
  match parts with
  | [] => []
  | x :: rest => x ++ concat (map (fun y => c :: y) rest)
  end.

Definition list_eqb (a b : list ascii) : bool :=
  if List.list_eq_dec ascii_dec a b then true else false.

(** The [stream_suffix] of [SourceRegistry.get_sync_class] and of
    [get_processor_class]. *)
Definition stream_suffix (source_name stream_name : list ascii) : list ascii :=
  match split_once underscore stream_name with
  | [p0; p1] => if list_eqb p0 source_name then p1 else stream_name
  | _ => stream_name
  end.

Definition StreamProcessor_suffix : list ascii := list_ascii_of_string "StreamProcessor".

(** [''.join(p.capitalize() for p in stream_name.split('_')) + 'StreamProcessor']. *)
Definition processor_class_name (stream_name : list ascii) : list ascii :=
  concat (map capitalize (split_on underscore stream_name)) ++ StreamProcessor_suffix.

(** [re.findall('[A-Z][a-z]+', s)], scanning left to right: [cur] is
    the match being read, an upper-case letter and the lower-case
    letters after it, kept when it has at least one of them. *)
Definition emit (w : list ascii) : list (list ascii) := if (2 <=? length w)%nat then [w] else [].

Fixpoint findall_from (s : list ascii) (cur : option (list ascii)) : list (list ascii) :=
  match s with
  | [] => match cur with Some w => emit w | None => [] end
  | c :: r =>
      match cur with
      | Some w =>
          if is_lower c then findall_from r (Some (w ++ [c]))
          else emit w ++ (if is_upper c then findall_from r (Some [c]) else findall_from r None)
      | None => if is_upper c then findall_from r (Some [c]) else findall_from r None
      end
  end.

Definition findall_words (s : list ascii) : list (list ascii) := findall_from s None.

Definition ends_with (suffix s : list ascii) : bool :=
  (length suffix <=? length s)%nat && list_eqb (skipn (length s - length suffix) s) suffix.

(** The source name and stream suffix [StreamProcessor.__init__] derives
    from its class name, [None] for its [ValueError]s. *)
Definition init_paths (class_name : list ascii) : option (list ascii * list ascii) :=
  if ends_with StreamProcessor_suffix class_name then
    let name_parts := firstn (length class_name - 15) class_name in
    match findall_words name_parts with
    | p0 :: ((_ :: _) as rest) => Some (lower p0, join underscore (map lower rest))
    | _ => None
    end
  else None.

End Naming.

Module Sha256Tests.
Import Bytes Sha256.
Example sha256_abc :
  hexdigest (sha256 (bytes_of "abc")) =
  bytes_of "ba7816bf8f01cfea414140de5dae2223b00361a396177a9cb410ff61f20015ad".
Proof. vm_compute. reflexivity. Qed.
Example hmac_vector :
  hexdigest (hmac_sha256 (bytes_of "default-secret-key") (bytes_of "YWJj")) =
  bytes_of "c4b6771a49cfb0fc545d816b3bec84d74e52a54f884605123ad3f73e6bc41347".
Proof. vm_compute. reflexivity. Qed.
End Sha256Tests.

Module Base64Tests.
Import Bytes Base64.
Example enc_abcd : urlsafe_b64encode (bytes_of "abcd") = bytes_of "YWJjZA==".
Proof. vm_compute. reflexivity. Qed.
Example dec_extra_pad : urlsafe_b64decode (bytes_of "YWJj====") = Some (bytes_of "abc").
Proof. vm_compute. reflexivity. Qed.
Example dec_urlsafe : urlsafe_b64decode (bytes_of "-_8=") = Some [xfb; xff].
Proof. vm_compute. reflexivity. Qed.
Example dec_bad_pad : urlsafe_b64decode (bytes_of "YWJjZ") = None.
Proof. vm_compute. reflexivity. Qed.
End Base64Tests.

Module DeviceTokenTests.
Import Bytes DeviceToken.
Definition key := bytes_of "default-secret-key".
Definition gen := generate_device_token key (bytes_of "dev1") (bytes_of "ios")
  (bytes_of "u1") (bytes_of "2026-10-14T00:00:00") 0 (bytes_of "00ff").
Example gen_token_text : td_token gen = bytes_of
  "ZGV2MTppb3M6dTE6MjAyNi0xMC0xNFQwMDowMDowMA.9b669d99b23365a1d3a69134b6fa5a28c6f22961dfb06ea3df5dc95ec0e250b8".
Proof. vm_compute. reflexivity. Qed.
Example gen_refresh_text : td_refresh_token gen = bytes_of
  "cmVmcmVzaDpkZXYxOmlvczp1MToyMDI2LTEwLTE0VDAwOjAwOjAwOjAwZmY.04b67019ed0386fbfd1249a03c32c3876f9f48a027adfc38bcdb9e110ed44641".
Proof. vm_compute. reflexivity. Qed.
Example gen_validates : validate_device_token key (td_token gen) (bytes_of "dev1") = true.
Proof. vm_compute. reflexivity. Qed.
Example gen_other : validate_device_token key (td_token gen) (bytes_of "other-device") = false.
Proof. vm_compute. reflexivity. Qed.
Example gen_refresh : refresh_device_token key (td_refresh_token gen) (bytes_of "dev1")
  (bytes_of "x") 1 (bytes_of "y") = None.
Proof. vm_compute. reflexivity. Qed.
End DeviceTokenTests.

(* ===================================================================== *)
(** ** Facts about the encodings *)

Module EncodingFacts.
Import Bytes Sha256 Base64.

Definition all_bytes : list byte := map (fun n => zb (Z.of_nat n)) (seq 0 256).

Lemma all_bytes_complete (b : byte) : existsb (Byte.eqb b) all_bytes = true.
Proof. destruct b; vm_compute; reflexivity. Qed.

Lemma forall_bytes (P : byte -> bool) :
  forallb P all_bytes = true -> forall b, P b = true.
Proof.
  intros H b. pose proof (all_bytes_complete b) as Hb.
  apply existsb_exists in Hb as [x [Hin Hx]]. apply Byte.byte_dec_bl in Hx. subst x.
  rewrite forallb_forall in H. auto.
Qed.

Lemma bz_range (b : byte) : 0 <= bz b < 256.
Proof. unfold bz. pose proof (Byte.to_N_bounded b). lia. Qed.

Lemma zb_bz (b : byte) : zb (bz b) = b.
Proof. unfold zb, bz. rewrite N2Z.id, Byte.of_to_N. reflexivity. Qed.

Definition sextets : list Z := map Z.of_nat (seq 0 64).

Lemma forall_sextets (P : Z -> bool) :
  forallb P sextets = true -> forall v, 0 <= v < 64 -> P v = true.
Proof.
  intros H v Hv. rewrite forallb_forall in H. apply H. unfold sextets.
  apply in_map_iff. exists (Z.to_nat v). split; [lia|]. apply in_seq. lia.
Qed.

(** The alphabet: each sextet is an ASCII character other than ['='],
    ['.'], ['-'] and ['_'], decoded back by [a2b_table]. *)
Definition char_ok (v : Z) : bool :=
  negb (Byte.eqb (A v) pad_char) && (a2b_table (bz (A v)) =? v)
  && negb (Byte.eqb (tchar to_url (A v)) pad_char)
  && negb (Byte.eqb (tchar to_url (A v)) x2e)
  && (bz (tchar to_url (A v)) <? 128)
  && Byte.eqb (tchar to_std (tchar to_url (A v))) (A v).

Lemma char_ok_all (v : Z) : 0 <= v < 64 -> char_ok v = true.
Proof. apply forall_sextets. vm_compute. reflexivity. Qed.

(** The arithmetic of one quad, checked on every byte. *)
Definition v1 (a : byte) : Z := Z.shiftr (bz a) 2.
Definition v2 (a b : byte) : Z := Z.lor (Z.shiftl (Z.land (bz a) 3) 4) (Z.shiftr (bz b) 4).
Definition v3 (b c : byte) : Z := Z.lor (Z.shiftl (Z.land (bz b) 15) 2) (Z.shiftr (bz c) 6).
Definition v4 (c : byte) : Z := Z.land (bz c) 63.
Definition v2e (a : byte) : Z := Z.shiftl (Z.land (bz a) 3) 4.
Definition v3e (b : byte) : Z := Z.shiftl (Z.land (bz b) 15) 2.

Definition in64 (v : Z) : bool := (0 <=? v) && (v <? 64).

Definition quad_ab (a b : byte) : bool :=
  in64 (v1 a) && in64 (v2 a b)
  && Byte.eqb (zb (Z.land (Z.lor (Z.shiftl (v1 a) 2) (Z.shiftr (v2 a b) 4)) 255)) a
  && (Z.land (v2 a b) 15 =? Z.shiftr (bz b) 4).

Definition quad_bc (b c : byte) : bool :=
  in64 (v3 b c)
  && Byte.eqb (zb (Z.land (Z.lor (Z.shiftl (Z.shiftr (bz b) 4) 4) (Z.shiftr (v3 b c) 2)) 255)) b
  && (Z.land (v3 b c) 3 =? Z.shiftr (bz c) 6).

Definition quad_c (c : byte) : bool :=
  in64 (v4 c) && Byte.eqb (zb (Z.land (Z.lor (Z.shiftl (Z.shiftr (bz c) 6) 6) (v4 c)) 255)) c
  && in64 (v2e c) && in64 (v3e c)
  && Byte.eqb (zb (Z.land (Z.lor (Z.shiftl (v1 c) 2) (Z.shiftr (v2e c) 4)) 255)) c
  && Byte.eqb (zb (Z.land (Z.lor (Z.shiftl (Z.shiftr (bz c) 4) 4) (Z.shiftr (v3e c) 2)) 255)) c.

Lemma quad_ab_all : forall a b, quad_ab a b = true.
Proof.
  assert (H : forallb (fun a => forallb (quad_ab a) all_bytes) all_bytes = true)
    by (vm_compute; reflexivity).
  intros a b. apply (forall_bytes (quad_ab a)). revert a. apply forall_bytes. exact H.
Qed.

Lemma quad_bc_all : forall b c, quad_bc b c = true.
Proof.
  assert (H : forallb (fun b => forallb (quad_bc b) all_bytes) all_bytes = true)
    by (vm_compute; reflexivity).
  intros b c. apply (forall_bytes (quad_bc b)). revert b. apply forall_bytes. exact H.
Qed.

Lemma quad_c_all : forall c, quad_c c = true.
Proof. apply forall_bytes. vm_compute. reflexivity. Qed.

(** The characters of [b2a l] before the padding. *)
Fixpoint body (l : list byte) : list byte :=
  match l with
  | a :: b :: c :: r => [A (v1 a); A (v2 a b); A (v3 b c); A (v4 c)] ++ body r
  | [a; b] => [A (v1 a); A (v2 a b); A (v3e b)]
  | [a] => [A (v1 a); A (v2e a)]
  | [] => []
  end.

Definition padn (l : list byte) : nat :=
  match Nat.modulo (length l) 3 with 0%nat => 0 | 1%nat => 2 | _ => 1 end.

Lemma padn_cons3 a b c r : padn (a :: b :: c :: r) = padn r.
Proof.
  unfold padn. replace (length (a :: b :: c :: r)) with (length r + 1 * 3)%nat
    by (simpl; lia).
  rewrite Nat.Div0.mod_add. reflexivity.
Qed.

Lemma b2a_body l : b2a l = body l ++ repeat pad_char (padn l).
Proof.
  induction l as [l IH] using (induction_ltof1 _ (@length _)).
  destruct l as [|a [|b [|c r]]]; try reflexivity.
  simpl b2a. rewrite IH by (unfold ltof; simpl; lia).
  rewrite padn_cons3. reflexivity.
Qed.

(** Every character of [body l] is an alphabet character. *)
Inductive sextet_char : byte -> Prop :=
  | sextet_intro v : 0 <= v < 64 -> sextet_char (A v).

Lemma in64_spec v : in64 v = true -> 0 <= v < 64.
Proof. unfold in64. rewrite andb_true_iff, Z.leb_le, Z.ltb_lt. lia. Qed.

Lemma sextet_A v : in64 v = true -> sextet_char (A v).
Proof. intros H. constructor. apply in64_spec. exact H. Qed.

Lemma quad_ab_spec a b :
  in64 (v1 a) = true /\ in64 (v2 a b) = true
  /\ zb (Z.land (Z.lor (Z.shiftl (v1 a) 2) (Z.shiftr (v2 a b) 4)) 255) = a
  /\ Z.land (v2 a b) 15 = Z.shiftr (bz b) 4.
Proof.
  pose proof (quad_ab_all a b) as H. unfold quad_ab in H.
  apply andb_prop in H as [H H4]. apply andb_prop in H as [H H3].
  apply andb_prop in H as [H1 H2].
  apply Byte.byte_dec_bl in H3. apply Z.eqb_eq in H4.
  split; [exact H1|]. split; [exact H2|]. split; [exact H3|exact H4].
Qed.

Lemma quad_bc_spec b c :
  in64 (v3 b c) = true
  /\ zb (Z.land (Z.lor (Z.shiftl (Z.shiftr (bz b) 4) 4) (Z.shiftr (v3 b c) 2)) 255) = b
  /\ Z.land (v3 b c) 3 = Z.shiftr (bz c) 6.
Proof.
  pose proof (quad_bc_all b c) as H. unfold quad_bc in H.
  apply andb_prop in H as [H H3]. apply andb_prop in H as [H1 H2].
  apply Byte.byte_dec_bl in H2. apply Z.eqb_eq in H3.
  split; [exact H1|]. split; [exact H2|exact H3].
Qed.

Lemma quad_c_spec c :
  in64 (v4 c) = true
  /\ zb (Z.land (Z.lor (Z.shiftl (Z.shiftr (bz c) 6) 6) (v4 c)) 255) = c
  /\ in64 (v2e c) = true /\ in64 (v3e c) = true
  /\ zb (Z.land (Z.lor (Z.shiftl (v1 c) 2) (Z.shiftr (v2e c) 4)) 255) = c
  /\ zb (Z.land (Z.lor (Z.shiftl (Z.shiftr (bz c) 4) 4) (Z.shiftr (v3e c) 2)) 255) = c.
Proof.
  pose proof (quad_c_all c) as H. unfold quad_c in H.
  apply andb_prop in H as [H H6]. apply andb_prop in H as [H H5].
  apply andb_prop in H as [H H4]. apply andb_prop in H as [H H3].
  apply andb_prop in H as [H1 H2].
  apply Byte.byte_dec_bl in H2. apply Byte.byte_dec_bl in H5.
  apply Byte.byte_dec_bl in H6.
  split; [exact H1|]. split; [exact H2|]. split; [exact H3|].
  split; [exact H4|]. split; [exact H5|exact H6].
Qed.

Lemma body_chars l : Forall sextet_char (body l).
Proof.
  induction l as [l IH] using (induction_ltof1 _ (@length _)).
  destruct l as [|a [|b [|c r]]].
  - constructor.
  - destruct (quad_ab_spec a a) as [Ha1 _]. destruct (quad_c_spec a) as [_ [_ [Ha2 _]]].
    constructor; [apply sextet_A; exact Ha1|].
    constructor; [apply sextet_A; exact Ha2|]. constructor.
  - destruct (quad_ab_spec a b) as [Ha1 [Ha2 _]].
    destruct (quad_c_spec b) as [_ [_ [_ [Hb3 _]]]].
    constructor; [apply sextet_A; exact Ha1|].
    constructor; [apply sextet_A; exact Ha2|].
    constructor; [apply sextet_A; exact Hb3|]. constructor.
  - change (body (a :: b :: c :: r))
      with ([A (v1 a); A (v2 a b); A (v3 b c); A (v4 c)] ++ body r).
    apply Forall_app. split.
    + destruct (quad_ab_spec a b) as [Ha1 [Ha2 _]].
      destruct (quad_bc_spec b c) as [Hb3 _]. destruct (quad_c_spec c) as [Hc4 _].
      constructor; [apply sextet_A; exact Ha1|].
      constructor; [apply sextet_A; exact Ha2|].
      constructor; [apply sextet_A; exact Hb3|].
      constructor; [apply sextet_A; exact Hc4|]. constructor.
    + apply IH. unfold ltof. simpl. lia.
Qed.

Lemma char_spec v : 0 <= v < 64 ->
  Byte.eqb (A v) pad_char = false /\ a2b_table (bz (A v)) = v
  /\ Byte.eqb (tchar to_url (A v)) pad_char = false
  /\ Byte.eqb (tchar to_url (A v)) x2e = false
  /\ bz (tchar to_url (A v)) < 128
  /\ tchar to_std (tchar to_url (A v)) = A v.
Proof.
  intros Hv. pose proof (char_ok_all v Hv) as H. unfold char_ok in H.
  apply andb_prop in H as [H H6]. apply andb_prop in H as [H H5].
  apply andb_prop in H as [H H4]. apply andb_prop in H as [H H3].
  apply andb_prop in H as [H1 H2].
  apply negb_true_iff in H1, H3, H4. apply Z.eqb_eq in H2. apply Z.ltb_lt in H5.
  apply Byte.byte_dec_bl in H6.
  split; [exact H1|]. split; [exact H2|]. split; [exact H3|].
  split; [exact H4|]. split; [exact H5|exact H6].
Qed.

Lemma a2b_q0 v r lc p : 0 <= v < 64 -> a2b (A v :: r) 0 lc p = a2b r 1 v 0.
Proof.
  intros Hv. destruct (char_spec v Hv) as [H1 [H2 _]]. cbn [a2b]. rewrite H1, H2.
  replace (64 <=? v) with false by (symmetry; apply Z.leb_gt; lia). reflexivity.
Qed.

Lemma a2b_q1 v r lc p : 0 <= v < 64 ->
  a2b (A v :: r) 1 lc p =
  option_map (cons (zb (Z.land (Z.lor (Z.shiftl lc 2) (Z.shiftr v 4)) 255)))
    (a2b r 2 (Z.land v 15) 0).
Proof.
  intros Hv. destruct (char_spec v Hv) as [H1 [H2 _]]. cbn [a2b]. rewrite H1, H2.
  replace (64 <=? v) with false by (symmetry; apply Z.leb_gt; lia). reflexivity.
Qed.

Lemma a2b_q2 v r lc p : 0 <= v < 64 ->
  a2b (A v :: r) 2 lc p =
  option_map (cons (zb (Z.land (Z.lor (Z.shiftl lc 4) (Z.shiftr v 2)) 255)))
    (a2b r 3 (Z.land v 3) 0).
Proof.
  intros Hv. destruct (char_spec v Hv) as [H1 [H2 _]]. cbn [a2b]. rewrite H1, H2.
  replace (64 <=? v) with false by (symmetry; apply Z.leb_gt; lia). reflexivity.
Qed.

Lemma a2b_q3 v r lc p : 0 <= v < 64 ->
  a2b (A v :: r) 3 lc p =
  option_map (cons (zb (Z.land (Z.lor (Z.shiftl lc 6) v) 255))) (a2b r 0 0 0).
Proof.
  intros Hv. destruct (char_spec v Hv) as [H1 [H2 _]]. cbn [a2b]. rewrite H1, H2.
  replace (64 <=? v) with false by (symmetry; apply Z.leb_gt; lia). reflexivity.
Qed.

Lemma a2b_pads0 k lc p : a2b (repeat pad_char k) 0 lc p = Some [].
Proof. induction k as [|k IH]; [reflexivity|]. cbn [repeat a2b]. exact IH. Qed.

Lemma a2b_pads2 k lc : (2 <= k)%nat -> a2b (repeat pad_char k) 2 lc 0 = Some [].
Proof. intros Hk. destruct k as [|[|k]]; [lia|lia|]. reflexivity. Qed.

Lemma a2b_pads3 k lc : (1 <= k)%nat -> a2b (repeat pad_char k) 3 lc 0 = Some [].
Proof. intros Hk. destruct k as [|k]; [lia|]. reflexivity. Qed.

Lemma in64_r v : in64 v = true -> 0 <= v < 64.
Proof. apply in64_spec. Qed.

Lemma a2b_body l k :
  (Nat.modulo (length l) 3 = 1 -> 2 <= k)%nat ->
  (Nat.modulo (length l) 3 = 2 -> 1 <= k)%nat ->
  a2b (body l ++ repeat pad_char k) 0 0 0 = Some l.
Proof.
  induction l as [l IH] using (induction_ltof1 _ (@length _)).
  intros Hk1 Hk2. destruct l as [|a [|b [|c r]]].
  - apply a2b_pads0.
  - destruct (quad_ab_spec a a) as [Ha1 _].
    destruct (quad_c_spec a) as [_ [_ [Ha2 [_ [Ha _]]]]].
    cbn [body app]. rewrite a2b_q0 by (apply in64_r; exact Ha1).
    rewrite a2b_q1 by (apply in64_r; exact Ha2).
    rewrite a2b_pads2 by (apply Hk1; reflexivity). simpl option_map. rewrite Ha.
    reflexivity.
  - destruct (quad_ab_spec a b) as [Ha1 [Ha2 [Ha Hab]]].
    destruct (quad_c_spec b) as [_ [_ [_ [Hb3 [_ Hb]]]]].
    cbn [body app]. rewrite a2b_q0 by (apply in64_r; exact Ha1).
    rewrite a2b_q1 by (apply in64_r; exact Ha2).
    rewrite a2b_q2 by (apply in64_r; exact Hb3).
    rewrite a2b_pads3 by (apply Hk2; reflexivity). simpl option_map.
    rewrite Hab, Ha, Hb. reflexivity.
  - destruct (quad_ab_spec a b) as [Ha1 [Ha2 [Ha Hab]]].
    destruct (quad_bc_spec b c) as [Hb3 [Hb Hbc]].
    destruct (quad_c_spec c) as [Hc4 [Hc _]].
    change (body (a :: b :: c :: r))
      with ([A (v1 a); A (v2 a b); A (v3 b c); A (v4 c)] ++ body r).
    rewrite <- app_assoc. cbn [app].
    rewrite a2b_q0 by (apply in64_r; exact Ha1).
    rewrite a2b_q1 by (apply in64_r; exact Ha2).
    rewrite a2b_q2 by (apply in64_r; exact Hb3).
    rewrite a2b_q3 by (apply in64_r; exact Hc4).
    rewrite IH.
    + simpl option_map. rewrite Hab, Hbc, Ha, Hb, Hc. reflexivity.
    + unfold ltof. simpl. lia.
    + intros H. apply Hk1. replace (length (a :: b :: c :: r)) with (length r + 1 * 3)%nat
        by (simpl; lia). rewrite Nat.Div0.mod_add. exact H.
    + intros H. apply Hk2. replace (length (a :: b :: c :: r)) with (length r + 1 * 3)%nat
        by (simpl; lia). rewrite Nat.Div0.mod_add. exact H.
Qed.

End EncodingFacts.

Module TokenFacts.
Import Bytes Sha256 Base64 EncodingFacts DeviceToken.

Definition avoids (c : byte) (l : list byte) : Prop := Forall (fun x => Byte.eqb x c = false) l.

Lemma byte_eqb_refl c : Byte.eqb c c = true.
Proof. apply Byte.byte_dec_lb. reflexivity. Qed.

Lemma bytes_eqb_refl l : bytes_eqb l l = true.
Proof.
  induction l as [|x l IH]; [reflexivity|]. simpl. rewrite IH, andb_true_r.
  apply Byte.byte_dec_lb. reflexivity.
Qed.

Lemma bytes_eqb_eq a b : bytes_eqb a b = true <-> a = b.
Proof.
  split.
  - revert b. induction a as [|x a IH]; intros [|y b]; simpl; try discriminate; auto.
    intros H. apply andb_prop in H as [H1 H2]. apply Byte.byte_dec_bl in H1.
    rewrite (IH b H2). congruence.
  - intros ->. apply bytes_eqb_refl.
Qed.

Lemma py_split_no_sep c l : avoids c l -> py_split c l = [l].
Proof.
  induction 1 as [|x l Hx Hl IH]; [reflexivity|]. simpl. rewrite Hx, IH. reflexivity.
Qed.

Lemma py_split_app c x y : avoids c x -> py_split c (x ++ c :: y) = x :: py_split c y.
Proof.
  induction 1 as [|a x Ha Hx IH].
  - simpl. rewrite (byte_eqb_refl c). reflexivity.
  - simpl. rewrite Ha, IH. reflexivity.
Qed.

Lemma drop_while_repeat c n y : drop_while_eq c (repeat c n ++ y) = drop_while_eq c y.
Proof.
  induction n as [|n IH]; [reflexivity|]. simpl.
  rewrite (byte_eqb_refl c). exact IH.
Qed.

Lemma rstrip_pads c x n : avoids c x -> rstrip c (x ++ repeat c n) = x.
Proof.
  intros Hx. unfold rstrip. rewrite rev_app_distr, rev_repeat, drop_while_repeat.
  assert (Hr : avoids c (rev x)) by (apply Forall_rev; exact Hx).
  destruct (rev x) as [|a r] eqn:E.
  - simpl. apply (f_equal (@rev byte)) in E. rewrite rev_involutive in E. simpl in E.
    symmetry. exact E.
  - inversion Hr as [|? ? Ha _]; subst. simpl. rewrite Ha, <- E, rev_involutive.
    reflexivity.
Qed.

(** The text part of a signed token: [rstrip('=')] of the URL-safe
    encoding is the translated body. *)
Lemma encoded_payload_body l :
  rstrip pad_char (urlsafe_b64encode l) = translate to_url (body l).
Proof.
  unfold urlsafe_b64encode, translate. rewrite b2a_body, map_app, map_repeat.
  change (tchar to_url pad_char) with pad_char. apply rstrip_pads.
  pose proof (body_chars l) as Hb. unfold avoids. apply Forall_map.
  eapply Forall_impl; [exact Hb|]. intros ch Hc. destruct Hc as [v Hv]. apply (char_spec v Hv).
Qed.

Definition enc (l : list byte) : list byte := translate to_url (body l).

Lemma enc_chars l :
  Forall (fun x => Byte.eqb x pad_char = false /\ Byte.eqb x x2e = false /\ bz x < 128)
    (enc l).
Proof.
  unfold enc, translate. apply Forall_map. eapply Forall_impl; [exact (body_chars l)|].
  intros ch Hc. destruct Hc as [v Hv]. destruct (char_spec v Hv) as [_ [_ [H3 [H4 [H5 _]]]]].
  auto.
Qed.

Lemma enc_back l : translate to_std (enc l) = body l.
Proof.
  unfold enc, translate. rewrite map_map. rewrite <- (map_id (body l)) at 2.
  apply map_ext_in. intros ch Hin. pose proof (body_chars l) as Hb.
  rewrite List.Forall_forall in Hb. destruct (Hb ch Hin) as [v Hv]. apply (char_spec v Hv).
Qed.

Lemma body_length_mod l :
  Nat.modulo (length (body l)) 4 =
  match Nat.modulo (length l) 3 with 0%nat => 0%nat | 1%nat => 2%nat | _ => 3%nat end.
Proof.
  induction l as [l IH] using (induction_ltof1 _ (@length _)).
  destruct l as [|a [|b [|c r]]]; try reflexivity.
  change (body (a :: b :: c :: r))
    with ([A (v1 a); A (v2 a b); A (v3 b c); A (v4 c)] ++ body r).
  rewrite length_app. replace (length [A (v1 a); A (v2 a b); A (v3 b c); A (v4 c)] + length (body r))%nat
    with (length (body r) + 1 * 4)%nat by (simpl; lia).
  replace (length (a :: b :: c :: r)) with (length r + 1 * 3)%nat by (simpl; lia).
  rewrite !Nat.Div0.mod_add. apply IH. unfold ltof. simpl. lia.
Qed.

Lemma py_len_ascii l : Forall (fun x => bz x < 128) l -> py_len l = length l.
Proof.
  unfold py_len. induction 1 as [|x l Hx Hl IH]; [reflexivity|].
  cbn [List.filter]. replace (128 <=? bz x) with false by (symmetry; apply Z.leb_gt; lia).
  cbn [andb negb length]. f_equal. exact IH.
Qed.

Lemma is_ascii_forall l : Forall (fun x => bz x < 128) l -> is_ascii l = true.
Proof.
  unfold is_ascii. induction 1 as [|x l Hx Hl IH]; [reflexivity|].
  simpl. rewrite IH, andb_true_r. apply Z.ltb_lt. exact Hx.
Qed.

(** Decoding the signed text of [l] (re-padded as the validator does)
    gives [l] back when [l] is well-formed UTF-8, and fails otherwise. *)
Lemma decode_enc l :
  decode_payload (enc l) = if utf8_valid l then Some l else None.
Proof.
  unfold decode_payload.
  pose proof (enc_chars l) as Hc.
  assert (Ha : Forall (fun x => bz x < 128) (enc l))
    by (eapply Forall_impl; [exact Hc|]; intros x Hx; apply Hx).
  rewrite (py_len_ascii _ Ha). unfold urlsafe_b64decode.
  rewrite is_ascii_forall.
  2:{ apply Forall_app. split; [exact Ha|]. apply List.Forall_forall.
      intros x Hx. apply repeat_spec in Hx. subst x. reflexivity. }
  unfold translate at 1. rewrite map_app, map_repeat. fold (translate to_std (enc l)).
  rewrite enc_back. change (tchar to_std pad_char) with pad_char.
  assert (Hlen : length (enc l) = length (body l)) by (unfold enc, translate; apply length_map).
  rewrite Hlen, body_length_mod, a2b_body.
  - reflexivity.
  - intros H. rewrite H. lia.
  - intros H. rewrite H. lia.
Qed.

(** [.hexdigest()] is ASCII and has no ['.']. *)
Definition hex_pair_ok (b : byte) : bool :=
  forallb (fun x => (bz x <? 128) && negb (Byte.eqb x dot))
    [hex_digit (Z.shiftr (bz b) 4); hex_digit (Z.land (bz b) 15)].

Lemma hexdigest_chars d : Forall (fun x => bz x < 128 /\ Byte.eqb x dot = false) (hexdigest d).
Proof.
  unfold hexdigest. induction d as [|b d IH]; [constructor|]. simpl flat_map.
  assert (H : hex_pair_ok b = true) by (revert b; apply forall_bytes; vm_compute; reflexivity).
  unfold hex_pair_ok in H. simpl in H.
  apply andb_prop in H as [H1 H2]. apply andb_prop in H2 as [H2 _].
  apply andb_prop in H1 as [H1a H1b]. apply andb_prop in H2 as [H2a H2b].
  apply negb_true_iff in H1b, H2b. apply Z.ltb_lt in H1a, H2a.
  constructor; [split; assumption|]. constructor; [split; assumption|]. exact IH.
Qed.

End TokenFacts.

Module TokenClaims.
Import Bytes Sha256 Base64 EncodingFacts DeviceToken TokenFacts.

Lemma utf8_valid_app_n n : forall a b, (length a <= n)%nat ->
  utf8_valid a = true -> utf8_valid b = true -> utf8_valid (a ++ b) = true.
Proof.
  induction n as [|n IH]; intros a b Hl Ha Hb.
  - destruct a; [exact Hb|simpl in Hl; lia].
  - destruct a as [|x r]; [exact Hb|]. simpl in Hl |- *. simpl in Ha.
    destruct (bz x <? 128); [apply IH; [lia|exact Ha|exact Hb]|].
    destruct (in_rng 194 223 x).
    { destruct r as [|c1 r]; [discriminate|]. simpl in Hl |- *.
      apply andb_prop in Ha as [H1 H2]. rewrite H1. apply IH; [lia|exact H2|exact Hb]. }
    destruct (in_rng 224 239 x).
    { destruct r as [|c1 [|c2 r]]; [discriminate|discriminate|]. simpl in Hl |- *.
      apply andb_prop in Ha as [H1 H3]. rewrite H1. apply IH; [lia|exact H3|exact Hb]. }
    destruct (in_rng 240 244 x); [|discriminate].
    destruct r as [|c1 [|c2 [|c3 r]]]; [discriminate|discriminate|discriminate|].
    simpl in Hl |- *.
    apply andb_prop in Ha as [H1 H3]. rewrite H1. apply IH; [lia|exact H3|exact Hb].
Qed.

Lemma utf8_valid_app a b :
  utf8_valid a = true -> utf8_valid b = true -> utf8_valid (a ++ b) = true.
Proof. apply (utf8_valid_app_n (length a)). lia. Qed.

Lemma compare_digest_hex d : compare_digest (hexdigest d) (hexdigest d) = Some true.
Proof.
  unfold compare_digest.
  assert (H : is_ascii (hexdigest d) = true).
  { apply is_ascii_forall. eapply Forall_impl; [exact (hexdigest_chars d)|].
    intros x Hx. apply Hx. }
  rewrite H, bytes_eqb_refl. reflexivity.
Qed.

(** A signed payload splits on ['.'] into its text and its signature. *)
Lemma sign_split sk p :
  py_split dot (_sign_payload sk p) = [enc p; _create_signature sk (enc p)].
Proof.
  unfold _sign_payload. rewrite encoded_payload_body. fold (enc p).
  simpl app. rewrite py_split_app.
  - f_equal. apply py_split_no_sep. unfold avoids, _create_signature.
    eapply Forall_impl; [exact (hexdigest_chars _)|]. intros x Hx. apply Hx.
  - unfold avoids. eapply Forall_impl; [exact (enc_chars p)|]. intros x Hx. apply Hx.
Qed.

(** What [validate_device_token] decides on a token it signed itself. *)
Lemma validate_signed sk p d :
  validate_device_token sk (_sign_payload sk p) d =
  utf8_valid p && match py_split colon p with p0 :: _ => bytes_eqb p0 d | [] => false end.
Proof.
  unfold validate_device_token. rewrite sign_split.
  unfold _create_signature at 1. rewrite compare_digest_hex, decode_enc.
  destruct (utf8_valid p); reflexivity.
Qed.

Lemma py_split_head c x y :
  avoids c x -> exists t, py_split c (x ++ c :: y) = x :: t.
Proof. intros H. eexists. apply py_split_app. exact H. Qed.

Lemma avoids_colon_refresh : avoids colon (bytes_of "refresh").
Proof. repeat constructor. Qed.

Lemma bytes_eqb_neq a b : a <> b -> bytes_eqb a b = false.
Proof.
  intros H. destruct (bytes_eqb a b) eqn:E; [|reflexivity].
  apply bytes_eqb_eq in E. contradiction.
Qed.

Lemma utf8_colon : utf8_valid [colon] = true.
Proof. reflexivity. Qed.

(** The payload [f"{device_id}:{device_type}:{user_id}:{now}"]. *)
Definition token_payload (device_id device_type user_id iso_now : list byte) : list byte :=
  device_id ++ [colon] ++ device_type ++ [colon] ++ user_id ++ [colon] ++ iso_now.

Lemma token_payload_utf8 a b c d :
  utf8_valid a = true -> utf8_valid b = true -> utf8_valid c = true -> utf8_valid d = true ->
  utf8_valid (token_payload a b c d) = true.
Proof.
  intros Ha Hb Hc Hd. unfold token_payload.
  repeat (apply utf8_valid_app; [assumption || exact utf8_colon|]). exact Hd.
Qed.

(** C6 (amended): for any four inputs that are Python [str] (well-formed
    UTF-8) and any secret key, the generated token validates for its own
    device id and for no other one when the device id has no [':'].  When
    the device id is [prefix ++ ":" ++ rest] with no [':'] in [prefix],
    the token validates for [prefix] and for no other id, so not for the
    device id itself. *)
Theorem validate_generated_token sk device_id device_type user_id iso_now now nonce other :
  utf8_valid device_id = true -> utf8_valid device_type = true ->
  utf8_valid user_id = true -> utf8_valid iso_now = true ->
  let tok := td_token (generate_device_token sk device_id device_type user_id iso_now now nonce) in
  (avoids colon device_id ->
   validate_device_token sk tok device_id = true /\
   (other <> device_id -> validate_device_token sk tok other = false)) /\
  (forall prefix rest, device_id = prefix ++ colon :: rest -> avoids colon prefix ->
   validate_device_token sk tok prefix = true /\
   (other <> prefix -> validate_device_token sk tok other = false) /\
   validate_device_token sk tok device_id = false).
Proof.
  intros Ha Hb Hc Hd tok.
  pose proof (token_payload_utf8 _ _ _ _ Ha Hb Hc Hd) as Hu.
  unfold token_payload in Hu. subst tok. cbn [td_token generate_device_token].
  split.
  - intros Hav. rewrite !validate_signed, Hu. simpl (app [colon]). cbn [andb].
    rewrite py_split_app by exact Hav.
    split; [apply bytes_eqb_refl|].
    intros Hne. apply bytes_eqb_neq. intros E. apply Hne. symmetry. exact E.
  - intros prefix rest -> Hav. rewrite !validate_signed, Hu. simpl (app [colon]). cbn [andb].
    rewrite <- app_assoc, <- app_comm_cons, py_split_app by exact Hav.
    split; [apply bytes_eqb_refl|split].
    + intros Hne. apply bytes_eqb_neq. intros E. apply Hne. symmetry. exact E.
    + apply bytes_eqb_neq. intros E.
      apply (f_equal (@length byte)) in E. rewrite length_app in E. cbn in E. lia.
Qed.

Lemma validate_generated_token_witness :
  avoids colon (bytes_of "dev1") /\
  validate_device_token (bytes_of "k")
    (td_token (generate_device_token (bytes_of "k") (bytes_of "dev1") (bytes_of "ios")
       (bytes_of "u1") (bytes_of "2026-10-14T00:00:00") 0 (bytes_of "00ff")))
    (bytes_of "dev1") = true /\
  validate_device_token (bytes_of "k")
    (td_token (generate_device_token (bytes_of "k") (bytes_of "a:b") (bytes_of "ios")
       (bytes_of "u1") (bytes_of "2026-10-14T00:00:00") 0 (bytes_of "00ff")))
    (bytes_of "a:b") = false.
Proof.
  assert (Hav : avoids colon (bytes_of "dev1")) by repeat constructor.
  split; [exact Hav|split].
  - exact (proj1 (proj1 (validate_generated_token (bytes_of "k") (bytes_of "dev1")
      (bytes_of "ios") (bytes_of "u1") (bytes_of "2026-10-14T00:00:00") 0 (bytes_of "00ff")
      (bytes_of "other-device") eq_refl eq_refl eq_refl eq_refl) Hav)).
  - exact (proj2 (proj2 (proj2 (validate_generated_token (bytes_of "k") (bytes_of "a:b")
      (bytes_of "ios") (bytes_of "u1") (bytes_of "2026-10-14T00:00:00") 0 (bytes_of "00ff")
      (bytes_of "other-device") eq_refl eq_refl eq_refl eq_refl)
      (bytes_of "a") (bytes_of "b") eq_refl ltac:(repeat constructor)))).
Defined.

(** C6 (counterexample): with the device id ["a:b"], the generated token
    does not validate for ["a:b"] itself, and validates for the different
    device id ["a"]: the check compares only the text before the first
    [':'] of the payload. *)
Lemma C6_colon_device_id :
  let tok := td_token (generate_device_token (bytes_of "default-secret-key")
               (bytes_of "a:b") (bytes_of "ios") (bytes_of "u1")
               (bytes_of "2026-10-14T00:00:00") 0 (bytes_of "00ff")) in
  validate_device_token (bytes_of "default-secret-key") tok (bytes_of "a:b") = false /\
  validate_device_token (bytes_of "default-secret-key") tok (bytes_of "a") = true.
Proof. vm_compute. split; reflexivity. Qed.

(** C10: the refresh token of a generated pair never refreshes for a
    device id other than ["refresh"]: its payload starts with
    ["refresh:"], and [validate_device_token] compares that first segment
    with the device id. *)
Theorem refresh_never_succeeds sk device_id device_type user_id iso_now now nonce
    d iso_now' now' nonce' :
  d <> bytes_of "refresh" ->
  refresh_device_token sk
    (td_refresh_token (generate_device_token sk device_id device_type user_id iso_now now nonce))
    d iso_now' now' nonce' = None.
Proof.
  intros Hd. unfold refresh_device_token. cbn [td_refresh_token generate_device_token].
  rewrite validate_signed. simpl (app [colon]).
  rewrite py_split_app by exact avoids_colon_refresh.
  rewrite (bytes_eqb_neq _ _ (not_eq_sym Hd)), andb_false_r. reflexivity.
Qed.

Lemma refresh_never_succeeds_witness :
  bytes_of "dev1" <> bytes_of "refresh" /\
  refresh_device_token (bytes_of "k")
    (td_refresh_token (generate_device_token (bytes_of "k") (bytes_of "dev1") (bytes_of "ios")
       (bytes_of "u1") (bytes_of "2026-10-14T00:00:00") 0 (bytes_of "00ff")))
    (bytes_of "dev1") (bytes_of "2026-10-15T00:00:00") 86400 (bytes_of "0a0b") = None.
Proof.
  split; [cbv; discriminate|].
  apply (refresh_never_succeeds (bytes_of "k") (bytes_of "dev1") (bytes_of "ios")
    (bytes_of "u1") (bytes_of "2026-10-14T00:00:00") 0 (bytes_of "00ff")).
  cbv; discriminate.
Defined.

End TokenClaims.

(* ===================================================================== *)
(** ** Pairing sessions *)

Module PairingClaims.
Import Bytes DeviceToken TokenFacts TokenClaims.

(** C7 (amended): [complete_pairing] takes only the session id and never
    looks at a session: for a session created at [t0] with any TTL,
    completing it at any time [now] (before or after [t0 + ttl], once or
    again) returns a fresh token pair for the given device, stamped with
    [session_id]; the session itself only records [expires_at = t0 + ttl]
    and the status ["pending"]. *)
Theorem complete_pairing_unchecked sk session_id pairing_code t0 ttl
    user_id device_id device_type iso_now now nonce :
  let s := create_pairing_session session_id pairing_code t0 ttl in
  ps_expires_at s = t0 + ttl /\ ps_status s = bytes_of "pending" /\
  complete_pairing sk (ps_session_id s) user_id device_id device_type iso_now now nonce =
    (generate_device_token sk device_id device_type user_id iso_now now nonce, now, session_id).
Proof. cbn. split; [reflexivity|split; reflexivity]. Qed.

(** C7 (counterexample): a session created at time 0 with TTL 300 is
    completed at 301 seconds and again at 302 seconds; both completions
    return a device token that validates. *)
Lemma C7_expired_and_reused :
  let sk := bytes_of "default-secret-key" in
  let s := create_pairing_session (bytes_of "sid") (bytes_of "123456") 0 300 in
  let r1 := complete_pairing sk (ps_session_id s) (bytes_of "u1") (bytes_of "dev1")
              (bytes_of "ios") (bytes_of "1970-01-01T00:05:01") 301 (bytes_of "01") in
  let r2 := complete_pairing sk (ps_session_id s) (bytes_of "u1") (bytes_of "dev1")
              (bytes_of "ios") (bytes_of "1970-01-01T00:05:02") 302 (bytes_of "02") in
  ps_expires_at s < 301 /\
  validate_device_token sk (td_token (fst (fst r1))) (bytes_of "dev1") = true /\
  validate_device_token sk (td_token (fst (fst r2))) (bytes_of "dev1") = true.
Proof. vm_compute. split; [reflexivity|split; reflexivity]. Qed.

End PairingClaims.

(* ===================================================================== *)
(** ** The cron schedule *)

Module CronClaims.
Import Cron.

Lemma search_found e j : forall m fuel, (j < fuel)%nat ->
  (forall i, (i < j)%nat -> cron_matches e (m + 60 * Z.of_nat i) = false) ->
  cron_matches e (m + 60 * Z.of_nat j) = true ->
  search e m fuel = Some (m + 60 * Z.of_nat j).
Proof.
  induction j as [|j IH]; intros m fuel Hf Hbefore Hj; destruct fuel as [|fuel]; try lia.
  - cbn [search]. replace (m + 60 * Z.of_nat 0) with m in * by lia. rewrite Hj. reflexivity.
  - cbn [search]. assert (H0 := Hbefore 0%nat ltac:(lia)).
    replace (m + 60 * Z.of_nat 0) with m in H0 by lia. rewrite H0.
    replace (m + 60 * Z.of_nat (S j)) with ((m + 60) + 60 * Z.of_nat j) in * by lia.
    apply IH; [lia| |exact Hj].
    intros i Hi. replace (m + 60 + 60 * Z.of_nat i) with (m + 60 * Z.of_nat (S i)) by lia.
    apply Hbefore. lia.
Qed.

Lemma every_30_matches q : cron_matches every_30 (60 * q) = (q mod 30 =? 0).
Proof.
  change (cron_matches every_30 (60 * q)) with
    (((((60 * q) / 60) mod 60) mod 30 =? 0) && true).
  rewrite andb_true_r.
  f_equal. rewrite Z.mul_comm, Z.div_mul by lia. apply Z.mod_mod_divide.
  exists 2. reflexivity.
Qed.

(** The next fire time of [*/30 * * * *] after [T] is the next multiple
    of 1800 seconds strictly after [T]. *)
Lemma get_next_every_30 T : get_next every_30 T = Some (1800 * (T / 1800 + 1)).
Proof.
  unfold get_next.
  set (b := (T mod 1800) / 60).
  assert (Hb : 0 <= b < 30) by (subst b; Z.div_mod_to_equations; lia).
  assert (HT : T / 60 = 30 * (T / 1800) + b) by (subst b; Z.div_mod_to_equations; lia).
  replace (1800 * (T / 1800 + 1)) with (60 * (T / 60 + 1) + 60 * Z.of_nat (Z.to_nat (29 - b)))
    by (rewrite Z2Nat.id by lia; lia).
  apply search_found; [lia| |].
  - intros i Hi. rewrite <- Z.mul_add_distr_l, every_30_matches.
    apply Z.eqb_neq. rewrite HT.
    replace (30 * (T / 1800) + b + 1 + Z.of_nat i) with ((b + 1 + Z.of_nat i) + (T / 1800) * 30) by lia.
    rewrite Z.mod_add by lia. rewrite Z.mod_small by lia. lia.
  - rewrite <- Z.mul_add_distr_l, every_30_matches. apply Z.eqb_eq.
    rewrite HT, Z2Nat.id by lia.
    replace (30 * (T / 1800) + b + 1 + (29 - b)) with ((T / 1800 + 1) * 30) by lia.
    apply Z.mod_mul. lia.
Qed.

(** C4 (amended): for a stream with cron [*/30 * * * *] last ingested at
    [T], [should_sync] at [T + 31 min] is true, and [should_sync] at
    [T + 10 min] is false exactly when [T] is less than 20 minutes past a
    half-hour boundary ([T mod 1800 < 1200]); croniter fires at the
    half-hours of the clock, not 30 minutes after [T]. *)
Theorem should_sync_every_30 T :
  let s := {| cron_schedule := Some every_30; last_ingestion_at := Some T |} in
  should_sync s (T + 31 * 60) = true /\
  (should_sync s (T + 10 * 60) = false <-> T mod 1800 < 1200).
Proof.
  cbn zeta. unfold should_sync. cbn [cron_schedule last_ingestion_at].
  rewrite get_next_every_30. split.
  - apply Z.leb_le. Z.div_mod_to_equations. lia.
  - rewrite Z.leb_gt. Z.div_mod_to_equations. lia.
Qed.

(** C4 (counterexample): last ingestion at 00:25:00 (T = 1500 s); the next
    fire time is 00:30:00, so [should_sync] at T + 10 min is true. *)
Lemma C4_ten_minutes_fires :
  should_sync {| cron_schedule := Some every_30; last_ingestion_at := Some 1500 |}
    (1500 + 10 * 60) = true.
Proof. vm_compute. reflexivity. Qed.

End CronClaims.

(* ===================================================================== *)
(** ** The initial and incremental sync windows *)

Module SyncRangeClaims.
Import SyncRange.

(** The limited window: both ends in range, or [OverflowError]. *)
Lemma limited_range now p f :
  in_datetime_range now = true ->
  match days (PInt p), days (PInt f) with
  | Some p', Some f' =>
      match dt_add now (- p'), dt_add now f' with
      | Some start, Some end_ => Some (Some start, Some end_)
      | _, _ => None
      end
  | _, _ => None
  end =
  if in_datetime_range (now - 86400 * p) && in_datetime_range (now + 86400 * f)
  then Some (Some (now - 86400 * p), Some (now + 86400 * f)) else None.
Proof.
  intros Hnow. unfold in_datetime_range, datetime_min, datetime_max in Hnow.
  apply andb_prop in Hnow as [N1 N2]. apply Z.leb_le in N1, N2.
  unfold days, dt_add.
  destruct (Z.abs p <=? 999999999) eqn:Ep.
  - destruct (Z.abs f <=? 999999999) eqn:Ef.
    + cbv beta iota. rewrite Z.add_opp_r. destruct (in_datetime_range (now - 86400 * p)), (in_datetime_range (now + 86400 * f));
        reflexivity.
    + apply Z.leb_gt in Ef.
      replace (in_datetime_range (now + 86400 * f)) with false; [rewrite andb_false_r; reflexivity|].
      symmetry. unfold in_datetime_range, datetime_min, datetime_max.
      apply andb_false_iff. destruct (Z.abs_spec f) as [[_ E]|[_ E]]; rewrite E in Ef;
        [right|left]; apply Z.leb_gt; lia.
  - apply Z.leb_gt in Ep.
    replace (in_datetime_range (now - 86400 * p)) with false; [reflexivity|].
    symmetry. unfold in_datetime_range, datetime_min, datetime_max.
    apply andb_false_iff. destruct (Z.abs_spec p) as [[_ E]|[_ E]]; rewrite E in Ep;
      [left|right]; apply Z.leb_gt; lia.
Qed.

(** C2 (amended): with no last successful ingestion, [is_initial_sync] is
    true and the range is the connector's full range for type ['full'];
    for type ['limited'] it is [(now - days_past, now + days_future)],
    where a day count the stream row does not carry defaults to 90 (past)
    and 30 (future), whenever both ends are datetimes of years 1..9999,
    and an [OverflowError] ([None]) otherwise; with a last successful
    ingestion it is the connector's incremental range.  [now] is
    [datetime.now(timezone.utc)], itself in range. *)
Theorem get_sync_date_range_spec `{BaseSync} (d : stream_dict) (now : Z) :
  in_datetime_range now = true ->
  (last_successful_ingestion_at d = PNone ->
   is_initial_sync d = true /\
   (initial_sync_type d = PStr "full" -> get_sync_date_range d now = get_full_sync_range) /\
   (initial_sync_type d = PStr "limited" -> forall dp df : option Z,
      d !! "initial_sync_days" = PInt <$> dp ->
      d !! "initial_sync_days_future" = PInt <$> df ->
      (in_datetime_range (now - 86400 * default 90 dp) = true ->
       in_datetime_range (now + 86400 * default 30 df) = true ->
       get_sync_date_range d now =
         Some (Some (now - 86400 * default 90 dp), Some (now + 86400 * default 30 df))) /\
      ((in_datetime_range (now - 86400 * default 90 dp) &&
        in_datetime_range (now + 86400 * default 30 df)) = false ->
       get_sync_date_range d now = None))) /\
  (last_successful_ingestion_at d <> PNone ->
   get_sync_date_range d now = get_incremental_sync_range).
Proof.
  intros Hnow. unfold get_sync_date_range, is_initial_sync. split.
  - intros Hl. rewrite Hl. split; [reflexivity|split].
    + intros Ht. rewrite Ht. reflexivity.
    + intros Ht dp df Hp Hf. rewrite Ht. cbn [is_full String.eqb].
      assert (Ep : initial_sync_days d = PInt (default 90 dp)).
      { unfold initial_sync_days, dict_get. rewrite Hp. destruct dp; reflexivity. }
      assert (Ef : initial_sync_days_future d = PInt (default 30 df)).
      { unfold initial_sync_days_future, dict_get. rewrite Hf. destruct df; reflexivity. }
      rewrite Ep, Ef, (limited_range now _ _ Hnow).
      split.
      * intros H1 H2. rewrite H1, H2. reflexivity.
      * intros H12. rewrite H12. reflexivity.
  - intros Hl. destruct (last_successful_ingestion_at d); [contradiction|reflexivity..].
Qed.

Lemma get_sync_date_range_spec_witness :
  in_datetime_range 1791983109 = true /\
  get_sync_date_range
    (<["initial_sync_type" := PStr "limited"]>
      (<["initial_sync_days" := PInt 7]> (<["initial_sync_days_future" := PInt 14]> ∅)))
    1791983109 =
    Some (Some (1791983109 - 86400 * 7), Some (1791983109 + 86400 * 14)).
Proof.
  assert (Hn : in_datetime_range 1791983109 = true) by reflexivity.
  split; [exact Hn|].
  refine (proj1 (proj2 (proj2 (proj1 (get_sync_date_range_spec
           (<["initial_sync_type" := PStr "limited"]>
             (<["initial_sync_days" := PInt 7]> (<["initial_sync_days_future" := PInt 14]> ∅)))
           1791983109 Hn) eq_refl))
           eq_refl (Some 7) (Some 14) eq_refl eq_refl) _ _); reflexivity.
Defined.

(** C2 (counterexample): [initial_sync_days = 1000000], a value of the
    [Integer] column, on a first limited sync at 2026-10-14T13:05:09Z:
    [now - timedelta(days=1000000)] is before year 1, so
    [get_sync_date_range] raises [OverflowError] instead of returning a
    range. *)
Lemma C2_days_overflow :
  get_sync_date_range (<["initial_sync_days" := PInt 1000000]> (∅ : stream_dict)) 1791983109
    = None.
Proof. vm_compute. reflexivity. Qed.

End SyncRangeClaims.

(* ===================================================================== *)
(** ** The sync task: what it commits and when it is re-sent *)

Module SyncTaskClaims.
Import SyncTask GoogleCalendar.
Local Open Scope string_scope.
Local Open Scope Z_scope.

Example isoformat_aware : isoformat 1791983109 true = "2026-10-14T13:05:09+00:00".
Proof. vm_compute. reflexivity. Qed.
Example isoformat_naive : isoformat (-1) false = "1969-12-31T23:59:59".
Proof. vm_compute. reflexivity. Qed.

Definition db0 : db :=
  {| last_ingestion_at := Some 100; sync_cursor := VStr "old-cursor";
     last_sync_status := None; activity := None |}.

(** When [sync.run()] raises, the task commits only the failed activity:
    the timestamp and the cursor keep their values. *)
Theorem run_raises_keeps_cursor request_retries e now d :
  let d' := snd (sync_stream request_retries (inl e) now d) in
  last_ingestion_at d' = last_ingestion_at d /\ sync_cursor d' = sync_cursor d /\
  option_map act_status (activity d') = Some "failed".
Proof.
  unfold sync_stream, sync_stream_body. cbn.
  unfold except_block. destruct (should_retry e && (request_retries <? max_retries)); cbn; repeat split.
Qed.

(** [json.dumps] refuses a value exactly when the error has a type name. *)
Lemma json_ok_unserializable_type : forall v,
  json_ok v = match unserializable_type v with Some _ => false | None => true end.
Proof.
  fix IH 1. intros [| | | | | |m|l|d]; try reflexivity.
  - cbn [json_ok unserializable_type]. induction l as [|x l IHl]; [reflexivity|].
    cbn [forallb]. rewrite (IH x). destruct (unserializable_type x); [reflexivity|exact IHl].
  - cbn [json_ok unserializable_type]. induction d as [|[k x] d IHd]; [reflexivity|].
    cbn [forallb]. rewrite (IH x). destruct (unserializable_type x); [reflexivity|exact IHd].
Qed.

(** C1 (failing input): [run()] returns stats holding a new
    [next_sync_token] and a value [json.dumps] refuses (a [date]).  The
    task executes the [last_ingestion_at] and [sync_cursor] updates,
    fails on [json.dumps] while building the completed update, and the
    [db.commit()] of the [except] block commits both updates together
    with the activity marked failed. *)
Lemma C1_failed_activity_advances_cursor :
  sync_stream 0 (inr [("next_sync_token", VStr "new-cursor"); ("window_start", VOther "date")])
    1000 db0 =
  (Requeued 60,
   {| last_ingestion_at := Some 1000; sync_cursor := VStr "new-cursor";
      last_sync_status := Some "success";
      activity := Some {| act_status := "failed"; act_records := VNone; act_metadata := None;
                          act_error := Some "TypeError: Object of type date is not JSON serializable" |} |}).
Proof. vm_compute. reflexivity. Qed.

(** A retryable error fails the run with re-sends after 60, 120 and 240
    seconds for attempts 0, 1 and 2, and for good from attempt 3 on. *)
Theorem retryable_error_schedule request_retries e now d :
  should_retry e = true ->
  fst (sync_stream request_retries (inl e) now d) =
    if request_retries <? 3 then Requeued (60 * 2 ^ request_retries) else Failed e.
Proof.
  intros H. unfold sync_stream, sync_stream_body. cbn [try_block]. unfold except_block. rewrite H. cbn [andb fst].
  unfold max_retries, retry, autoretry, default_retry_delay.
  destruct (request_retries <? 3) eqn:E.
  - apply Z.ltb_lt in E. replace (3 <? request_retries + 1) with false
      by (symmetry; apply Z.ltb_ge; lia). reflexivity.
  - apply Z.ltb_ge in E. unfold retry. replace (3 <? request_retries + 1) with true
      by (symmetry; apply Z.ltb_lt; lia). reflexivity.
Qed.

Lemma retryable_error_schedule_witness :
  should_retry {| exc_type := "ConnectError"; exc_msg := "timed out" |} = true /\
  map (fun r => fst (sync_stream r (inl {| exc_type := "ConnectError"; exc_msg := "timed out" |})
                       1000 db0)) [0; 1; 2; 3] =
    [Requeued 60; Requeued 120; Requeued 240;
     Failed {| exc_type := "ConnectError"; exc_msg := "timed out" |}].
Proof.
  assert (H : should_retry {| exc_type := "ConnectError"; exc_msg := "timed out" |} = true)
    by (vm_compute; reflexivity).
  split; [exact H|].
  cbn [map]. rewrite !(retryable_error_schedule _ _ _ _ H). reflexivity.
Defined.

(** C3 (failing input): an [AuthenticationError] takes the bare [raise];
    Celery's [autoretry_for=(Exception,)] catches it and re-sends the task
    after [default_retry_delay] (180 s) on attempts 0, 1 and 2. *)
Lemma C3_terminal_error_requeued :
  let e := {| exc_type := "AuthenticationError"; exc_msg := "invalid_grant" |} in
  should_retry e = false /\
  map (fun r => fst (sync_stream r (inl e) 1000 db0)) [0; 1; 2; 3] =
    [Requeued 180; Requeued 180; Requeued 180; Failed e].
Proof. vm_compute. split; reflexivity. Qed.

(** C5: a successful run of the calendar connector persists, as the
    stream's cursor, the prior per-calendar tokens updated with the new
    ones: a calendar with a new token gets it, every other calendar keeps
    its previous token. *)
Theorem calendar_cursor_merged request_retries now d calendar_sync_tokens
    events calendars t0 t1 is_initial sync_type started :
  let st := run is_initial sync_type started now
              (_run_sync (sync_cursor d) calendar_sync_tokens events calendars t0 t1 is_initial) in
  let r := sync_stream request_retries (inr st) now d in
  fst r = Succeeded /\
  (forall k v, calendar_sync_tokens !! k = Some v ->
     existing_sync_tokens (sync_cursor (snd r)) !! k = Some v) /\
  (forall k, calendar_sync_tokens !! k = None ->
     existing_sync_tokens (sync_cursor (snd r)) !! k = existing_sync_tokens (sync_cursor d) !! k).
Proof.
  cbn zeta. unfold sync_stream, sync_stream_body, try_block. cbn -[isoformat decide].
  destruct (decide (all_sync_tokens (existing_sync_tokens (sync_cursor d))
                      calendar_sync_tokens = ∅)) as [E|E]; cbn -[isoformat].
  - split; [reflexivity|split].
    + intros k v Hk. unfold all_sync_tokens in E. apply map_positive_l in E.
      rewrite E, lookup_empty in Hk. discriminate.
    + intros k _. reflexivity.
  - split; [reflexivity|split].
    + intros k v Hk. unfold all_sync_tokens. apply lookup_union_Some_l. exact Hk.
    + intros k Hk. unfold all_sync_tokens. rewrite lookup_union_r by exact Hk. reflexivity.
Qed.

End SyncTaskClaims.

(* ===================================================================== *)
(** ** Object-store fields in [process_batch] *)

Module ProcessorClaims.
Import Processor.
Local Open Scope string_scope.
Local Open Scope nat_scope.

Lemma assoc_dict_set k v d k' :
  assoc (dict_set k v d) k' = if String.eqb k' k then Some v else assoc d k'.
Proof.
  induction d as [|[k1 v1] d IH]; cbn.
  - reflexivity.
  - destruct (String.eqb k k1) eqn:E1; cbn.
    + apply String.eqb_eq in E1; subst k1.
      destruct (String.eqb k' k); reflexivity.
    + rewrite IH. destruct (String.eqb k' k) eqn:E2; [|reflexivity].
      apply String.eqb_eq in E2; subst k'. rewrite E1. reflexivity.
Qed.

Lemma assoc_In d k v : assoc d k = Some v -> In (k, v) d.
Proof.
  induction d as [|[k1 v1] d IH]; cbn; [discriminate|].
  destruct (String.eqb k k1) eqn:E.
  - apply String.eqb_eq in E; subst. intros H; injection H as <-; left; reflexivity.
  - intros H; right; exact (IH H).
Qed.

Lemma In_assoc d k v : NoDup (map fst d) -> In (k, v) d -> assoc d k = Some v.
Proof.
  induction d as [|[k1 v1] d IH]; cbn; [intros _ []|].
  intros Hnd Hin. inversion Hnd as [|? ? Hnot Hnd']; subst.
  destruct Hin as [Heq|Hin].
  - injection Heq as -> ->. rewrite String.eqb_refl. reflexivity.
  - destruct (String.eqb k k1) eqn:E.
    + apply String.eqb_eq in E; subst k1.
      exfalso; apply Hnot. apply list_elem_of_In. apply (in_map fst) in Hin. exact Hin.
    + exact (IH Hnd' Hin).
Qed.

Lemma is_minio_In mf k : is_minio mf k = true -> In k mf.
Proof.
  unfold is_minio. intros H. apply existsb_exists in H as [x [Hx Heq]].
  apply String.eqb_eq in Heq. subst. exact Hx.
Qed.

Definition kept (mf : list string) (item : string * fval) : bool :=
  negb (is_minio mf (fst item) && negb (is_none (snd item))).

(** A key that no kept field of the rest has is left alone. *)
Lemma split_untouched mf r l acc k :
  k <> "file_size" ->
  (forall v, In (k, v) l -> kept mf (k, v) = false) ->
  assoc (fst (fold_left (split_step mf r) l acc)) k = assoc (fst acc) k.
Proof.
  revert acc. induction l as [|[k1 v1] l IH]; intros [pg ts] Hfs Hl; cbn; [reflexivity|].
  rewrite IH.
  - cbn. destruct (is_minio mf k1 && negb (is_none v1)) eqn:C.
    + destruct (prepare k1 v1 r); cbn; [|reflexivity].
      rewrite assoc_dict_set. destruct (String.eqb k "file_size") eqn:E; [|reflexivity].
      apply String.eqb_eq in E. contradiction.
    + cbn. rewrite assoc_dict_set. destruct (String.eqb k k1) eqn:E; [|reflexivity].
      apply String.eqb_eq in E; subst k1.
      specialize (Hl v1 (or_introl eq_refl)). unfold kept in Hl. cbn in Hl.
      rewrite C in Hl. discriminate.
  - exact Hfs.
  - intros v Hv. apply Hl. right. exact Hv.
Qed.

(** A kept field is in the row with its value. *)
Lemma split_sets mf r l acc k v :
  NoDup (map fst l) -> In (k, v) l -> k <> "file_size" -> kept mf (k, v) = true ->
  assoc (fst (fold_left (split_step mf r) l acc)) k = Some v.
Proof.
  revert acc. induction l as [|[k1 v1] l IH]; intros [pg ts] Hnd Hin Hfs Hk; [destruct Hin|].
  cbn in Hnd. inversion Hnd as [|? ? Hnot Hnd']; subst.
  destruct Hin as [Heq|Hin].
  - injection Heq as -> ->. cbn [fold_left].
    rewrite split_untouched; [|exact Hfs|].
    + unfold kept in Hk. cbn in Hk. cbn.
      destruct (is_minio mf k && negb (is_none v)); [discriminate|].
      cbn. rewrite assoc_dict_set, String.eqb_refl. reflexivity.
    + intros v' Hv'. exfalso. apply Hnot. apply list_elem_of_In. apply (in_map fst) in Hv'. exact Hv'.
  - cbn [fold_left]. apply IH; assumption.
Qed.

(** Every upload task of a record is for one of its object-store fields. *)
Lemma split_tasks mf r l acc G :
  In G (snd (fold_left (split_step mf r) l acc)) -> In G (snd acc) \/ is_minio mf G = true.
Proof.
  revert acc. induction l as [|[k1 v1] l IH]; intros [pg ts] H; cbn in H; [left; exact H|].
  destruct (IH _ H) as [H1|H1]; [|right; exact H1].
  destruct (is_minio mf k1 && negb (is_none v1)) eqn:C.
  - destruct (prepare k1 v1 r); cbn in H1; [|left; exact H1].
    apply in_app_or in H1 as [H1|[<-|[]]]; [left; exact H1|].
    right. apply andb_true_iff in C as [C _]. exact C.
  - left; exact H1.
Qed.

Section Rows.
Variable upload : nat -> string -> option (list byte).

Lemma row_apply_other i fs row k :
  k <> "minio_path" -> assoc (fold_left (row_apply upload i) fs row) k = assoc row k.
Proof.
  intros Hk. revert row. induction fs as [|G fs IH]; intros row; cbn; [reflexivity|].
  rewrite IH. unfold row_apply. destruct (upload i G); [|reflexivity].
  rewrite assoc_dict_set. destruct (String.eqb k "minio_path") eqn:E; [|reflexivity].
  apply String.eqb_eq in E. contradiction.
Qed.

Lemma row_apply_path i fs row :
  assoc (fold_left (row_apply upload i) fs row) "minio_path" = assoc row "minio_path" \/
  exists G p, In G fs /\ upload i G = Some p /\
    assoc (fold_left (row_apply upload i) fs row) "minio_path" = Some (FStr p).
Proof.
  revert row. induction fs as [|G fs IH]; intros row; cbn; [left; reflexivity|].
  destruct (IH (row_apply upload i row G)) as [H|[G' [p [HG [Hu Hp]]]]].
  - rewrite H. unfold row_apply. destruct (upload i G) as [p|] eqn:Hu; [|left; reflexivity].
    right. exists G, p. rewrite assoc_dict_set. cbn. auto.
  - right. exists G', p. auto.
Qed.

Lemma fold_apply_lookup tasks rows j :
  fold_left (apply_result upload) tasks rows !! j =
  option_map (fold_left (row_apply upload j)
                (map snd (List.filter (fun t => Nat.eqb (fst t) j) tasks)))
             (rows !! j).
Proof.
  revert rows. induction tasks as [|[idx G] tasks IH]; intros rows; cbn.
  - destruct (rows !! j); reflexivity.
  - rewrite IH. unfold apply_result, row_apply.
    destruct (Nat.eqb idx j) eqn:E; cbn.
    + apply Nat.eqb_eq in E; subst idx.
      destruct (upload j G).
      * rewrite list_lookup_alter_eq. destruct (rows !! j); reflexivity.
      * destruct (rows !! j); reflexivity.
    + apply Nat.eqb_neq in E. destruct (upload idx G).
      * rewrite list_lookup_alter_ne by exact E. reflexivity.
      * reflexivity.
Qed.

End Rows.

Lemma filter_pair idx (fs : list string) j :
  map snd (List.filter (fun t => Nat.eqb (fst t) j) (map (pair idx) fs)) =
  if Nat.eqb idx j then fs else [].
Proof.
  induction fs as [|G fs IH]; cbn; [destruct (Nat.eqb idx j); reflexivity|].
  destruct (Nat.eqb idx j); cbn; rewrite IH; reflexivity.
Qed.

Lemma filter_app_ (A : Type) (f : A -> bool) l1 l2 :
  List.filter f (l1 ++ l2)%list = (List.filter f l1 ++ List.filter f l2)%list.
Proof.
  induction l1 as [|x l1 IH]; cbn; [reflexivity|]. destruct (f x); cbn; rewrite IH; reflexivity.
Qed.

Lemma tasks_from_lookup split idx j :
  map snd (List.filter (fun t => Nat.eqb (fst t) j) (tasks_from idx split)) =
  if Nat.ltb j idx then []
  else match split !! (j - idx) with Some (_, fs) => fs | None => [] end.
Proof.
  revert idx. induction split as [|[pg fs] split IH]; intros idx; cbn [tasks_from].
  - destruct (Nat.ltb j idx); [reflexivity|]. destruct (j - idx); reflexivity.
  - rewrite filter_app_, map_app, filter_pair, IH.
    destruct (Nat.eqb idx j) eqn:E1.
    + apply Nat.eqb_eq in E1; subst idx.
      rewrite Nat.ltb_irrefl, Nat.sub_diag.
      replace (Nat.ltb j (S j)) with true by (symmetry; apply Nat.ltb_lt; lia).
      rewrite app_nil_r. reflexivity.
    + apply Nat.eqb_neq in E1.
      destruct (Nat.ltb j idx) eqn:E2.
      * apply Nat.ltb_lt in E2.
        replace (Nat.ltb j (S idx)) with true by (symmetry; apply Nat.ltb_lt; lia).
        reflexivity.
      * apply Nat.ltb_ge in E2.
        replace (Nat.ltb j (S idx)) with false by (symmetry; apply Nat.ltb_ge; lia).
        replace (j - idx) with (S (j - S idx)) by lia. reflexivity.
Qed.

Lemma map_lookup_ (A B : Type) (f : A -> B) l j : map f l !! j = option_map f (l !! j).
Proof.
  revert j. induction l as [|x l IH]; intros [|j]; cbn; try reflexivity. apply IH.
Qed.

(** The row of record [i]: its own split, then the results of its own uploads. *)
Lemma process_batch_lookup upload m mf recs i :
  process_batch upload (m :: mf) recs !! i =
  option_map (fun r => fold_left (row_apply upload i) (snd (split_record (m :: mf) r))
                                 (fst (split_record (m :: mf) r)))
             (recs !! i).
Proof.
  cbn [process_batch]. rewrite fold_apply_lookup, tasks_from_lookup, Nat.sub_0_r.
  replace (Nat.ltb i 0) with false by reflexivity.
  rewrite !map_lookup_. destruct (recs !! i); reflexivity.
Qed.

Lemma length_fold_apply upload tasks rows :
  length (fold_left (apply_result upload) tasks rows) = length rows.
Proof.
  revert rows. induction tasks as [|[j G] tasks IH]; intros rows; cbn; [reflexivity|].
  rewrite IH. unfold apply_result. destruct (upload j G); [apply length_alter|reflexivity].
Qed.

Lemma length_process_batch upload mf recs : length (process_batch upload mf recs) = length recs.
Proof.
  destruct mf as [|m mf]; cbn [process_batch]; [reflexivity|].
  rewrite length_fold_apply, !length_map. reflexivity.
Qed.

Lemma row_apply_ext upload upload' j fs row :
  (forall G, upload' j G = upload j G) ->
  fold_left (row_apply upload' j) fs row = fold_left (row_apply upload j) fs row.
Proof.
  intros H. revert row. induction fs as [|G fs IH]; intros row; cbn; [reflexivity|].
  rewrite IH. unfold row_apply. rewrite H. reflexivity.
Qed.

(** C8: when an object-store field [F] of record [i] has a value and its
    upload raises (or its preparation raised and no upload was made), the
    batch still inserts one row per record; row [i] has no [F] and keeps
    every field that is not an object-store field (or is [None]) with its
    value; its only stored-path column, [minio_path], is either absent or
    the key returned by the successful upload of another object-store field
    [G] of the same record; and the rows of the other records do not depend
    on the uploads of record [i].  The record is a dict (distinct keys) that
    has no keys [file_size] or [minio_path] of its own. *)
Theorem failed_upload_row (upload : nat -> string -> option (list byte)) (mf : list string)
    (recs : list record) (i : nat) (r : record) (F : string) (v : fval) :
  recs !! i = Some r ->
  NoDup (map fst r) ->
  ~ In "file_size" (map fst r) ->
  ~ In "minio_path" (map fst r) ->
  is_minio mf F = true ->
  In (F, v) r -> v <> FNone ->
  upload i F = None ->
  length (process_batch upload mf recs) = length recs /\
  exists row, process_batch upload mf recs !! i = Some row /\
    assoc row F = None /\
    (forall k w, In (k, w) r -> is_minio mf k = false \/ w = FNone -> assoc row k = Some w) /\
    (assoc row "minio_path" = None \/
     exists G p, G <> F /\ In G mf /\ upload i G = Some p /\
       assoc row "minio_path" = Some (FStr p)) /\
    (forall upload', (forall j G, j <> i -> upload' j G = upload j G) ->
     forall j, j <> i -> process_batch upload' mf recs !! j = process_batch upload mf recs !! j).
Proof.
  intros Hr Hnd Hfs Hmp HF Hv Hvn Hu.
  destruct mf as [|m mf']; [discriminate HF|].
  split; [apply length_process_batch|].
  eexists; split; [rewrite process_batch_lookup, Hr; reflexivity|].
  assert (HkF : In F (map fst r)) by (apply (in_map fst) in Hv; exact Hv).
  assert (Hne : forall k, In k (map fst r) -> k <> "file_size" /\ k <> "minio_path").
  { intros k Hk; split; intros ->; contradiction. }
  split; [|split; [|split]].
  - destruct (Hne F HkF) as [H1 H2].
    rewrite row_apply_other by exact H2.
    unfold split_record. rewrite split_untouched; [reflexivity|exact H1|].
    intros w Hw. pose proof (In_assoc _ _ _ Hnd Hw) as Ew.
    rewrite (In_assoc _ _ _ Hnd Hv) in Ew. injection Ew as <-.
    unfold kept; cbn [fst snd]. rewrite HF. destruct v; [contradiction|reflexivity..].
  - intros k w Hw Hk.
    assert (Hin : In k (map fst r)) by (apply (in_map fst) in Hw; exact Hw).
    destruct (Hne k Hin) as [H1 H2].
    rewrite row_apply_other by exact H2.
    unfold split_record. apply split_sets; [exact Hnd|exact Hw|exact H1|].
    unfold kept; cbn [fst snd]. destruct Hk as [->| ->]; [reflexivity|].
    rewrite andb_false_r. reflexivity.
  - destruct (row_apply_path upload i (snd (split_record (m :: mf') r))
                (fst (split_record (m :: mf') r))) as [H|[G [p [HG [HuG Hp]]]]].
    + left. rewrite H. unfold split_record. rewrite split_untouched; [reflexivity|discriminate|].
      intros w Hw. exfalso. apply Hmp. apply (in_map fst) in Hw. exact Hw.
    + right. exists G, p. split; [|split; [|split]]; [| |exact HuG|exact Hp].
      * intros ->. rewrite Hu in HuG. discriminate.
      * unfold split_record in HG. destruct (split_tasks _ _ _ _ _ HG) as [[]|HG'].
        apply is_minio_In. exact HG'.
  - intros upload' Hag j Hj. rewrite !process_batch_lookup.
    destruct (recs !! j); cbn [option_map]; [|reflexivity].
    f_equal. apply row_apply_ext. intros G. apply Hag. exact Hj.
Qed.

Definition notion_page : record :=
  [("page_id", FInt 1); ("blocks", FBytes [x01; x02]); ("attachments", FBytes [x03]);
   ("source_id", FInt 7)].

Definition notion_upload (j : nat) (G : string) : option (list byte) :=
  if Nat.eqb j 0 && String.eqb G "blocks" then None else Some [x70].

Lemma failed_upload_row_witness :
  length (process_batch notion_upload ["blocks"; "attachments"] [notion_page; notion_page]) = 2 /\
  exists row, process_batch notion_upload ["blocks"; "attachments"] [notion_page; notion_page] !! 0
                = Some row /\
    assoc row "blocks" = None /\
    (forall k w, In (k, w) notion_page -> is_minio ["blocks"; "attachments"] k = false \/ w = FNone ->
       assoc row k = Some w) /\
    (assoc row "minio_path" = None \/
     exists G p, G <> "blocks" /\ In G ["blocks"; "attachments"] /\ notion_upload 0 G = Some p /\
       assoc row "minio_path" = Some (FStr p)) /\
    (forall upload', (forall j G, j <> 0 -> upload' j G = notion_upload j G) ->
     forall j, j <> 0 ->
       process_batch upload' ["blocks"; "attachments"] [notion_page; notion_page] !! j =
       process_batch notion_upload ["blocks"; "attachments"] [notion_page; notion_page] !! j).
Proof.
  apply (failed_upload_row notion_upload ["blocks"; "attachments"] [notion_page; notion_page]
           0 notion_page "blocks" (FBytes [x01; x02])).
  - reflexivity.
  - apply (bool_decide_unpack _). vm_compute. exact I.
  - cbn. intros H. repeat (destruct H as [H|H]; [discriminate|]). exact H.
  - cbn. intros H. repeat (destruct H as [H|H]; [discriminate|]). exact H.
  - reflexivity.
  - cbn. right. left. reflexivity.
  - discriminate.
  - reflexivity.
Defined.

(** The object-store fields of a record whose upload task is created, in
    record order, with the [file_size] their preparation gives. *)
Definition prep_item (mf : list string) (r : record) (item : string * fval) : list (string * Z) :=
  let '(k, v) := item in
  if is_minio mf k && negb (is_none v) then
    match prepare k v r with Some n => [(k, n)] | None => [] end
  else [].

Definition prepared (mf : list string) (r : record) : list (string * Z) :=
  flat_map (prep_item mf r) r.

Fixpoint olast {A} (l : list A) : option A :=
  match l with
  | [] => None
  | x :: l' => match olast l' with Some y => Some y | None => Some x end
  end.

Lemma olast_snoc {A} (l : list A) x : olast (l ++ [x]) = Some x.
Proof. induction l as [|y l IH]; cbn; [reflexivity|]. rewrite IH. reflexivity. Qed.

Lemma split_tasks_prepared mf r l acc :
  snd (fold_left (split_step mf r) l acc) = (snd acc ++ map fst (flat_map (prep_item mf r) l))%list.
Proof.
  revert acc. induction l as [|[k v] l IH]; intros [pg ts]; cbn [fold_left flat_map].
  - rewrite app_nil_r. reflexivity.
  - rewrite IH. cbn [split_step prep_item snd].
    destruct (is_minio mf k && negb (is_none v)); [|reflexivity].
    destruct (prepare k v r); cbn [snd app map]; rewrite <- ?app_assoc; reflexivity.
Qed.

Lemma split_file_size mf r l acc :
  ~ In "file_size" (map fst l) ->
  assoc (fst (fold_left (split_step mf r) l acc)) "file_size" =
  match olast (flat_map (prep_item mf r) l) with
  | Some (_, n) => Some (FInt n)
  | None => assoc (fst acc) "file_size"
  end.
Proof.
  revert acc. induction l as [|[k v] l IH]; intros [pg ts] Hl; cbn [fold_left flat_map]; [reflexivity|].
  assert (Hk : k <> "file_size") by (intros ->; apply Hl; left; reflexivity).
  assert (Hl' : ~ In "file_size" (map fst l)) by (intros H; apply Hl; right; exact H).
  rewrite (IH _ Hl'). cbn [split_step prep_item].
  destruct (is_minio mf k && negb (is_none v)).
  - destruct (prepare k v r) as [n|]; cbn [fst olast app].
    + destruct (olast (flat_map (prep_item mf r) l)) as [[]|]; [reflexivity|].
      rewrite assoc_dict_set. reflexivity.
    + reflexivity.
  - cbn [fst app]. destruct (olast (flat_map (prep_item mf r) l)) as [[]|]; [reflexivity|].
    rewrite assoc_dict_set. destruct (String.eqb "file_size" k) eqn:E; [|reflexivity].
    apply String.eqb_eq in E. symmetry in E. contradiction.
Qed.

Section LastUpload.
Variable upload : nat -> string -> option (list byte).

Fixpoint last_ok (i : nat) (fs : list string) : option (list byte) :=
  match fs with
  | [] => None
  | G :: fs' => match last_ok i fs' with Some p => Some p | None => upload i G end
  end.

Lemma row_apply_minio_path i fs row :
  assoc (fold_left (row_apply upload i) fs row) "minio_path" =
  match last_ok i fs with Some p => Some (FStr p) | None => assoc row "minio_path" end.
Proof.
  revert row. induction fs as [|G fs IH]; intros row; cbn [fold_left last_ok]; [reflexivity|].
  rewrite IH. destruct (last_ok i fs); [reflexivity|].
  unfold row_apply. destruct (upload i G); [|reflexivity].
  rewrite assoc_dict_set. reflexivity.
Qed.

Lemma last_ok_app i xs ys :
  last_ok i (xs ++ ys) = match last_ok i ys with Some p => Some p | None => last_ok i xs end.
Proof.
  induction xs as [|G xs IH]; cbn [app last_ok].
  - destruct (last_ok i ys); reflexivity.
  - rewrite IH. destruct (last_ok i ys); reflexivity.
Qed.

Lemma last_ok_none i fs : (forall G, In G fs -> upload i G = None) -> last_ok i fs = None.
Proof.
  induction fs as [|G fs IH]; intros H; cbn [last_ok]; [reflexivity|].
  rewrite IH by (intros G' HG'; apply H; right; exact HG'). apply H. left. reflexivity.
Qed.

End LastUpload.

(** A record has a single stored-path column whatever the number of its
    object-store fields.  In the row of record [i], [minio_path] is the
    key of the last upload task of that record (in record order) that
    succeeded: the keys of earlier successful uploads of the same record
    are overwritten, and the row has no [minio_path] when all of its
    uploads fail.  [file_size] is the size of the last prepared payload,
    and is absent when no upload task was created.  This holds for any
    processed record, including the [source_id], [timestamp],
    [created_at] and [updated_at] fields [process_batch] adds, as long as
    the record has no keys [file_size] or [minio_path] of its own. *)
Theorem minio_path_last_upload (upload : nat -> string -> option (list byte))
    (mf : list string) (recs : list record) (i : nat) (r : record) :
  mf <> [] ->
  recs !! i = Some r ->
  ~ In "file_size" (map fst r) ->
  ~ In "minio_path" (map fst r) ->
  exists row, process_batch upload mf recs !! i = Some row /\
    (forall pre G n post p, prepared mf r = (pre ++ (G, n) :: post)%list ->
       upload i G = Some p -> (forall H m, In (H, m) post -> upload i H = None) ->
       assoc row "minio_path" = Some (FStr p)) /\
    ((forall H m, In (H, m) (prepared mf r) -> upload i H = None) ->
       assoc row "minio_path" = None) /\
    (forall pre G n, prepared mf r = (pre ++ [(G, n)])%list -> assoc row "file_size" = Some (FInt n)) /\
    (prepared mf r = [] -> assoc row "file_size" = None).
Proof.
  intros Hmf Hr Hfs Hmp.
  destruct mf as [|m mf']; [contradiction|].
  eexists; split; [rewrite process_batch_lookup, Hr; reflexivity|].
  assert (Ht : snd (split_record (m :: mf') r) = map fst (prepared (m :: mf') r)).
  { unfold split_record, prepared. rewrite split_tasks_prepared. reflexivity. }
  assert (Hp0 : assoc (fst (split_record (m :: mf') r)) "minio_path" = None).
  { unfold split_record. rewrite split_untouched; [reflexivity|discriminate|].
    intros w Hw. exfalso. apply Hmp. apply (in_map fst) in Hw. exact Hw. }
  assert (Hf0 : assoc (fst (split_record (m :: mf') r)) "file_size" =
                match olast (prepared (m :: mf') r) with
                | Some (_, n) => Some (FInt n) | None => None end).
  { unfold split_record, prepared. rewrite split_file_size by exact Hfs. reflexivity. }
  rewrite Ht.
  split; [|split; [|split]].
  - intros pre G n post p Hpr HG Hpost.
    rewrite row_apply_minio_path, Hpr, map_app, last_ok_app. cbn [map last_ok fst].
    rewrite (last_ok_none upload i (map fst post)), HG; [reflexivity|].
    intros H HH. apply in_map_iff in HH as [[H' m'] [E Hin]]. cbn in E. subst H'.
    exact (Hpost H m' Hin).
  - intros Hall. rewrite row_apply_minio_path, last_ok_none; [exact Hp0|].
    intros H HH. apply in_map_iff in HH as [[H' m'] [E Hin]]. cbn in E. subst H'.
    exact (Hall H m' Hin).
  - intros pre G n Hpr.
    rewrite row_apply_other by discriminate. rewrite Hf0, Hpr, olast_snoc. reflexivity.
  - intros Hpr. rewrite row_apply_other by discriminate. rewrite Hf0, Hpr. reflexivity.
Qed.

(** A notion page as [process_batch] holds it, with the fields it adds
    ([timestamp], [created_at] and [updated_at] are datetimes). *)
Definition notion_row : record :=
  [("page_id", FInt 1); ("blocks", FBytes [x01; x02]); ("attachments", FBytes [x03]);
   ("source_id", FInt 7); ("timestamp", FOther); ("created_at", FOther); ("updated_at", FOther)].

Lemma minio_path_last_upload_witness :
  prepared ["blocks"; "attachments"] notion_row = [("blocks", 2%Z); ("attachments", 1%Z)] /\
  exists row, process_batch notion_upload ["blocks"; "attachments"] [notion_row] !! 0 = Some row /\
    assoc row "minio_path" = Some (FStr [x70]) /\ assoc row "file_size" = Some (FInt 1).
Proof.
  assert (Hpr : prepared ["blocks"; "attachments"] notion_row = [("blocks", 2%Z); ("attachments", 1%Z)])
    by reflexivity.
  split; [exact Hpr|].
  destruct (minio_path_last_upload notion_upload ["blocks"; "attachments"] [notion_row] 0 notion_row
              ltac:(discriminate) eq_refl
              ltac:(cbn; intros H; repeat (destruct H as [H|H]; [discriminate|]); exact H)
              ltac:(cbn; intros H; repeat (destruct H as [H|H]; [discriminate|]); exact H))
    as [row [Hrow [Hmp [_ [Hfs _]]]]].
  exists row. split; [exact Hrow|split].
  - exact (Hmp [("blocks", 2%Z)] "attachments" 1%Z [] [x70] Hpr eq_refl (fun _ _ H => match H with end)).
  - exact (Hfs [("blocks", 2%Z)] "attachments" 1%Z Hpr).
Defined.

End ProcessorClaims.

(* ===================================================================== *)
(** ** Reactive token refresh in [_execute_request] *)

Module ApiClientClaims.
Import ApiClient.
Local Open Scope string_scope.
Local Open Scope nat_scope.

Definition plain_event (tok : string) (e : event) : Prop :=
  e = Req tok \/ exists s, e = Sleep s.

Lemma count_refresh_app tr1 tr2 :
  count_refresh (tr1 ++ tr2)%list = count_refresh tr1 + count_refresh tr2.
Proof.
  unfold count_refresh. induction tr1 as [|e tr1 IH]; cbn; [reflexivity|].
  destruct (is_refresh e); cbn; rewrite ?IH; reflexivity.
Qed.

Lemma count_refresh_plain tok rest :
  Forall (plain_event tok) rest -> count_refresh rest = 0.
Proof.
  induction 1 as [|e rest He _ IH]; [reflexivity|].
  unfold count_refresh in *. destruct He as [->|[s ->]]; cbn; exact IH.
Qed.

(** With [retry_on_401=False] the call only sends requests with its token
    and sleeps. *)
Lemma exec_no_refresh server tr fuel rc c s c' :
  exec server tr fuel false rc c = Some (s, c') ->
  access_token c' = access_token c /\
  exists rest, trace c' = (trace c ++ Req (access_token c) :: rest)%list /\
               Forall (plain_event (access_token c)) rest.
Proof.
  revert rc c. induction fuel as [|fuel IH]; intros rc c H; [discriminate|].
  cbn [exec] in H. unfold send in H.
  rewrite andb_false_r in H.
  destruct (existsb _ RETRY_STATUS_CODES && Nat.ltb rc MAX_RETRIES).
  - apply IH in H as [Ht [rest [Hr Hf]]]. cbn in Ht, Hr, Hf.
    split; [exact Ht|]. exists (Sleep (2 ^ Z.of_nat rc)%Z :: Req (access_token c) :: rest).
    rewrite Hr, <- !app_assoc. split; [reflexivity|].
    constructor; [right; eexists; reflexivity|].
    constructor; [left; reflexivity|exact Hf].
  - injection H as <- <-. cbn. split; [reflexivity|].
    exists []. split; [reflexivity|constructor].
Qed.

Lemma count_refresh_log e c :
  count_refresh (trace (log e c)) = count_refresh (trace c) + (if is_refresh e then 1 else 0).
Proof.
  cbn [log trace]. rewrite count_refresh_app. unfold count_refresh at 2. cbn.
  destruct (is_refresh e); reflexivity.
Qed.

Lemma retry_401_false : existsb (Z.eqb 401) RETRY_STATUS_CODES = false.
Proof. reflexivity. Qed.

(** A call with [retry_on_401=True] calls the refresher at most once. *)
Lemma exec_refresh_once server tr fuel rc c s c' :
  exec server tr fuel true rc c = Some (s, c') ->
  count_refresh (trace c') <= count_refresh (trace c) + 1.
Proof.
  revert rc c. induction fuel as [|fuel IH]; intros rc c H; [discriminate|].
  cbn [exec] in H. unfold send in H.
  set (status := server (count_req (trace c)) (access_token c)) in H.
  destruct ((status =? 401)%Z && true) eqn:E401.
  - assert (Hs : status = 401%Z) by (apply andb_true_iff in E401 as [E _]; apply Z.eqb_eq; exact E).
    rewrite Hs, retry_401_false in H. cbn [andb] in H.
    destruct tr as [f|].
    + unfold call_refresher in H.
      destruct (f _) as [t| |];
        [destruct (truthy_str t)|..];
        try (injection H as _ <-; rewrite !count_refresh_log; cbn; lia).
      apply exec_no_refresh in H as [_ [rest [Hr Hf]]].
      rewrite Hr, count_refresh_app.
      rewrite (count_refresh_plain _ (Req _ :: rest)) by (constructor; [left; reflexivity|exact Hf]).
      cbn [_update_token trace]. rewrite !count_refresh_log. cbn. lia.
    + injection H as _ <-. rewrite count_refresh_log. cbn. lia.
  - destruct (existsb _ RETRY_STATUS_CODES && Nat.ltb rc MAX_RETRIES).
    + apply IH in H. rewrite !count_refresh_log in H. cbn in H. lia.
    + injection H as _ <-. rewrite count_refresh_log. cbn. lia.
Qed.

Lemma exec_false_total server tr fuel rc c :
  S (3 - rc) <= fuel -> exec server tr fuel false rc c <> None.
Proof.
  revert rc c. induction fuel as [|fuel IH]; intros rc c Hf; [lia|].
  cbn [exec]. unfold send. rewrite andb_false_r.
  destruct (existsb _ RETRY_STATUS_CODES && Nat.ltb rc MAX_RETRIES) eqn:E; [|discriminate].
  apply andb_true_iff in E as [_ E]. apply Nat.ltb_lt in E. unfold MAX_RETRIES in E.
  apply IH. lia.
Qed.

Lemma exec_true_total server tr fuel rc c :
  S (3 - rc) + 4 <= fuel -> exec server tr fuel true rc c <> None.
Proof.
  revert rc c. induction fuel as [|fuel IH]; intros rc c Hf; [lia|].
  cbn [exec]. unfold send.
  set (status := server (count_req (trace c)) (access_token c)).
  assert (Hb : forall c0,
     (if existsb (Z.eqb status) RETRY_STATUS_CODES && Nat.ltb rc MAX_RETRIES
      then exec server tr fuel true (S rc) (log (Sleep (2 ^ Z.of_nat rc)%Z) c0)
      else Some (status, c0)) <> None).
  { intros c0. destruct (existsb _ _ && Nat.ltb rc MAX_RETRIES) eqn:E; [|discriminate].
    apply andb_true_iff in E as [_ E]. apply Nat.ltb_lt in E. unfold MAX_RETRIES in E.
    apply IH. lia. }
  destruct ((status =? 401)%Z && true); [|apply Hb].
  destruct tr as [f|]; [|apply Hb].
  unfold call_refresher. destruct (f _) as [t| |]; [|apply Hb..].
  destruct (truthy_str t); [|apply Hb].
  apply exec_false_total. lia.
Qed.

(** Termination: from [retry_on_401=True, retry_count=0] the recursion of
    [_execute_request] is at most 8 calls deep, whatever the server
    answers and the refresher returns. *)
Lemma execute_request_terminates server tr c :
  exists s c', _execute_request server tr true 0 c = Some (s, c').
Proof.
  unfold _execute_request.
  destruct (exec server tr 8 true 0 c) as [[s c']|] eqn:E.
  - exists s, c'. reflexivity.
  - exfalso. exact (exec_true_total server tr 8 0 c ltac:(cbn; lia) E).
Qed.

(** A first answer 401 with a truthy refreshed token: the next call is
    [_execute_request(.., retry_on_401=False, retry_count=0)] with it. *)
Lemma first_401_refreshed server f tok t n :
  server 0 tok = 401%Z -> f 0 = RToken t -> truthy_str t = true ->
  exec server (Some f) (S n) true 0 (fresh tok) =
  exec server (Some f) n false 0 {| access_token := t; trace := [Req tok; Refresh] |}.
Proof.
  intros H1 H2 H3. cbn [exec]. unfold send, call_refresher. cbn - [exec].
  rewrite H1. cbn - [exec]. rewrite H2, H3. reflexivity.
Qed.

(** With [retry_on_401=False] a 401 is returned as it is. *)
Lemma exec_false_401 server tr n rc c :
  server (count_req (trace c)) (access_token c) = 401%Z ->
  exec server tr (S n) false rc c = Some (401%Z, log (Req (access_token c)) c).
Proof.
  intros H. cbn [exec]. unfold send. rewrite H, andb_false_r, retry_401_false. reflexivity.
Qed.

(** C9: for a request made through [_make_request] with a token refresher
    configured (token [tok]): whatever the server answers, the refresher is
    called at most once and the call returns; when the first answer is 401
    and the refresher returns a truthy token [t], the log is the request
    with [tok], the refresh, the retried request with [t], and then only
    backoff sleeps and requests with [t]; and when the retried request
    also gets 401, nothing else happens and the 401 is raised to the
    caller by [raise_for_status]. *)
Theorem refresh_retry_at_most_once server f tok :
  (exists s c', _execute_request server (Some f) true 0 (fresh tok) = Some (s, c') /\
                count_refresh (trace c') <= 1) /\
  (forall t, server 0 tok = 401%Z -> f 0 = RToken t -> truthy_str t = true ->
     exists s rest,
       _execute_request server (Some f) true 0 (fresh tok) =
         Some (s, {| access_token := t; trace := [Req tok; Refresh; Req t] ++ rest |}) /\
       Forall (plain_event t) rest) /\
  (forall t, server 0 tok = 401%Z -> f 0 = RToken t -> truthy_str t = true ->
     server 1 t = 401%Z ->
     _make_request server (Some f) (fresh tok) =
       Some (inl 401%Z, {| access_token := t; trace := [Req tok; Refresh; Req t] |})).
Proof.
  split; [|split].
  - destruct (execute_request_terminates server (Some f) (fresh tok)) as [s [c' E]].
    exists s, c'. split; [exact E|].
    apply exec_refresh_once in E. exact E.
  - intros t H1 H2 H3. unfold _execute_request.
    rewrite (first_401_refreshed server f tok t 7 H1 H2 H3).
    destruct (exec server (Some f) 7 false 0 {| access_token := t; trace := [Req tok; Refresh] |})
      as [[s c']|] eqn:E.
    + apply exec_no_refresh in E as [Ht [rest [Hr Hf]]].
      exists s, rest. destruct c' as [a tr']. cbn in Ht, Hr, Hf. subst. split; [reflexivity|exact Hf].
    + exfalso. exact (exec_false_total server (Some f) 7 0 _ ltac:(lia) E).
  - intros t H1 H2 H3 H4. unfold _make_request, _execute_request.
    rewrite (first_401_refreshed server f tok t 7 H1 H2 H3).
    rewrite (exec_false_401 server (Some f) 6 0) by exact H4.
    reflexivity.
Qed.

(** The same call against a server that rejects every token. *)
Definition reject_all (n : nat) (tok : string) : Z := 401%Z.
Definition refresh_to_new (n : nat) : refresh_outcome := RToken "new".

Lemma refresh_retry_at_most_once_witness :
  _make_request reject_all (Some refresh_to_new) (fresh "old") =
    Some (inl 401%Z, {| access_token := "new"; trace := [Req "old"; Refresh; Req "new"] |}).
Proof.
  destruct (refresh_retry_at_most_once reject_all refresh_to_new "old") as [_ [_ H]].
  apply H; reflexivity.
Defined.

End ApiClientClaims.

(* ===================================================================== *)
(** ** What [validate_device_token] and [refresh_device_token] accept *)

Module TokenExtras.
Import Bytes Sha256 Base64 EncodingFacts DeviceToken TokenFacts TokenClaims.

(** ['.'.join(parts)]: the inverse of [str.split]. *)
Definition py_join (c : byte) (parts : list (list byte)) : list byte :=
  match parts with
  | [] => []
  | x :: rest => x ++ concat (map (fun y => c :: y) rest)
  end.

Lemma py_split_nonempty c l : py_split c l <> [].
Proof.
  destruct l as [|x l]; cbn; [discriminate|].
  destruct (Byte.eqb x c); [discriminate|]. destruct (py_split c l); discriminate.
Qed.

Lemma py_split_join c l : py_join c (py_split c l) = l.
Proof.
  induction l as [|x l IH]; [reflexivity|]. cbn [py_split].
  pose proof (py_split_nonempty c l) as Hn.
  destruct (Byte.eqb x c) eqn:E.
  - apply Byte.byte_dec_bl in E. subst x.
    destruct (py_split c l) as [|h t]; [contradiction|]. cbn in IH |- *. rewrite IH. reflexivity.
  - destruct (py_split c l) as [|h t]; [contradiction|]. cbn in IH |- *. rewrite IH. reflexivity.
Qed.

Lemma py_split_two c l a b : py_split c l = [a; b] -> l = a ++ c :: b.
Proof.
  intros H. rewrite <- (py_split_join c l), H. cbn. rewrite app_nil_r. reflexivity.
Qed.

Lemma compare_digest_true a b : compare_digest a b = Some true -> a = b.
Proof.
  unfold compare_digest. destruct (is_ascii a && is_ascii b); [|discriminate].
  intros H. injection H as H. apply bytes_eqb_eq. exact H.
Qed.

(** A token that validates for [device_id] is a payload text, a ['.'] and
    the signature of that text under the handler's key; the text decodes
    to a string whose first [':']-segment is [device_id]. *)
Theorem validated_token_is_signed sk token device_id :
  validate_device_token sk token device_id = true ->
  exists payload decoded rest,
    token = payload ++ dot :: _create_signature sk payload /\
    decode_payload payload = Some decoded /\
    py_split colon decoded = device_id :: rest.
Proof.
  unfold validate_device_token. intros H.
  destruct (py_split dot token) as [|payload [|signature [|x r]]] eqn:Es; try discriminate.
  destruct (compare_digest signature (_create_signature sk payload)) as [[|]|] eqn:Ec;
    try discriminate.
  apply compare_digest_true in Ec.
  destruct (decode_payload payload) as [decoded|] eqn:Ed; [|discriminate].
  destruct (py_split colon decoded) as [|p0 rest] eqn:Ep; [discriminate|].
  apply bytes_eqb_eq in H. subst p0.
  exists payload, decoded, rest. split; [|split; assumption].
  rewrite <- Ec. apply py_split_two. exact Es.
Qed.

Lemma validated_token_is_signed_witness :
  validate_device_token (bytes_of "k")
    (td_token (generate_device_token (bytes_of "k") (bytes_of "dev1") (bytes_of "ios")
       (bytes_of "u1") (bytes_of "2026-10-14T00:00:00") 0 (bytes_of "00ff")))
    (bytes_of "dev1") = true /\
  exists payload decoded rest,
    td_token (generate_device_token (bytes_of "k") (bytes_of "dev1") (bytes_of "ios")
       (bytes_of "u1") (bytes_of "2026-10-14T00:00:00") 0 (bytes_of "00ff")) =
      payload ++ dot :: _create_signature (bytes_of "k") payload /\
    decode_payload payload = Some decoded /\
    py_split colon decoded = bytes_of "dev1" :: rest.
Proof.
  assert (H : validate_device_token (bytes_of "k")
    (td_token (generate_device_token (bytes_of "k") (bytes_of "dev1") (bytes_of "ios")
       (bytes_of "u1") (bytes_of "2026-10-14T00:00:00") 0 (bytes_of "00ff")))
    (bytes_of "dev1") = true) by (vm_compute; reflexivity).
  split; [exact H|]. exact (validated_token_is_signed _ _ _ H).
Defined.

Lemma refresh_payload_pieces (d t u iso nonce : list byte) :
  bytes_of "refresh" ++ [colon] ++ token_payload d t u iso ++ [colon] ++ nonce =
  bytes_of "refresh" ++ colon :: d ++ colon :: t ++ colon :: u ++ colon :: iso ++ colon :: nonce.
Proof. unfold token_payload. rewrite <- !app_assoc. reflexivity. Qed.

(** The refresh token of a generated pair refreshes when it is presented
    with the device id ["refresh"], the first segment of its own payload:
    the handler then issues a new pair for the original device id, device
    type and user id (each without [':']). *)
Theorem refresh_token_with_refresh_id sk device_id device_type user_id iso_now now nonce
    iso_now' now' nonce' :
  avoids colon device_id -> avoids colon device_type -> avoids colon user_id ->
  utf8_valid device_id = true -> utf8_valid device_type = true ->
  utf8_valid user_id = true -> utf8_valid iso_now = true -> utf8_valid nonce = true ->
  refresh_device_token sk
    (td_refresh_token (generate_device_token sk device_id device_type user_id iso_now now nonce))
    (bytes_of "refresh") iso_now' now' nonce' =
  Some (generate_device_token sk device_id device_type user_id iso_now' now' nonce').
Proof.
  intros Hd Ht Hu Ud Ut Uu Ui Un.
  assert (Hp : utf8_valid (bytes_of "refresh" ++ [colon] ++
                 token_payload device_id device_type user_id iso_now ++ [colon] ++ nonce) = true).
  { apply utf8_valid_app; [reflexivity|]. apply utf8_valid_app; [exact utf8_colon|].
    apply utf8_valid_app; [apply token_payload_utf8; assumption|].
    apply utf8_valid_app; [exact utf8_colon|exact Un]. }
  unfold refresh_device_token. cbn [td_refresh_token generate_device_token].
  fold (token_payload device_id device_type user_id iso_now).
  rewrite validate_signed, Hp. cbn [negb]. rewrite sign_split. cbn [nth]. rewrite decode_enc, Hp.
  rewrite refresh_payload_pieces.
  rewrite (py_split_app _ _ _ avoids_colon_refresh), (py_split_app _ _ _ Hd),
    (py_split_app _ _ _ Ht), (py_split_app _ _ _ Hu).
  cbn [andb negb nth]. rewrite bytes_eqb_refl. cbn [negb]. reflexivity.
Qed.

Lemma refresh_token_with_refresh_id_witness :
  refresh_device_token (bytes_of "k")
    (td_refresh_token (generate_device_token (bytes_of "k") (bytes_of "dev1") (bytes_of "ios")
       (bytes_of "u1") (bytes_of "2026-10-14T00:00:00") 0 (bytes_of "00ff")))
    (bytes_of "refresh") (bytes_of "2026-10-15T00:00:00") 86400 (bytes_of "0a0b") =
  Some (generate_device_token (bytes_of "k") (bytes_of "dev1") (bytes_of "ios")
       (bytes_of "u1") (bytes_of "2026-10-15T00:00:00") 86400 (bytes_of "0a0b")).
Proof.
  apply refresh_token_with_refresh_id;
    first [repeat constructor | reflexivity].
Defined.

(** [refresh_device_token] also accepts the access token of a pair, with
    its own device id, as a refresh token: it then issues a pair whose
    device id is the old device type, whose device type is the old user
    id, and whose user id is the text of the old timestamp before its
    first [':']. *)
Theorem refresh_accepts_access_token sk device_id device_type user_id iso_now now nonce
    iso_now' now' nonce' :
  avoids colon device_id -> avoids colon device_type -> avoids colon user_id ->
  utf8_valid device_id = true -> utf8_valid device_type = true ->
  utf8_valid user_id = true -> utf8_valid iso_now = true ->
  refresh_device_token sk
    (td_token (generate_device_token sk device_id device_type user_id iso_now now nonce))
    device_id iso_now' now' nonce' =
  Some (generate_device_token sk device_type user_id (hd [] (py_split colon iso_now))
          iso_now' now' nonce').
Proof.
  intros Hd Ht Hu Ud Ut Uu Ui.
  pose proof (token_payload_utf8 _ _ _ _ Ud Ut Uu Ui) as Hp.
  unfold refresh_device_token. cbn [td_token generate_device_token].
  fold (token_payload device_id device_type user_id iso_now).
  rewrite validate_signed, Hp. rewrite sign_split. cbn [nth]. rewrite decode_enc, Hp.
  unfold token_payload. simpl (app [colon]).
  rewrite (py_split_app _ _ _ Hd), (py_split_app _ _ _ Ht), (py_split_app _ _ _ Hu).
  rewrite bytes_eqb_refl.
  pose proof (py_split_nonempty colon iso_now) as Hn.
  destruct (py_split colon iso_now) as [|s0 r]; [contradiction|].
  reflexivity.
Qed.

Lemma refresh_accepts_access_token_witness :
  refresh_device_token (bytes_of "k")
    (td_token (generate_device_token (bytes_of "k") (bytes_of "dev1") (bytes_of "ios")
       (bytes_of "u1") (bytes_of "2026-10-14T00:00:00") 0 (bytes_of "00ff")))
    (bytes_of "dev1") (bytes_of "2026-10-15T00:00:00") 86400 (bytes_of "0a0b") =
  Some (generate_device_token (bytes_of "k") (bytes_of "ios") (bytes_of "u1")
       (bytes_of "2026-10-14T00") (bytes_of "2026-10-15T00:00:00") 86400 (bytes_of "0a0b")).
Proof.
  apply (refresh_accepts_access_token (bytes_of "k") (bytes_of "dev1") (bytes_of "ios")
    (bytes_of "u1") (bytes_of "2026-10-14T00:00:00") 0 (bytes_of "00ff"));
    first [repeat constructor | reflexivity].
Defined.

End TokenExtras.

(* ===================================================================== *)
(** ** The device-token paths of [AuthManager] *)

Module AuthExtras.
Import Bytes DeviceToken TokenFacts TokenClaims AuthManager.
Local Open Scope string_scope.
Local Open Scope Z_scope.

Lemma get_auth_type_not_api_key s : get_auth_type s <> API_KEY.
Proof.
  unfold get_auth_type. cbn [SOURCE_AUTH_TYPES dict_lookup].
  repeat match goal with |- context [String.eqb ?a ?b] => destruct (String.eqb a b) end;
    discriminate.
Qed.

Lemma get_auth_type_unlisted s :
  ~ In s (map fst SOURCE_AUTH_TYPES) -> get_auth_type s = NONE.
Proof.
  intros H. unfold get_auth_type. cbn [SOURCE_AUTH_TYPES dict_lookup].
  repeat match goal with |- context [String.eqb ?a ?b] =>
    let E := fresh in
    destruct (String.eqb a b) eqn:E; [apply String.eqb_eq in E; subst; exfalso; apply H; cbn; tauto|]
  end. reflexivity.
Qed.

(** A device source gives a token pair to any credentials holding a
    [device_id] and a [user_id], whatever else they hold: no existing
    token is checked.  The device type is ["ios"] when the source name
    contains ["ios"] and ["mac"] otherwise, and the access token
    validates for the given device id (one without [':']). *)
Theorem device_credentials_issue_token sk iso_now now nonce source_name c device_id user_id :
  get_auth_type source_name = DEVICE_TOKEN ->
  c !! "device_id" = Some device_id -> c !! "user_id" = Some user_id ->
  avoids colon device_id -> utf8_valid device_id = true -> utf8_valid user_id = true ->
  utf8_valid iso_now = true ->
  exists td,
    authenticate_source sk iso_now now nonce source_name c = Some (Issued td) /\
    td_device_type td = (if SyncTask.contains "ios" source_name
                         then bytes_of "ios" else bytes_of "mac") /\
    td_user_id td = user_id /\
    validate_device_token sk (td_token td) device_id = true.
Proof.
  intros Hs Hd Hu Hav Ud Uu Ui.
  unfold authenticate_source. rewrite Hs. unfold _authenticate_device. rewrite Hd, Hu.
  eexists. split; [reflexivity|]. split; [reflexivity|]. split; [reflexivity|].
  cbn [td_token generate_device_token].
  set (dt := if SyncTask.contains "ios" source_name then bytes_of "ios" else bytes_of "mac").
  assert (Ut : utf8_valid dt = true) by (unfold dt; destruct (SyncTask.contains _ _); reflexivity).
  pose proof (token_payload_utf8 _ _ _ _ Ud Ut Uu Ui) as Hp. unfold token_payload in Hp.
  rewrite validate_signed, Hp. simpl (app [colon]).
  rewrite py_split_app by exact Hav. apply bytes_eqb_refl.
Qed.

Definition phone_credentials : credentials :=
  <[ "device_id" := bytes_of "dev1" ]> (<[ "user_id" := bytes_of "u1" ]>
    {[ "token" := bytes_of "not-a-token" ]}).

Lemma device_credentials_issue_token_witness :
  exists td,
    authenticate_source (bytes_of "k") (bytes_of "2026-10-14T00:00:00") 0 (bytes_of "00ff")
      "ios_location" phone_credentials = Some (Issued td) /\
    td_device_type td = bytes_of "ios" /\ td_user_id td = bytes_of "u1" /\
    validate_device_token (bytes_of "k") (td_token td) (bytes_of "dev1") = true.
Proof.
  apply (device_credentials_issue_token (bytes_of "k") (bytes_of "2026-10-14T00:00:00") 0
    (bytes_of "00ff") "ios_location" phone_credentials (bytes_of "dev1") (bytes_of "u1"));
    first [reflexivity | repeat constructor].
Defined.

(** [refresh_credentials] on the credentials of a device source whose
    refresh token is one the handler generated: once the expiry is within
    a day, the refresh is attempted and always rejected ("Invalid refresh
    token"), unless the stored device id is ["refresh"]. *)
Theorem refresh_credentials_rejects_generated sk iso_now now nonce fromisoformat
    source_name cur utcnow expires_at expiry
    device_id device_type user_id iso0 now0 nonce0 :
  get_auth_type source_name = DEVICE_TOKEN ->
  cur !! "expires_at" = Some expires_at -> expires_at <> [] ->
  fromisoformat expires_at = Some expiry -> expiry <= utcnow + 86400 ->
  cur !! "refresh_token" =
    Some (td_refresh_token (generate_device_token sk device_id device_type user_id iso0 now0 nonce0)) ->
  cur !! "device_id" <> Some (bytes_of "refresh") ->
  refresh_credentials sk iso_now now nonce fromisoformat source_name cur utcnow =
    Refreshed RefreshRejected.
Proof.
  intros Hs He Hne Hf Hx Hr Hd.
  unfold refresh_credentials. rewrite Hs. unfold due. rewrite He.
  destruct expires_at as [|b rest]; [contradiction|]. rewrite Hf.
  replace (expiry <=? utcnow + 86400) with true by (symmetry; apply Z.leb_le; exact Hx).
  rewrite Hr. destruct (cur !! "device_id") as [d|] eqn:Ed; [|reflexivity].
  unfold _authenticate_device.
  rewrite lookup_insert_eq. rewrite !lookup_insert_ne by discriminate.
  rewrite lookup_singleton_eq. rewrite !lookup_singleton_ne by discriminate.
  unfold refresh_device_token. cbn [td_refresh_token generate_device_token].
  rewrite validate_signed. simpl (app [colon]).
  rewrite py_split_app by exact avoids_colon_refresh.
  rewrite bytes_eqb_neq, andb_false_r; [reflexivity|].
  intros E. apply Hd. rewrite E. reflexivity.
Qed.

Definition stored_pair (sk : list byte) : credentials :=
  <[ "expires_at" := bytes_of "2026-11-13T00:00:00" ]>
  (<[ "refresh_token" := td_refresh_token (generate_device_token sk (bytes_of "dev1")
        (bytes_of "ios") (bytes_of "u1") (bytes_of "2026-10-14T00:00:00") 0 (bytes_of "00ff")) ]>
  {[ "device_id" := bytes_of "dev1" ]}).

(** [datetime.fromisoformat] on the one stored expiry: 30 days after the
    epoch-0 issue time. *)
Definition parse_stored (s : list byte) : option Z :=
  if bytes_eqb s (bytes_of "2026-11-13T00:00:00") then Some (30 * 86400) else None.

Lemma refresh_credentials_rejects_generated_witness :
  refresh_credentials (bytes_of "k") (bytes_of "2026-11-12T12:00:00") (29 * 86400 + 43200)
    (bytes_of "0a0b") parse_stored "mac_apps" (stored_pair (bytes_of "k")) (29 * 86400 + 43200) =
  Refreshed RefreshRejected.
Proof.
  apply (refresh_credentials_rejects_generated (bytes_of "k") (bytes_of "2026-11-12T12:00:00")
    (29 * 86400 + 43200) (bytes_of "0a0b") parse_stored "mac_apps" (stored_pair (bytes_of "k"))
    (29 * 86400 + 43200) (bytes_of "2026-11-13T00:00:00") (30 * 86400)
    (bytes_of "dev1") (bytes_of "ios") (bytes_of "u1") (bytes_of "2026-10-14T00:00:00") 0
    (bytes_of "00ff")).
  - reflexivity.
  - reflexivity.
  - discriminate.
  - reflexivity.
  - lia.
  - reflexivity.
  - unfold stored_pair. rewrite !lookup_insert_ne by discriminate.
    rewrite lookup_singleton_eq. intros H. injection H as H. discriminate H.
Defined.

(** No source name leads [authenticate_source] to API-key validation
    ([SOURCE_AUTH_TYPES] maps no source to [API_KEY]); a source outside
    the seven listed ones authenticates with any credentials as
    [{'authenticated': True, 'type': 'none'}] and never refreshes. *)
Theorem unlisted_source_no_auth sk iso_now now nonce fromisoformat s c utcnow :
  (forall k, authenticate_source sk iso_now now nonce s c <> Some (ApiKey k)) /\
  (~ In s (map fst SOURCE_AUTH_TYPES) ->
   authenticate_source sk iso_now now nonce s c = Some NoAuth /\
   refresh_credentials sk iso_now now nonce fromisoformat s c utcnow = NoRefresh).
Proof.
  split.
  - intros k. unfold authenticate_source.
    pose proof (get_auth_type_not_api_key s) as Hn.
    destruct (get_auth_type s); try discriminate; [|contradiction].
    unfold _authenticate_device.
    destruct (c !! "device_id"), (c !! "user_id"), (c !! "token"), (c !! "refresh_token");
      try discriminate;
      try (destruct (refresh_device_token _ _ _ _ _ _); discriminate).
  - intros H. unfold authenticate_source, refresh_credentials.
    rewrite (get_auth_type_unlisted s H). split; reflexivity.
Qed.

Lemma unlisted_source_no_auth_witness :
  authenticate_source (bytes_of "k") [] 0 [] "github_repos" ∅ = Some NoAuth /\
  refresh_credentials (bytes_of "k") [] 0 [] (fun _ => None) "github_repos" ∅ 0 = NoRefresh.
Proof.
  apply (unlisted_source_no_auth (bytes_of "k") [] 0 [] (fun _ => None) "github_repos" ∅ 0).
  cbn. intuition discriminate.
Defined.

End AuthExtras.

(* ===================================================================== *)
(** ** Retries and backoff in [_execute_request] *)

Module ApiClientExtras.
Import ApiClient.
Local Open Scope string_scope.
Local Open Scope Z_scope.

(** A server that answers a retryable status ([429], [500], [502], [503]
    or [504]) to every request: the call makes four requests with the
    same token, sleeping 1, 2 and 4 seconds in between, and returns the
    fourth answer; [_make_request] raises it. *)
Theorem persistent_retryable_status tr retry_on_401 tok s :
  In s RETRY_STATUS_CODES ->
  _execute_request (fun _ _ => s) tr retry_on_401 0 (fresh tok) =
    Some (s, {| access_token := tok;
                trace := [Req tok; Sleep 1; Req tok; Sleep 2; Req tok; Sleep 4; Req tok] |}) /\
  _make_request (fun _ _ => s) tr (fresh tok) =
    Some (inl s, {| access_token := tok;
                    trace := [Req tok; Sleep 1; Req tok; Sleep 2; Req tok; Sleep 4; Req tok] |}).
Proof.
  intros H. cbn in H.
  destruct H as [<-|[<-|[<-|[<-|[<-|[]]]]]];
    destruct retry_on_401; split; reflexivity.
Qed.

Lemma persistent_retryable_status_witness :
  _make_request (fun _ _ => 503) None (fresh "t") =
    Some (inl 503, {| access_token := "t";
                      trace := [Req "t"; Sleep 1; Req "t"; Sleep 2; Req "t"; Sleep 4; Req "t"] |}).
Proof.
  apply (persistent_retryable_status None true "t" 503). cbn. tauto.
Defined.

(** A first answer that is not retried is returned after that single
    request: a status outside [RETRY_STATUS_CODES] (or any status once
    [retry_count] has reached [MAX_RETRIES]) that is not a 401 the client
    would refresh on. *)
Theorem unretried_status_single_request (server : nat -> string -> Z) tr retry_on_401
    retry_count tok :
  ~ (In (server 0%nat tok) RETRY_STATUS_CODES /\ (retry_count < MAX_RETRIES)%nat) ->
  (server 0%nat tok <> 401 \/ retry_on_401 = false \/ tr = None) ->
  _execute_request server tr retry_on_401 retry_count (fresh tok) =
    Some (server 0%nat tok, {| access_token := tok; trace := [Req tok] |}).
Proof.
  intros Hr H4. unfold _execute_request.
  pose (n := 7%nat). change 8%nat with (S n). clearbody n.
  cbn [exec]. unfold send. cbn [fresh trace access_token].
  change (count_req []) with 0%nat.
  assert (Hb : existsb (Z.eqb (server 0%nat tok)) RETRY_STATUS_CODES &&
               Nat.ltb retry_count MAX_RETRIES = false).
  { destruct (existsb _ _) eqn:E; [|reflexivity]. cbn [andb].
    apply Nat.ltb_ge. destruct (Nat.lt_ge_cases retry_count MAX_RETRIES) as [Hl|Hl]; [|exact Hl].
    exfalso. apply Hr. split; [|exact Hl]. apply existsb_exists in E as [x [Hx Ex]].
    apply Z.eqb_eq in Ex. rewrite Ex. exact Hx. }
  assert (Hn : (if (server 0%nat tok =? 401) && retry_on_401 then tr else None) = None).
  { destruct H4 as [H4|[H4|H4]].
    - apply Z.eqb_neq in H4. rewrite H4. reflexivity.
    - subst. rewrite andb_false_r. reflexivity.
    - subst. destruct ((server 0%nat tok =? 401) && retry_on_401); reflexivity. }
  rewrite Hn, Hb. reflexivity.
Qed.

Definition not_found (n : nat) (tok : string) : Z := 404.

Lemma unretried_status_single_request_witness :
  _execute_request not_found None true 0 (fresh "t") =
    Some (404, {| access_token := "t"; trace := [Req "t"] |}).
Proof.
  apply (unretried_status_single_request not_found None true 0 "t").
  - cbn. intros [H _]. intuition discriminate.
  - left. discriminate.
Defined.

(** A first answer 401 with a refresher that returns [None], an empty
    string or raises: the 401 is neither retried nor backed off (401 is
    not a retryable code), and [_make_request] raises it after the one
    request and the one refresher call. *)
Theorem unusable_refresh_raises_401 server f tok :
  server 0%nat tok = 401 -> f 0%nat = RNone \/ f 0%nat = RRaise \/ f 0%nat = RToken "" ->
  _make_request server (Some f) (fresh tok) =
    Some (inl 401, {| access_token := tok; trace := [Req tok; Refresh] |}).
Proof.
  intros H1 H2. unfold _make_request, _execute_request.
  pose (n := 7%nat). change 8%nat with (S n). clearbody n.
  cbn [exec]. unfold send, call_refresher.
  cbn [fresh trace access_token]. change (count_req []) with 0%nat. rewrite H1.
  assert (C : count_refresh (trace (log (Req tok) (fresh tok))) = 0%nat) by reflexivity.
  rewrite C, Z.eqb_refl. cbn [andb]. destruct H2 as [E|[E|E]]; rewrite E; reflexivity.
Qed.

Definition refresher_none (n : nat) : refresh_outcome := RNone.
Definition always_401 (n : nat) (tok : string) : Z := 401.

Lemma unusable_refresh_raises_401_witness :
  _make_request always_401 (Some refresher_none) (fresh "t") =
    Some (inl 401, {| access_token := "t"; trace := [Req "t"; Refresh] |}).
Proof.
  apply unusable_refresh_raises_401; [reflexivity|left; reflexivity].
Defined.

End ApiClientExtras.

(* ===================================================================== *)
(** ** Request spacing of [RateLimiter] and the pages of [paginate] *)

Module RateLimiterExtras.
Import RateLimiter.
Local Open Scope Q_scope.

Lemma acquire_step r t a :
  exists s, acquire r t a = (s, {| requests_per_second := requests_per_second r;
                                   min_interval := min_interval r; last_request_time := a |}) /\
            (s = None <-> min_interval r <= t - last_request_time r) /\
            (forall d, s = Some d -> d == min_interval r - (t - last_request_time r)).
Proof.
  unfold acquire. destruct (Qlt_le_dec _ _) as [H|H]; eexists; (split; [reflexivity|]).
  - split; [split; [discriminate|intros H'; lra]|]. intros d E. injection E as <-. reflexivity.
  - split; [split; [intros _; exact H|intros _; reflexivity]|]. discriminate.
Qed.

Lemma run_acquire_first r t a s :
  t + slept s <= a ->
  (exists r', acquire r t a = (s, r')) ->
  min_interval r <= a - last_request_time r.
Proof.
  intros Hs [r' E]. destruct (acquire_step r t a) as [s' [E' [Hn Hd]]].
  rewrite E in E'. injection E' as <- _.
  destruct s as [d|].
  - cbn in Hs. specialize (Hd d eq_refl). lra.
  - cbn in Hs. destruct Hn as [Hn _]. specialize (Hn eq_refl). lra.
Qed.

Lemma run_acquire_spaced_gen : forall readings r,
  Forall (fun '(t, a, s) => t + slept s <= a) (run_acquire r readings) ->
  (forall t a s, nth_error (run_acquire r readings) 0 = Some (t, a, s) ->
     min_interval r <= a - last_request_time r) /\
  (forall i t a s t' a' s',
     nth_error (run_acquire r readings) i = Some (t, a, s) ->
     nth_error (run_acquire r readings) (S i) = Some (t', a', s') ->
     min_interval r <= a' - a).
Proof.
  induction readings as [|[t a] rest IH]; intros r Hf.
  - split; [intros t a s H; discriminate|intros [|i] ? ? ? ? ? ? H; discriminate].
  - destruct (acquire_step r t a) as [s [E _]]. cbn [run_acquire] in Hf |- *. rewrite E in Hf |- *.
    inversion Hf as [|? ? Hh Ht]; subst.
    destruct (IH {| requests_per_second := requests_per_second r;
                    min_interval := min_interval r; last_request_time := a |} Ht) as [IH0 IHs]. cbn [min_interval last_request_time] in IH0, IHs.
    split.
    + intros t0 a0 s0 H0. injection H0 as <- <- <-.
      apply (run_acquire_first r t a s Hh). eexists. exact E.
    + intros [|i] t0 a0 s0 t1 a1 s1 H0 H1.
      * injection H0 as <- <- <-. cbn in H1. exact (IH0 _ _ _ H1).
      * cbn in H0, H1. exact (IHs i _ _ _ _ _ _ H0 H1).
Qed.

(** Through a limiter made for [requests_per_second > 0], the times of two
    consecutive requests are at least [1 / requests_per_second] apart,
    provided each [asyncio.sleep] lasts at least the time it was asked
    for (the clock reading after it is at least the one before plus the
    sleep time). *)
Theorem requests_spaced rps readings :
  0 < rps ->
  Forall (fun '(t, a, s) => t + slept s <= a) (run_acquire (init rps) readings) ->
  forall i t a s t' a' s',
    nth_error (run_acquire (init rps) readings) i = Some (t, a, s) ->
    nth_error (run_acquire (init rps) readings) (S i) = Some (t', a', s') ->
    1 / rps <= a' - a.
Proof.
  intros Hr Hf. destruct (run_acquire_spaced_gen readings (init rps) Hf) as [_ H].
  intros i t a s t' a' s' H0 H1. specialize (H i t a s t' a' s' H0 H1).
  unfold init in H. cbn [min_interval] in H.
  destruct (Qlt_le_dec 0 rps) as [_|Hn]; [exact H|lra].
Qed.

Definition spaced_readings : list (Q * Q) :=
  [(100, 100); (100 + (1 # 10), 100 + (2 # 10)); (101, 101)].

Lemma requests_spaced_witness :
  0 < 5 /\ 1 / 5 <= (100 + (2 # 10)) - 100.
Proof.
  assert (Hb : forallb (fun '(t, a, s) => Qle_bool (t + slept s) a)
                 (run_acquire (init 5) spaced_readings) = true) by (vm_compute; reflexivity).
  assert (Hf : Forall (fun '(t, a, s) => t + slept s <= a) (run_acquire (init 5) spaced_readings)).
  { apply List.Forall_forall. intros [[t a] s] Hin. apply Qle_bool_iff.
    exact (proj1 (forallb_forall _ _) Hb _ Hin). }
  split; [reflexivity|].
  eapply (requests_spaced 5 spaced_readings ltac:(reflexivity) Hf 0);
    vm_compute; reflexivity.
Defined.

End RateLimiterExtras.

Module PaginateExtras.
Import Paginate.
Local Open Scope nat_scope.

Lemma pages_bounded get_page m : forall fuel p,
  let '(ps, ys, e) := pages get_page fuel (Some m) p in
  ps = seq p (length ps) /\ length ps <= S m - p /\ length ys <= length ps /\
  (S m - p < fuel -> e <> Running).
Proof.
  induction fuel as [|fuel IH]; intros p; cbn [pages].
  - repeat split; cbn; lia.
  - destruct (Nat.leb p m) eqn:Ep.
    + apply Nat.leb_le in Ep.
      destruct (get_page p) as [[[|x d]|r]|status|].
      * repeat split; cbn; try lia; discriminate.
      * specialize (IH (S p)). destruct (pages get_page fuel (Some m) (S p)) as [[ps ys] e].
        destruct IH as [H1 [H2 [H3 H4]]]. cbn [length seq]. rewrite <- H1.
        repeat split; try lia. intros H. apply H4. lia.
      * repeat split; cbn; try lia; discriminate.
      * destruct (Z.eqb status 404); repeat split; cbn; try lia; discriminate.
      * repeat split; cbn; try lia; discriminate.
    + repeat split; cbn; try lia; discriminate.
Qed.

(** With [max_pages = m], [paginate] requests the pages [1, 2, ...] in
    order, never past page [m] (none at all for [m = 0]), yields at most
    one value per page requested, and stops after at most [m + 1]
    iterations of its loop. *)
Theorem paginate_bounded get_page fuel m :
  let '(ps, ys, e) := paginate get_page fuel (Some m) in
  ps = seq 1 (length ps) /\ length ps <= m /\ length ys <= length ps /\
  (m < fuel -> e <> Running).
Proof.
  unfold paginate. pose proof (pages_bounded get_page m fuel 1) as H.
  destruct (pages get_page fuel (Some m) 1) as [[ps ys] e].
  destruct H as [H1 [H2 [H3 H4]]].
  split; [exact H1|]. split; [lia|]. split; [lia|]. intros H. apply H4. lia.
Qed.

Lemma pages_run get_page g : forall ds p fuel,
  Forall (fun d => d <> []) ds ->
  (forall i d, nth_error ds i = Some d -> get_page (p + i) = GOk (JData d)) ->
  get_page (p + length ds) = g ->
  (forall d, g = GOk (JData d) -> d = []) ->
  length ds < fuel ->
  pages get_page fuel None p = (seq p (S (length ds)), map YData ds ++ stop_yield g, stop_ending g).
Proof.
  induction ds as [|d ds IH]; intros p fuel Hne Hd Hg Hs Hf;
    (destruct fuel as [|fuel]; [cbn in Hf; lia|]); cbn [pages].
  - rewrite Nat.add_0_r in Hg. rewrite Hg.
    destruct g as [[dd|r]|status|]; cbn.
    + rewrite (Hs dd eq_refl). reflexivity.
    + reflexivity.
    + destruct (Z.eqb status 404); reflexivity.
    + reflexivity.
  - pose proof (Forall_inv Hne) as Hd0. pose proof (Forall_inv_tail Hne) as Hne'.
    assert (E0 := Hd 0 d eq_refl). rewrite Nat.add_0_r in E0. rewrite E0.
    destruct d as [|x d']; [contradiction|].
    rewrite (IH (S p) fuel Hne').
    + reflexivity.
    + intros i d0 H. rewrite <- (Hd (S i) d0 H). f_equal. lia.
    + rewrite <- Hg. f_equal. cbn. lia.
    + exact Hs.
    + cbn in Hf. lia.
Qed.

(** When pages [1 .. n] hold non-empty ['data'] lists and page [n + 1]
    does not, [paginate] without [max_pages] requests exactly the pages
    [1 .. n + 1] and yields the [n] lists; then the last answer decides:
    an empty ['data'] list or a 404 ends the iteration normally, a value
    without ['data'] is yielded once more before it ends, any other HTTP
    error or exception is raised after the [n] yields. *)
Theorem paginate_run get_page ds g fuel :
  Forall (fun d => d <> []) ds ->
  (forall i d, nth_error ds i = Some d -> get_page (S i) = GOk (JData d)) ->
  get_page (S (length ds)) = g ->
  (forall d, g = GOk (JData d) -> d = []) ->
  length ds < fuel ->
  paginate get_page fuel None = (seq 1 (S (length ds)), map YData ds ++ stop_yield g, stop_ending g).
Proof.
  intros Hne Hd Hg Hs Hf. unfold paginate. apply pages_run; assumption.
Qed.

Definition two_pages (n : nat) : get_result :=
  match n with 1 => GOk (JData [1%Z; 2%Z]) | 2 => GOk (JData [3%Z]) | _ => GHttpError 404 end.

Lemma paginate_bounded_witness :
  paginate (fun _ => GOk (JData [1%Z])) 10 (Some 3) = ([1; 2; 3], [YData [1%Z]; YData [1%Z]; YData [1%Z]], Finished) /\
  let '(ps, ys, e) := paginate (fun _ => GOk (JData [1%Z])) 10 (Some 3) in
  ps = seq 1 (length ps) /\ length ps <= 3 /\ length ys <= length ps /\ (3 < 10 -> e <> Running).
Proof.
  split; [vm_compute; reflexivity|]. exact (paginate_bounded (fun _ => GOk (JData [1%Z])) 10 3).
Defined.

Lemma paginate_run_witness :
  paginate two_pages 10 None = ([1; 2; 3], [YData [1%Z; 2%Z]; YData [3%Z]], Finished).
Proof.
  apply (paginate_run two_pages [[1%Z; 2%Z]; [3%Z]] (GHttpError 404) 10).
  - repeat constructor; discriminate.
  - intros [|[|[|i]]] d H; cbn in H; try discriminate; injection H as <-; reflexivity.
  - reflexivity.
  - intros d H. discriminate.
  - cbn. lia.
Defined.

End PaginateExtras.

(* ===================================================================== *)
(** ** The stats envelope of [BaseSync.run] *)

Module EnvelopeExtras.
Import SyncTask GoogleCalendar.
Local Open Scope string_scope.

Lemma get_dict_set k v d k' dflt :
  get (dict_set k v d) k' dflt = if String.eqb k' k then v else get d k' dflt.
Proof.
  induction d as [|[k0 v0] d IH]; cbn [dict_set get].
  - destruct (String.eqb k' k); reflexivity.
  - destruct (String.eqb k k0) eqn:E.
    + apply String.eqb_eq in E. subst k0. cbn [get]. destruct (String.eqb k' k); reflexivity.
    + cbn [get]. rewrite IH. destruct (String.eqb k' k0) eqn:E'; [|reflexivity].
      apply String.eqb_eq in E'. subst k'. rewrite String.eqb_sym, E. reflexivity.
Qed.

Lemma get_not_in d k dflt : ~ In k (map fst d) -> get d k dflt = dflt.
Proof.
  induction d as [|[k0 v0] d IH]; intros H; [reflexivity|]. cbn [get].
  destruct (String.eqb k k0) eqn:E.
  - apply String.eqb_eq in E. subst. exfalso. apply H. left. reflexivity.
  - apply IH. intros H'. apply H. right. exact H'.
Qed.

Lemma get_dict_update new : forall d k dflt,
  List.NoDup (map fst new) -> get (dict_update d new) k dflt = get new k (get d k dflt).
Proof.
  induction new as [|[k1 v1] new IH]; intros d k dflt Hn; [reflexivity|].
  unfold dict_update. cbn [fold_left]. fold (dict_update (dict_set k1 v1 d) new).
  apply NoDup_cons_iff in Hn as [Hk Hn].
  rewrite IH by exact Hn. rewrite get_dict_set. cbn [get].
  destruct (String.eqb k k1) eqn:E; [|reflexivity].
  apply String.eqb_eq in E. subst. apply get_not_in. exact Hk.
Qed.

(** [BaseSync.run] returns the connector's result laid over the envelope
    [started_at], [is_initial_sync], [sync_type]: every key of the result
    keeps the connector's value and the envelope fills in the others,
    except [status] and [completed_at], which are always ["success"] and
    the completion time, whatever the connector returned for them. *)
Theorem run_stats_keys is_initial sync_type started_at now result k dflt :
  List.NoDup (map fst result) ->
  get (run is_initial sync_type started_at now result) k dflt =
    if String.eqb k "completed_at" then VStr (isoformat now false)
    else if String.eqb k "status" then VStr "success"
    else get result k
           (get [("started_at", VStr (isoformat started_at false));
                 ("is_initial_sync", VBool is_initial); ("sync_type", VStr sync_type)] k dflt).
Proof.
  intros Hn. unfold run. rewrite !get_dict_set, get_dict_update by exact Hn. reflexivity.
Qed.

Lemma run_stats_keys_witness :
  get (run true "limited" 0 60
         [("status", VStr "partial"); ("events_processed", VInt 3); ("started_at", VInt 5)])
      "status" VNone = VStr "success" /\
  get (run true "limited" 0 60
         [("status", VStr "partial"); ("events_processed", VInt 3); ("started_at", VInt 5)])
      "started_at" VNone = VInt 5.
Proof.
  assert (Hn : List.NoDup (map fst [("status", VStr "partial"); ("events_processed", VInt 3);
                                ("started_at", VInt 5)])).
  { cbn. repeat constructor; cbn; intuition discriminate. }
  split; rewrite (run_stats_keys _ _ _ _ _ _ _ Hn); reflexivity.
Defined.

End EnvelopeExtras.

(* ===================================================================== *)
(** ** The calendar loop of [GoogleCalendarSync._run_sync] *)

Module CalendarExtras.
Import CalendarLoop.
Local Open Scope string_scope.
Local Open Scope nat_scope.

Lemma not_incremental_loop answer : forall fuel n tok fb p,
  truthy tok && negb fb = false ->
  let '(cs, ev, errs, stored, ended) := cal_loop answer fuel n tok fb p in
  Forall (fun c => c_sync_token c = None) cs /\ List.filter is_expired errs = [].
Proof.
  induction fuel as [|fuel IH]; intros n tok fb p Hi; [split; constructor|].
  cbn [cal_loop]. rewrite Hi.
  destruct (answer n _) as [items npt nst|status|]; cbn [list_events_result].
  - destruct (truthy npt).
    + specialize (IH (S n) tok fb npt Hi).
      destruct (cal_loop answer fuel (S n) tok fb npt) as [[[[cs ev] errs] st] e].
      destruct IH as [H1 H2]. split; [constructor; [reflexivity|exact H1]|exact H2].
    + split; [repeat constructor|reflexivity].
  - split; [repeat constructor|]. destruct (Z.eqb status 404); reflexivity.
  - split; [repeat constructor|reflexivity].
Qed.

Lemma nth_error_all_none cs i c :
  Forall (fun c => c_sync_token c = None) cs -> nth_error cs i = Some c -> c_sync_token c = None.
Proof.
  intros H E. apply nth_error_In in E. rewrite List.Forall_forall in H. exact (H c E).
Qed.

(** Within one calendar, the calls that pass a sync token all precede
    the full-sync calls: once [list_events] has been called without a
    sync token it is never called with one again.  And at most one
    ["sync_token_expired"] error is recorded, a second 410 being
    impossible after the fallback. *)
Theorem sync_token_calls_first answer fuel n tok fb p :
  let '(cs, ev, errs, stored, ended) := cal_loop answer fuel n tok fb p in
  length (List.filter is_expired errs) <= 1 /\
  (forall i j c c', i < j -> nth_error cs i = Some c -> nth_error cs j = Some c' ->
     c_sync_token c = None -> c_sync_token c' = None).
Proof.
  revert n tok fb p. induction fuel as [|fuel IH]; intros n tok fb p.
  - split; [cbn; lia|]. intros i j c c' _ Hi. destruct i; discriminate.
  - destruct (truthy tok && negb fb) eqn:Ei.
    + cbn [cal_loop]. rewrite Ei.
      assert (Ht : tok <> None) by (intros ->; discriminate Ei).
      destruct (answer n _) as [items npt nst|status|] eqn:Ea; cbn [list_events_result].
      * destruct (truthy npt).
        -- specialize (IH (S n) tok fb npt).
           destruct (cal_loop answer fuel (S n) tok fb npt) as [[[[cs ev] errs] st] e].
           destruct IH as [H1 H2]. split; [exact H1|].
           intros [|i] [|j] c c' Hij E1 E2 Hc; try lia.
           ++ injection E1 as <-. cbn in Hc. contradiction.
           ++ exact (H2 i j c c' ltac:(lia) E1 E2 Hc).
        -- split; [cbn; lia|]. intros [|i] [|j] c c' Hij E1 E2; try lia; destruct j; discriminate.
      * destruct (Z.eqb status 410).
        -- pose proof (not_incremental_loop answer fuel (S n) None true None eq_refl) as H0.
           destruct (cal_loop answer fuel (S n) None true None) as [[[[cs ev] errs] st] e].
           destruct H0 as [H1 H2].
           split; [cbn [List.filter is_expired]; rewrite H2; cbn; lia|].
           intros [|i] [|j] c c' Hij E1 E2 Hc; try lia;
             exact (nth_error_all_none cs j c' H1 E2).
        -- split; [destruct (Z.eqb status 404); cbn; lia|].
           intros [|i] [|j] c c' Hij E1 E2; try lia; destruct j; discriminate.
      * split; [cbn; lia|]. intros [|i] [|j] c c' Hij E1 E2; try lia; destruct j; discriminate.
    + pose proof (not_incremental_loop answer (S fuel) n tok fb p Ei) as H0.
      destruct (cal_loop answer (S fuel) n tok fb p) as [[[[cs ev] errs] st] e].
      destruct H0 as [H1 H2]. rewrite H2. split; [cbn; lia|].
      intros i j c c' _ _ E2 _. exact (nth_error_all_none cs j c' H1 E2).
Qed.

(** The token [calendar_sync_tokens] receives for a calendar is the
    ['nextSyncToken'] of the last page of its loop, one without a truthy
    ['nextPageToken']: a token sent along with a next page is never
    stored, and storing it ends the loop. *)
Theorem stored_token_last_page answer fuel n tok fb p :
  let '(cs, ev, errs, stored, ended) := cal_loop answer fuel n tok fb p in
  forall t, stored = Some t ->
  ended = true /\
  exists c items npt, nth_error cs (length cs - 1) = Some c /\
    answer (n + (length cs - 1)) c = LOk items npt (Some t) /\ truthy npt = false.
Proof.
  revert n tok fb p. induction fuel as [|fuel IH]; intros n tok fb p; [intros t H; discriminate|].
  cbn [cal_loop].
  destruct (truthy tok && negb fb) eqn:Ei;
    destruct (answer n _) as [items npt nst|status|] eqn:Ea; cbn [list_events_result];
    try (destruct (Z.eqb status 410)); try (intros t H; discriminate).
  (* a page, with and without a sync token *)
  1, 3: destruct (truthy npt) eqn:En;
    [ specialize (IH (S n) tok fb npt);
      destruct (cal_loop answer fuel (S n) tok fb npt) as [[[[cs ev] errs] st] e];
      intros t Ht; destruct (IH t Ht) as [He [c' [i' [np' [E1 [E2 E3]]]]]];
      split; [exact He|]; exists c', i', np';
      (destruct cs as [|c0 cs0]; [destruct (length [] - 1); discriminate|]);
      replace (length (_ :: c0 :: cs0) - 1) with (S (length (c0 :: cs0) - 1)) by (cbn; lia);
      rewrite <- Nat.add_succ_comm; split; [exact E1|split; [exact E2|exact E3]]
    | intros t Ht; destruct nst as [t'|]; [|discriminate]; injection Ht as <-;
      split; [reflexivity|]; eexists _, items, npt; rewrite Nat.add_0_r;
      split; [reflexivity|split; [exact Ea|exact En]] ].
  (* the 410 fallback *)
  specialize (IH (S n) None true None).
  destruct (cal_loop answer fuel (S n) None true None) as [[[[cs ev] errs] st] e].
  intros t Ht; destruct (IH t Ht) as [He [c' [i' [np' [E1 [E2 E3]]]]]].
  split; [exact He|]. exists c', i', np'.
  destruct cs as [|c0 cs0]; [destruct (length [] - 1); discriminate|].
  replace (length (_ :: c0 :: cs0) - 1) with (S (length (c0 :: cs0) - 1)) by (cbn; lia).
  rewrite <- Nat.add_succ_comm. split; [exact E1|split; [exact E2|exact E3]].
Qed.

Lemma initial_token_some o t :
  initial_token o = Some t -> o = Some t /\ truthy (Some t) = true.
Proof.
  destruct o as [s|]; [|discriminate]. cbn [initial_token].
  destruct (existsb _ _) eqn:E; [|discriminate]. intros H. injection H as <-.
  split; [reflexivity|]. cbn [truthy]. unfold ApiClient.truthy_str.
  destruct (String.eqb s "") eqn:Es; [|reflexivity].
  apply String.eqb_eq in Es. subst s. discriminate E.
Qed.

(** A calendar with a stored token whose incremental call fails with an
    HTTP status other than 410: the [raise] of the inner handler is
    caught by the handler of the loop body, so the calendar is counted,
    one error is recorded (["calendar_not_found"] for a 404, ["http_error"]
    otherwise), no full sync is tried, and the failing token is kept, by
    the merge, for the next run. *)
Theorem incremental_error_keeps_token answer fuel sel existing cal t s :
  0 < fuel -> is_selected sel cal = true -> initial_token (existing !! cal_id cal) = Some t ->
  answer (cal_id cal) 0 {| c_sync_token := Some t; c_page_token := None |} = LHttpError s ->
  s <> 410%Z ->
  let '(synced, ev, errs, cst, calls) := calendars_loop answer fuel sel existing [cal] ∅ in
  synced = 1 /\ ev = 0 /\
  errs = [(cal_id cal, if Z.eqb s 404 then CalendarNotFound else HttpError)] /\
  calls = [(cal_id cal, {| c_sync_token := Some t; c_page_token := None |})] /\
  GoogleCalendar.all_sync_tokens existing cst !! cal_id cal = Some t.
Proof.
  intros Hf Hs Ht Ha Hn. destruct fuel as [|fuel]; [lia|].
  destruct (initial_token_some _ _ Ht) as [He Htr].
  cbn [calendars_loop]. rewrite Hs, Ht. cbn [cal_loop]. rewrite Htr. cbn [negb andb].
  rewrite Ha. apply Z.eqb_neq in Hn. rewrite Hn. cbn.
  repeat split. unfold GoogleCalendar.all_sync_tokens. rewrite map_empty_union. exact He.
Qed.

(** [calendars_synced] counts the selected calendars, whatever their
    calls gave (a calendar whose every call failed counts too), and
    [calendar_sync_tokens] gets entries only for selected calendars. *)
Theorem calendars_synced_count answer fuel sel existing cals cst0 :
  let '(synced, ev, errs, cst, calls) := calendars_loop answer fuel sel existing cals cst0 in
  synced = length (List.filter (is_selected sel) cals) /\
  (forall id t, cst !! id = Some t ->
     cst0 !! id = Some t \/ exists cal, In cal cals /\ is_selected sel cal = true /\ cal_id cal = id).
Proof.
  revert cst0. induction cals as [|cal rest IH]; intros cst0.
  - split; [reflexivity|]. intros id t H. left. exact H.
  - cbn [calendars_loop List.filter]. destruct (is_selected sel cal) eqn:Es.
    + destruct (cal_loop _ _ _ _ _ _) as [[[[cs ev] errs] stored] e].
      set (cst' := match stored with Some t => <[cal_id cal := t]> cst0 | None => cst0 end).
      specialize (IH cst').
      destruct (calendars_loop answer fuel sel existing rest cst') as [[[[synced ev'] errs'] cst''] calls].
      destruct IH as [H1 H2]. split; [cbn [length]; f_equal; exact H1|].
      intros id t H. destruct (H2 id t H) as [H3|[cal' [Hi [Hs' Hc]]]].
      * destruct (decide (cal_id cal = id)) as [<-|Hne].
        -- right. exists cal. split; [left; reflexivity|split; [exact Es|reflexivity]].
        -- left. subst cst'. destruct stored; [|exact H3].
           rewrite lookup_insert_ne in H3 by exact Hne. exact H3.
      * right. exists cal'. split; [right; exact Hi|split; [exact Hs'|exact Hc]].
    + specialize (IH cst0).
      destruct (calendars_loop answer fuel sel existing rest cst0) as [[[[synced ev'] errs'] cst''] calls].
      destruct IH as [H1 H2]. split; [exact H1|].
      intros id t H. destruct (H2 id t H) as [H3|[cal' [Hi [Hs' Hc]]]]; [left; exact H3|].
      right. exists cal'. split; [right; exact Hi|split; [exact Hs'|exact Hc]].
Qed.

Lemma calendars_loop_keeps answer fuel sel existing : forall cals cst0 k,
  cst0 !! k <> None ->
  let '(_, _, _, cst, _) := calendars_loop answer fuel sel existing cals cst0 in cst !! k <> None.
Proof.
  induction cals as [|cal rest IH]; intros cst0 k H; [exact H|].
  cbn [calendars_loop]. destruct (is_selected sel cal); [|exact (IH cst0 k H)].
  destruct (cal_loop _ _ _ _ _ _) as [[[[cs ev] errs] stored] e].
  match goal with |- context [calendars_loop _ _ _ _ rest ?c] =>
    assert (Hc : c !! k <> None) end.
  { destruct stored as [t|]; [|exact H].
    destruct (decide (cal_id cal = k)) as [<-|Hne].
    - rewrite lookup_insert_eq. discriminate.
    - rewrite lookup_insert_ne by exact Hne. exact H. }
  pose proof (IH _ k Hc) as H'.
  destruct (calendars_loop answer fuel sel existing rest _) as [[[[synced ev'] errs'] cst''] calls].
  exact H'.
Qed.

Lemma calendars_loop_stores answer fuel sel existing : forall cals cst0 cal t,
  In cal cals -> is_selected sel cal = true ->
  (let '(_, _, _, stored, _) := cal_loop (answer (cal_id cal)) fuel 0
      (initial_token (existing !! cal_id cal)) false None in stored) = Some t ->
  let '(_, _, _, cst, _) := calendars_loop answer fuel sel existing cals cst0 in
  cst !! cal_id cal <> None.
Proof.
  induction cals as [|cal0 rest IH]; intros cst0 cal t Hi Hs Ht; [destruct Hi|].
  destruct Hi as [<-|Hi].
  - cbn [calendars_loop]. rewrite Hs.
    destruct (cal_loop _ _ _ _ _ _) as [[[[cs ev] errs] stored] e]. subst stored.
    assert (Hc : <[cal_id cal0 := t]> cst0 !! cal_id cal0 <> None)
      by (rewrite lookup_insert_eq; discriminate).
    pose proof (calendars_loop_keeps answer fuel sel existing rest _ _ Hc) as H'.
    destruct (calendars_loop answer fuel sel existing rest _) as [[[[synced ev'] errs'] cst''] calls].
    exact H'.
  - cbn [calendars_loop]. destruct (is_selected sel cal0); [|exact (IH cst0 cal t Hi Hs Ht)].
    destruct (cal_loop (answer (cal_id cal0)) _ _ _ _ _) as [[[[cs ev] errs] stored] e].
    match goal with |- context [calendars_loop _ _ _ _ rest ?c] =>
      pose proof (IH c cal t Hi Hs Ht) as H' end.
    destruct (calendars_loop answer fuel sel existing rest _) as [[[[synced ev'] errs'] cst''] calls].
    exact H'.
Qed.

Lemma calendars_loop_full_sync answer fuel sel : forall cals cst0,
  let '(_, _, _, _, calls) := calendars_loop answer fuel sel ∅ cals cst0 in
  Forall (fun c => c_sync_token (snd c) = None) calls.
Proof.
  induction cals as [|cal rest IH]; intros cst0; [constructor|].
  cbn [calendars_loop]. destruct (is_selected sel cal); [|exact (IH cst0)].
  rewrite lookup_empty. cbn [initial_token].
  pose proof (not_incremental_loop (answer (cal_id cal)) fuel 0 None false None eq_refl) as H0.
  destruct (cal_loop _ _ _ _ _ _) as [[[[cs ev] errs] stored] e]. destruct H0 as [H0 _].
  match goal with |- context [calendars_loop _ _ _ _ rest ?c] => specialize (IH c) end.
  destruct (calendars_loop answer fuel sel ∅ rest _) as [[[[synced ev'] errs'] cst''] calls].
  apply Forall_app. split; [|exact IH].
  apply List.Forall_map. exact H0.
Qed.

(** A first sync, with no stored tokens: every call of [list_events] is
    a full sync without a sync token, and yet [batch_metadata] reports
    [sync_type] ["incremental"] as soon as one selected calendar's loop
    ends with a ['nextSyncToken']. *)
Theorem first_sync_reported_incremental answer fuel sel cals cal t :
  In cal cals -> is_selected sel cal = true ->
  (let '(_, _, _, stored, _) := cal_loop (answer (cal_id cal)) fuel 0 None false None in stored)
    = Some t ->
  let '(synced, ev, errs, cst, calls) := calendars_loop answer fuel sel ∅ cals ∅ in
  Forall (fun c => c_sync_token (snd c) = None) calls /\ batch_sync_type cst = "incremental".
Proof.
  intros Hi Hs Ht.
  pose proof (calendars_loop_full_sync answer fuel sel cals ∅) as H1.
  assert (Ht' : (let '(_, _, _, stored, _) := cal_loop (answer (cal_id cal)) fuel 0
                   (initial_token ((∅ : gmap string string) !! cal_id cal)) false None in stored)
                = Some t) by (rewrite lookup_empty; exact Ht).
  pose proof (calendars_loop_stores answer fuel sel ∅ cals ∅ cal t Hi Hs Ht') as H2.
  destruct (calendars_loop answer fuel sel ∅ cals ∅) as [[[[synced ev] errs] cst] calls].
  split; [exact H1|]. unfold batch_sync_type.
  destruct (decide (cst = ∅)) as [->|_]; [|reflexivity].
  rewrite lookup_empty in H2. contradiction.
Qed.

Definition cal_answer (n : nat) (c : call) : lresult :=
  match n with
  | O => LHttpError 410
  | S O => LOk [1%Z; 2%Z] (Some "p2") (Some "x")
  | _ => LOk [3%Z] None (Some "new")
  end.

Definition cal_list : list calendar :=
  [{| cal_id := "a"; cal_selected := None |}; {| cal_id := "b"; cal_selected := Some false |};
   {| cal_id := "c"; cal_selected := Some true |}].

Definition two_answers (id : string) : nat -> call -> lresult :=
  if String.eqb id "a" then cal_answer else fun _ _ => LHttpError 404.

Definition failing_answer (id : string) (n : nat) (c : call) : lresult := LHttpError 500.

Definition first_answer (id : string) (n : nat) (c : call) : lresult :=
  LOk [5%Z] None (Some "tokA").

Lemma cal_answer_run :
  cal_loop cal_answer 10 0 (Some "old") false None =
    ([{| c_sync_token := Some "old"; c_page_token := None |};
      {| c_sync_token := None; c_page_token := None |};
      {| c_sync_token := None; c_page_token := Some "p2" |}],
     3, [SyncTokenExpired], Some "new", true).
Proof. reflexivity. Qed.

Lemma sync_token_calls_first_witness :
  length (List.filter is_expired [SyncTokenExpired]) <= 1 /\
  c_sync_token {| c_sync_token := None; c_page_token := Some "p2" |} = None.
Proof.
  pose proof (sync_token_calls_first cal_answer 10 0 (Some "old") false None) as H.
  rewrite cal_answer_run in H. destruct H as [H1 H2]. split; [exact H1|].
  exact (H2 1 2 _ _ ltac:(lia) eq_refl eq_refl eq_refl).
Defined.

Lemma stored_token_last_page_witness :
  exists c items npt,
    nth_error [{| c_sync_token := Some "old"; c_page_token := None |};
               {| c_sync_token := None; c_page_token := None |};
               {| c_sync_token := None; c_page_token := Some "p2" |}] 2 = Some c /\
    cal_answer 2 c = LOk items npt (Some "new") /\ truthy npt = false.
Proof.
  pose proof (stored_token_last_page cal_answer 10 0 (Some "old") false None) as H.
  rewrite cal_answer_run in H. destruct (H "new" eq_refl) as [_ H']. exact H'.
Defined.

Lemma incremental_error_keeps_token_witness :
  calendars_loop failing_answer 10 None {[ "a" := "old" ]} [{| cal_id := "a"; cal_selected := None |}] ∅
    = (1, 0, [("a", HttpError)], ∅, [("a", {| c_sync_token := Some "old"; c_page_token := None |})]) /\
  GoogleCalendar.all_sync_tokens {[ "a" := "old" ]} ∅ !! "a" = Some "old".
Proof.
  split; [reflexivity|].
  pose proof (incremental_error_keeps_token failing_answer 10 None {[ "a" := "old" ]}
    {| cal_id := "a"; cal_selected := None |} "old" 500 ltac:(lia) eq_refl eq_refl eq_refl
    ltac:(discriminate)) as H.
  change (calendars_loop failing_answer 10 None {[ "a" := "old" ]}
            [{| cal_id := "a"; cal_selected := None |}] ∅)
    with (1, 0, [("a", HttpError)], (∅ : gmap string string),
          [("a", {| c_sync_token := Some "old"; c_page_token := None |})]) in H.
  exact (proj2 (proj2 (proj2 (proj2 H)))).
Defined.

Lemma calendars_synced_count_witness :
  (let '(synced, _, errs, _, _) :=
     calendars_loop two_answers 10 None {[ "a" := "old" ]} cal_list ∅ in (synced, errs)) =
    (2, [("a", SyncTokenExpired); ("c", CalendarNotFound)]) /\
  (let '(synced, _, _, _, _) :=
     calendars_loop two_answers 10 None {[ "a" := "old" ]} cal_list ∅ in synced) =
    length (List.filter (is_selected None) cal_list).
Proof.
  split; [reflexivity|].
  pose proof (calendars_synced_count two_answers 10 None {[ "a" := "old" ]} cal_list ∅) as H.
  destruct (calendars_loop two_answers 10 None {[ "a" := "old" ]} cal_list ∅)
    as [[[[synced ev] errs] cst] calls].
  exact (proj1 H).
Defined.

Lemma first_sync_reported_incremental_witness :
  batch_sync_type
    (let '(_, _, _, cst, _) := calendars_loop first_answer 10 None ∅ cal_list ∅ in cst)
    = "incremental".
Proof.
  pose proof (first_sync_reported_incremental first_answer 10 None cal_list
    {| cal_id := "a"; cal_selected := None |} "tokA" ltac:(left; reflexivity) eq_refl eq_refl) as H.
  destruct (calendars_loop first_answer 10 None ∅ cal_list ∅) as [[[[synced ev] errs] cst] calls].
  exact (proj2 H).
Defined.

End CalendarExtras.

(* ===================================================================== *)
(** ** The row of [sync_stream] behind [StreamWrapper] *)

Module StreamRowExtras.
Import SyncRange StreamRow.
Local Open Scope string_scope.

(** On a first sync, the defaults [90], [30] and ['limited'] of the
    [StreamWrapper] properties never apply to the row of [sync_stream]:
    its query selects [initial_sync_type], [initial_sync_days] and
    [initial_sync_days_future], so the keys are there even when the
    columns are [NULL].  A limited initial sync with a [NULL] day count
    raises ([timedelta(days=None)]) instead of using the default. *)
Theorem stream_row_no_defaults `{BaseSync} stc t d f now :
  (initial_sync_type (stream_row stc t d f PNone) = t /\
   initial_sync_days (stream_row stc t d f PNone) = d /\
   initial_sync_days_future (stream_row stc t d f PNone) = f) /\
  (is_full t = false -> d = PNone \/ f = PNone ->
   get_sync_date_range (stream_row stc t d f PNone) now = None).
Proof.
  assert (Ht : initial_sync_type (stream_row stc t d f PNone) = t).
  { unfold initial_sync_type, dict_get, stream_row, stream_dict in *.
    rewrite !lookup_insert_ne by discriminate. rewrite lookup_insert_eq. reflexivity. }
  assert (Hd : initial_sync_days (stream_row stc t d f PNone) = d).
  { unfold initial_sync_days, dict_get, stream_row, stream_dict in *.
    rewrite !lookup_insert_ne by discriminate. rewrite lookup_insert_eq. reflexivity. }
  assert (Hf : initial_sync_days_future (stream_row stc t d f PNone) = f).
  { unfold initial_sync_days_future, dict_get, stream_row, stream_dict in *.
    rewrite lookup_insert_ne by discriminate. rewrite lookup_insert_eq. reflexivity. }
  assert (Hl : is_initial_sync (stream_row stc t d f PNone) = true).
  { unfold is_initial_sync, last_successful_ingestion_at, dict_get, stream_row, stream_dict in *.
    rewrite lookup_insert_eq. reflexivity. }
  split; [split; [exact Ht|split; [exact Hd|exact Hf]]|].
  intros Hn Hnull. unfold get_sync_date_range. rewrite Hl, Ht, Hn, Hd, Hf.
  destruct Hnull as [->| ->]; [reflexivity|]. destruct (days d); reflexivity.
Qed.

Lemma stream_row_no_defaults_witness :
  get_sync_date_range (stream_row ∅ (PStr "limited") PNone (PInt 30) PNone) 0 = None.
Proof.
  apply (proj2 (stream_row_no_defaults ∅ (PStr "limited") PNone (PInt 30) 0));
    [reflexivity|left; reflexivity].
Defined.

Lemma lookup_set_item {V} k v (d : list (string * V)) k' :
  lookup_key (set_item k v d) k' = if String.eqb k' k then Some v else lookup_key d k'.
Proof.
  induction d as [|[k0 v0] d IH]; cbn [set_item lookup_key].
  - destruct (String.eqb k' k); reflexivity.
  - destruct (String.eqb k k0) eqn:E.
    + apply String.eqb_eq in E. subst k0. cbn [lookup_key]. destruct (String.eqb k' k); reflexivity.
    + cbn [lookup_key]. rewrite IH. destruct (String.eqb k' k0) eqn:E'; [|reflexivity].
      apply String.eqb_eq in E'. subst k'. rewrite String.eqb_sym, E. reflexivity.
Qed.

Lemma lookup_key_not_in {V} (d : list (string * V)) k : ~ In k (map fst d) -> lookup_key d k = None.
Proof.
  induction d as [|[k0 v0] d IH]; intros H; [reflexivity|]. cbn [lookup_key].
  destruct (String.eqb k k0) eqn:E.
  - apply String.eqb_eq in E. subst. exfalso. apply H. left. reflexivity.
  - apply IH. intros H'. apply H. right. exact H'.
Qed.

Lemma lookup_merge {V} (b : list (string * V)) : forall a k,
  List.NoDup (map fst b) ->
  lookup_key (merge a b) k = match lookup_key b k with Some v => Some v | None => lookup_key a k end.
Proof.
  induction b as [|[k1 v1] b IH]; intros a k Hn; [reflexivity|].
  unfold merge. cbn [fold_left]. fold (merge (set_item k1 v1 a) b).
  apply NoDup_cons_iff in Hn as [Hk Hn].
  rewrite IH by exact Hn. rewrite lookup_set_item. cbn [lookup_key].
  destruct (String.eqb k k1) eqn:E.
  - apply String.eqb_eq in E. subst. rewrite lookup_key_not_in by exact Hk. reflexivity.
  - reflexivity.
Qed.

(** [StreamWrapper.settings] on the row of [sync_stream], where both
    ['settings'] (of [stream_configs]) and ['instance_settings'] are
    present: it raises [TypeError] exactly when one of the two columns is
    [NULL]; otherwise each key has its instance value if the instance
    settings hold it, and its config value if not. *)
Theorem settings_merge_or_raise {V} (c i : setting_col V) :
  (settings (Some c) (Some i) = None <-> c = SNull \/ i = SNull) /\
  (forall a b, c = SDict a -> i = SDict b -> List.NoDup (map fst b) ->
   exists m, settings (Some c) (Some i) = Some m /\
     forall k, lookup_key m k = match lookup_key b k with Some v => Some v | None => lookup_key a k end).
Proof.
  split.
  - destruct c as [|a]; destruct i as [|b]; cbn; split; intros H;
      try (left; reflexivity); try (right; reflexivity); try reflexivity; try discriminate.
    destruct H; discriminate.
  - intros a b -> -> Hn. exists (merge a b). split; [reflexivity|].
    intros k. exact (lookup_merge b a k Hn).
Qed.

Lemma settings_merge_or_raise_witness :
  settings (Some (SDict [("calendar_ids", 1%Z); ("x", 2%Z)])) (Some (SDict [("x", 3%Z)])) =
    Some [("calendar_ids", 1%Z); ("x", 3%Z)] /\
  lookup_key [("calendar_ids", 1%Z); ("x", 3%Z)] "x" = Some 3%Z.
Proof.
  split; [reflexivity|].
  destruct (proj2 (settings_merge_or_raise (SDict [("calendar_ids", 1%Z); ("x", 2%Z)])
                    (SDict [("x", 3%Z)])) _ _ eq_refl eq_refl
              ltac:(repeat constructor; intros [])) as [m [E H]].
  injection E as <-. exact (H "x").
Defined.

End StreamRowExtras.

(* ===================================================================== *)
(** ** Where a processor's module and its configuration are looked up *)

Module NamingExtras.
Import Naming.
Local Open Scope nat_scope.

Definition lowercase_word (p : list ascii) : Prop :=
  (2 <= length p)%nat /\ Forall (fun c => is_lower c = true) p.

Lemma lower_char c : is_lower c = true ->
  is_upper (to_upper c) = true /\ is_lower (to_upper c) = false /\
  to_lower (to_upper c) = c /\ to_lower c = c.
Proof.
  intros H. unfold to_upper, to_lower. rewrite H.
  unfold is_lower, is_upper in *. cbv beta zeta in *.
  apply andb_true_iff in H as [H1 H2]. apply Nat.leb_le in H1, H2.
  assert (Hn : nat_of_ascii (ascii_of_nat (nat_of_ascii c - 32)) = nat_of_ascii c - 32).
  { apply nat_ascii_embedding. lia. }
  rewrite Hn.
  replace (Nat.leb 65 (nat_of_ascii c - 32) && Nat.leb (nat_of_ascii c - 32) 90) with true
    by (symmetry; apply andb_true_iff; split; apply Nat.leb_le; lia).
  replace (Nat.leb 97 (nat_of_ascii c - 32) && Nat.leb (nat_of_ascii c - 32) 122) with false
    by (symmetry; apply andb_false_iff; left; apply Nat.leb_gt; lia).
  replace (Nat.leb 65 (nat_of_ascii c) && Nat.leb (nat_of_ascii c) 90) with false
    by (symmetry; apply andb_false_iff; right; apply Nat.leb_gt; lia).
  replace (nat_of_ascii c - 32 + 32) with (nat_of_ascii c) by lia.
  rewrite ascii_nat_embedding. repeat split; reflexivity.
Qed.

Lemma lower_id p : Forall (fun c => is_lower c = true) p -> lower p = p.
Proof.
  induction 1 as [|c p Hc _ IH]; [reflexivity|]. cbn [lower map]. fold (lower p).
  rewrite IH. destruct (lower_char c Hc) as [_ [_ [_ ->]]]. reflexivity.
Qed.

Lemma lower_capitalize p : Forall (fun c => is_lower c = true) p -> lower (capitalize p) = p.
Proof.
  intros H. destruct H as [|c p Hc Hp]; [reflexivity|]. cbn [capitalize lower map].
  fold (lower p). rewrite (lower_id p Hp). fold (lower p). rewrite (lower_id p Hp).
  destruct (lower_char c Hc) as [_ [_ [-> _]]]. reflexivity.
Qed.

Lemma findall_run l : forall w rest,
  Forall (fun c => is_lower c = true) l ->
  match rest with c :: _ => is_lower c = false | [] => True end ->
  findall_from (l ++ rest) (Some w) = emit (w ++ l) ++ findall_from rest None.
Proof.
  induction l as [|x l IH]; intros w rest Hl Hr.
  - rewrite app_nil_r. destruct rest as [|c r]; cbn [app findall_from].
    + rewrite app_nil_r. reflexivity.
    + rewrite Hr. reflexivity.
  - inversion Hl as [|? ? Hx Hl']; subst. cbn [app findall_from]. rewrite Hx.
    rewrite (IH (w ++ [x]) rest Hl' Hr). rewrite <- app_assoc. reflexivity.
Qed.

Lemma findall_capitalized parts :
  Forall lowercase_word parts ->
  findall_words (concat (map capitalize parts)) = map capitalize parts.
Proof.
  unfold findall_words. induction 1 as [|p parts [Hlen Hp] Hps IH]; [reflexivity|].
  destruct Hp as [|c r Hc Hr]; [cbn in Hlen; lia|].
  destruct (lower_char c Hc) as [Hu [Hl' _]].
  cbn [map concat capitalize]. rewrite <- app_comm_cons. cbn [findall_from]. rewrite Hu.
  rewrite lower_id by exact Hr.
  rewrite findall_run by (exact Hr ||
    (destruct parts as [|q qs]; [exact I|];
     inversion Hps as [|? ? [Hq Hqw] _]; subst;
     destruct Hqw as [|d q' Hd _]; [cbn in Hq; lia|];
     cbn [map concat capitalize app]; exact (proj1 (proj2 (lower_char d Hd))))).
  rewrite IH. unfold emit. cbn [app length] in *.
  replace (2 <=? S (length r))%nat with true by (symmetry; apply Nat.leb_le; lia). reflexivity.
Qed.

Lemma no_underscore p : Forall (fun c => is_lower c = true) p -> Forall (fun c => Ascii.eqb c underscore = false) p.
Proof.
  apply List.Forall_impl. intros c H. destruct (Ascii.eqb c underscore) eqn:E; [|reflexivity].
  apply Ascii.eqb_eq in E. subst. discriminate H.
Qed.

Lemma split_on_app x rest :
  Forall (fun c => Ascii.eqb c underscore = false) x ->
  split_on underscore (x ++ rest) =
    (x ++ hd [] (split_on underscore rest)) :: tl (split_on underscore rest).
Proof.
  induction 1 as [|a x Ha _ IH].
  - cbn [app]. destruct rest as [|c r]; [reflexivity|]. cbn [split_on].
    destruct (Ascii.eqb c underscore); [reflexivity|].
    destruct (split_on underscore r); reflexivity.
  - cbn [app split_on]. rewrite Ha, IH. reflexivity.
Qed.

Lemma split_once_app x y :
  Forall (fun c => Ascii.eqb c underscore = false) x ->
  split_once underscore (x ++ underscore :: y) = [x; y].
Proof.
  induction 1 as [|a x Ha _ IH]; [reflexivity|]. cbn [app split_once]. rewrite Ha, IH. reflexivity.
Qed.

Lemma join_cons2 x y rest : join underscore (x :: y :: rest) = x ++ underscore :: join underscore (y :: rest).
Proof. reflexivity. Qed.

Lemma split_on_join parts : forall x,
  Forall (fun p => Forall (fun c => Ascii.eqb c underscore = false) p) (x :: parts) ->
  split_on underscore (join underscore (x :: parts)) = x :: parts.
Proof.
  induction parts as [|y parts IH]; intros x H; inversion H as [|? ? Hx Hps]; subst.
  - cbn [join map concat]. rewrite app_nil_r.
    rewrite <- (app_nil_r x) at 1. rewrite split_on_app by exact Hx. rewrite app_nil_r. reflexivity.
  - rewrite join_cons2. rewrite split_on_app by exact Hx. cbn [split_on Ascii.eqb].
    rewrite (IH y Hps). rewrite app_nil_r. reflexivity.
Qed.

(** For a stream name [source_segment1_..._segmentN] made of lower-case
    words of two letters or more, [get_processor_class] and
    [StreamProcessor.__init__] agree: the class name it builds parses
    back into the source name and the stream suffix of the module path
    ([sources.<source>.<suffix>.processor]), so the processor reads the
    [_stream.yaml] of the directory its module was loaded from. *)
Theorem processor_paths_agree source segs :
  Forall lowercase_word (source :: segs) -> segs <> [] ->
  stream_suffix source (join underscore (source :: segs)) = join underscore segs /\
  init_paths (processor_class_name (join underscore (source :: segs))) =
    Some (source, stream_suffix source (join underscore (source :: segs))).
Proof.
  intros H Hs. destruct segs as [|s1 rest]; [contradiction|].
  assert (Hn : Forall (fun p => Forall (fun c => Ascii.eqb c underscore = false) p)
                 (source :: s1 :: rest)).
  { exact (@List.Forall_impl _ _ _ (fun p (Hp : lowercase_word p) => no_underscore p (proj2 Hp)) _ H). }
  assert (Hsuf : stream_suffix source (join underscore (source :: s1 :: rest)) =
                 join underscore (s1 :: rest)).
  { unfold stream_suffix. rewrite join_cons2.
    rewrite split_once_app by exact (Forall_inv Hn).
    unfold list_eqb. destruct (List.list_eq_dec ascii_dec source source) as [_|E]; [reflexivity|].
    contradiction. }
  split; [exact Hsuf|]. rewrite Hsuf.
  unfold processor_class_name, init_paths. rewrite (split_on_join _ _ Hn).
  set (X := concat (map capitalize (source :: s1 :: rest))).
  assert (Hl : length StreamProcessor_suffix = 15%nat) by reflexivity.
  assert (He : ends_with StreamProcessor_suffix (X ++ StreamProcessor_suffix) = true).
  { unfold ends_with. rewrite length_app, Hl.
    replace (length X + 15 - 15)%nat with (length X) by lia.
    rewrite skipn_app, skipn_all, Nat.sub_diag. cbn [skipn app].
    replace (15 <=? length X + 15)%nat with true by (symmetry; apply Nat.leb_le; lia).
    unfold list_eqb. destruct (List.list_eq_dec ascii_dec _ _) as [_|E]; [reflexivity|contradiction]. }
  rewrite He. rewrite length_app, Hl.
  replace (length X + 15 - 15)%nat with (length X) by lia.
  rewrite firstn_app, firstn_all, Nat.sub_diag, firstn_O, app_nil_r.
  subst X. rewrite (findall_capitalized _ H). cbn [map].
  inversion H as [|? ? [_ Hsrc] Hsegs]; subst.
  rewrite (lower_capitalize _ Hsrc).
  f_equal. f_equal. f_equal. rewrite map_map.
  change (map (fun x => lower (capitalize x)) (s1 :: rest) = s1 :: rest).
  clear -Hsegs. induction Hsegs as [|p ps [_ Hp] _ IH]; [reflexivity|].
  cbn [map]. rewrite (lower_capitalize p Hp). f_equal. exact IH.
Qed.

Lemma processor_paths_agree_witness :
  init_paths (processor_class_name (list_ascii_of_string "google_calendar")) =
    Some (list_ascii_of_string "google", list_ascii_of_string "calendar").
Proof.
  assert (H : Forall lowercase_word [list_ascii_of_string "google"; list_ascii_of_string "calendar"]).
  { repeat constructor; split; first [cbn; lia | repeat constructor]. }
  destruct (processor_paths_agree (list_ascii_of_string "google") [list_ascii_of_string "calendar"]
              H ltac:(discriminate)) as [Hs Hp].
  change (list_ascii_of_string "google_calendar")
    with (join underscore [list_ascii_of_string "google"; list_ascii_of_string "calendar"]).
  rewrite Hp, Hs. reflexivity.
Defined.

End NamingExtras.
